(** * Mol*: Structure data model and atom-group queries

    A shallow embedding of
      - [mol-model/structure/structure/structure.ts] (class [Structure],
        namespace [Structure]), and
      - the atom-group query generators ([atoms], [atomGroupsLinear],
        [atomGroupsSegmented], [LinearGroupingBuilder], [atomGroupsGrouped]).

    JavaScript numbers that the code uses as integers are [Z]; array
    positions are [nat]; objects that are shared by reference (the units
    array handed to the [Structure] constructor, [Structure] instances)
    live in an explicit heap and are named by their index in it. *)

From Stdlib Require Import ZArith Lia.
From stdpp Require Import base tactics option list gmap strings sorting relations.

(** ** Ordered index sets and segmentation (mol-data/int) *)

Module IntData.

(** Modelled from the spec: [OrderedSet] (mol-data/int), a sorted,
    deduplicated collection of element indices; here the list of its
    members in increasing order. *)
Abbreviation OrderedSet := (list Z) (only parsing).

(** Modelled from the spec: [OrderedSet.getAt(set, j)], the member at
    position [j].  The engine only passes positions inside the set (see
    [segmentsAcc_bounds]); the default stands for the [undefined] that a
    position outside would read. *)
Definition getAt (set : OrderedSet) (j : nat) : Z := default 0%Z (set !! j).

(** Modelled from the spec: a [Segmentation] (mol-data/int) assigns every
    element index the parent group (chain, residue) it belongs to. *)
Record Segmentation := { getSegment : Z -> Z }.

(** Modelled from the spec: a [Segment], the positions [start, end_) of a
    set that belong to group [index] ([end] is exclusive: the engine loops
    [for (j = segment.start; j < segment.end; j++)]). *)
Record Segment := { index : Z; start : nat; end_ : nat }.

(** Modelled from the spec: [Segmentation.transientSegments] walks the
    maximal contiguous runs of a set that belong to one parent group.  The
    iterator is represented by the list of segments it yields; [n] positions
    from [pos] remain, the current run belongs to [idx] and began at [st]. *)
Fixpoint segmentsAcc (seg : Segmentation) (set : OrderedSet)
    (n pos : nat) (idx : Z) (st : nat) : list Segment :=
  match n with
  | O => [ {| index := idx; start := st; end_ := pos |} ]
  | S n' =>
      let k := getSegment seg (getAt set pos) in
      if decide (k = idx) then segmentsAcc seg set n' (S pos) idx st
      else {| index := idx; start := st; end_ := pos |}
             :: segmentsAcc seg set n' (S pos) k pos
  end.

(** Modelled from the spec: the segments of positions [lo, hi)
    ([setSegment] restricts an iterator to the positions of an enclosing
    segment). *)
Definition segmentsIn (seg : Segmentation) (set : OrderedSet) (lo hi : nat)
    : list Segment :=
  match hi - lo with
  | O => []
  | S n => segmentsAcc seg set n (S lo) (getSegment seg (getAt set lo)) lo
  end.

(** Modelled from the spec: [Segmentation.transientSegments(segs, set)],
    the segments of the whole set. *)
Definition transientSegments (seg : Segmentation) (set : OrderedSet)
    : list Segment :=
  segmentsIn seg set 0 (length set).

End IntData.

(** ** Part I: the query engine *)

Module Query.

Import IntData.

(** Modelled from the spec: the part of a [Unit] the engine reads, its
    [hierarchy] with the chain and the residue segmentation, and its id. *)
Record Hierarchy := { chainSegments : Segmentation; residueSegments : Segmentation }.

Record Unit := { id : Z; hierarchy : Hierarchy }.

(** Modelled from the spec: [Atom.Location], the current unit and element
    that the predicates look at. *)
Record Location := { unit : Unit; atom : Z }.

(** [Atom.Predicate] and [Atom.Property<A>]: callables over the location. *)
Definition Predicate := Location -> bool.
Definition Property (A : Type) := Location -> A.

(** Modelled from the spec: an [Atom], an element reference made of a unit
    id and an element index ([Atom.create(unit, index)]). *)
Record Atom := { atomUnit : Z; atomIndex : Z }.

(** Modelled from the spec: [AtomSet], the elements of a structure grouped
    by unit: (unit id, elements of that unit), in the order of
    [AtomSet.unitIds]. *)
Abbreviation AtomSet := (list (Z * OrderedSet)) (only parsing).

(** Modelled from the spec: the [Structure] the engine consumes, its
    element set and its units; [units] is indexed by unit id
    ([units[unitId]] has type [Unit]). *)
Record Structure := { atoms : AtomSet; units : Z -> Unit }.

(** Modelled from the spec: a [Selection] is empty, a set of singleton
    element picks, or a sequence of element subsets. *)
Inductive Selection :=
| Empty (s : Structure)
| Singletons (s : Structure) (set : AtomSet)
| Sequence (s : Structure) (sets : list AtomSet).

Definition Query := Structure -> Selection.

(** *** The element-set builder *)

Module Builder.

(** Modelled from the spec: [AtomSet.Builder], the growing element-set
    builder: the units recorded so far with their elements, the running
    output set of the unit being scanned, and the number of elements added. *)
Record t := {
  parent : AtomSet;
  units : list (Z * list Z);
  currentUnit : list Z;
  atomCount : nat
}.

(** Modelled from the spec: [AtomSet.LinearBuilder(parent)], an empty
    builder. *)
Definition LinearBuilder (p : AtomSet) : t :=
  {| parent := p; units := []; currentUnit := []; atomCount := 0 |}.

(** Modelled from the spec: [beginUnit] starts the running output set of a
    unit, [addToUnit] accumulates an element into it. *)
Definition beginUnit (b : t) : t :=
  {| parent := parent b; units := units b; currentUnit := [];
     atomCount := atomCount b |}.

Definition addToUnit (b : t) (a : Z) : t :=
  {| parent := parent b; units := units b;
     currentUnit := currentUnit b ++ [a]; atomCount := S (atomCount b) |}.

(** Modelled from the spec: [commitUnit(unitId)] records the running output
    set under the unit's id; a unit that kept no element is not recorded. *)
Definition commitUnit (b : t) (u : Z) : t :=
  match currentUnit b with
  | [] => b
  | _ :: _ =>
      {| parent := parent b; units := units b ++ [(u, currentUnit b)];
         currentUnit := currentUnit b; atomCount := atomCount b |}
  end.

(** Modelled from the spec: [add(unit, atom)] routes one element to the
    set of its unit, which is created when the unit is new. *)
Fixpoint addAtom (us : list (Z * list Z)) (u a : Z) : list (Z * list Z) :=
  match us with
  | [] => [(u, [a])]
  | (u', xs) :: r =>
      if decide (u' = u) then (u', xs ++ [a]) :: r
      else (u', xs) :: addAtom r u a
  end.

Definition add (b : t) (u a : Z) : t :=
  {| parent := parent b; units := addAtom (units b) u a;
     currentUnit := currentUnit b; atomCount := S (atomCount b) |}.

(** Modelled from the spec: [getSet()], the element set accumulated. *)
Definition getSet (b : t) : AtomSet := units b.

(** Modelled from the spec: [singleton()], the one element of a builder that
    holds one: the first element of the first unit ([None]: the builder is
    empty and the source would fail reading it). *)
Definition singleton (b : t) : option Atom :=
  match units b with
  | (u, a :: _) :: _ => Some {| atomUnit := u; atomIndex := a |}
  | _ => None
  end.

End Builder.

(** *** Query parameters *)

(** [Partial<AtomGroupsQueryParams>]: every field may be absent. *)
Record AtomQueryParams := {
  p_entityTest : option Predicate;
  p_chainTest : option Predicate;
  p_residueTest : option Predicate;
  p_atomTest : option Predicate;
  p_groupBy : option (Property Z)
}.

(** [AtomGroupsQueryParams]: the normalized parameters. *)
Record AtomGroupsQueryParams := {
  entityTest : Predicate;
  chainTest : Predicate;
  residueTest : Predicate;
  atomTest : Predicate;
  groupBy : Property Z
}.

(** [P.constant.true] and [P.constant.zero]. *)
Definition constant_true : Predicate := fun _ => true.
Definition constant_zero : Property Z := fun _ => 0%Z.

(** [all]: the structure's full element set. *)
Definition all : Query := fun s => Singletons s (atoms s).

(** The innermost loop, shared by the three generators:
    [for (j = lo; j < hi; j++) { l.atom = getAt(set, j); if (atomTest(l)) k(l.atom) }]. *)
Definition scanAtoms {B : Type} (atomTest : Predicate) (u : Unit)
    (set : OrderedSet) (k : B -> Z -> B) (lo hi : nat) (b : B) : B :=
  foldl (fun b j =>
           let a := getAt set j in
           if atomTest {| unit := u; atom := a |} then k b a else b)
        b (seq lo (hi - lo)).

(** [atomGroupsLinear]. *)
Definition atomGroupsLinear (atomTest : Predicate) : Query := fun structure =>
  let builder :=
    foldl (fun builder '(unitId, set) =>
             let u := units structure unitId in
             let builder := Builder.beginUnit builder in
             let builder :=
               scanAtoms atomTest u set Builder.addToUnit 0 (length set) builder in
             Builder.commitUnit builder unitId)
          (Builder.LinearBuilder (atoms structure)) (atoms structure) in
  Singletons structure (Builder.getSet builder).

(** The chain/residue/atom nest of [atomGroupsSegmented] and
    [atomGroupsGrouped] for one unit; [k] is what is done with an element
    that passes ([builder.addToUnit] or [builder.add]). *)
Definition segmentedUnit {B : Type} (q : AtomGroupsQueryParams) (u : Unit)
    (set : OrderedSet) (k : B -> Z -> B) (b : B) : B :=
  foldl (fun b chainSegment =>
           let l := {| unit := u; atom := getAt set (start chainSegment) |} in
           if negb (entityTest q l) || negb (chainTest q l) then b
           else
             foldl (fun b residueSegment =>
                      let l := {| unit := u;
                                  atom := getAt set (start residueSegment) |} in
                      if negb (residueTest q l) then b
                      else scanAtoms (atomTest q) u set k
                             (start residueSegment) (end_ residueSegment) b)
                   b
                   (segmentsIn (residueSegments (hierarchy u)) set
                      (start chainSegment) (end_ chainSegment)))
        b (transientSegments (chainSegments (hierarchy u)) set).

(** [atomGroupsSegmented]. *)
Definition atomGroupsSegmented (q : AtomGroupsQueryParams) : Query :=
  fun structure =>
  let builder :=
    foldl (fun builder '(unitId, set) =>
             let u := units structure unitId in
             let builder := Builder.beginUnit builder in
             let builder := segmentedUnit q u set Builder.addToUnit builder in
             Builder.commitUnit builder unitId)
          (Builder.LinearBuilder (atoms structure)) (atoms structure) in
  Singletons structure (Builder.getSet builder).

(** *** Grouping *)

Section Grouping.

(** [AtomSet.ofAtoms(atoms, template)] is not part of the sources; the
    engine only hands its result on. *)
Variable ofAtoms : list Atom -> AtomSet -> AtomSet.

(** [LinearGroupingBuilder].  [builders] is the array of builders in
    creation order.  [builderMap] maps a key to the builder object that the
    array holds too; the shared object is named by its position in
    [builders], so that [b.add] through the map is seen through the array. *)
Record LinearGroupingBuilder := {
  builders : list Builder.t;
  builderMap : gmap Z nat;
  structure : Structure
}.

Definition newLinearGroupingBuilder (s : Structure) : LinearGroupingBuilder :=
  {| builders := []; builderMap := ∅; structure := s |}.

Definition add (g : LinearGroupingBuilder) (key unit atom : Z)
    : LinearGroupingBuilder :=
  match builderMap g !! key with
  | Some i =>
      {| builders := alter (fun b => Builder.add b unit atom) i (builders g);
         builderMap := builderMap g; structure := structure g |}
  | None =>
      let b := Builder.LinearBuilder (atoms (structure g)) in
      {| builders := builders g ++ [Builder.add b unit atom];
         builderMap := <[key := length (builders g)]> (builderMap g);
         structure := structure g |}
  end.

Definition allSingletons (g : LinearGroupingBuilder) : bool :=
  forallb (fun b => negb (1 <? Builder.atomCount b)) (builders g).

Definition singletonSelection (g : LinearGroupingBuilder) : Selection :=
  Singletons (structure g)
    (ofAtoms (omap Builder.singleton (builders g)) (atoms (structure g))).

Definition fullSelection (g : LinearGroupingBuilder) : Selection :=
  Sequence (structure g) (map Builder.getSet (builders g)).

Definition getSelection (g : LinearGroupingBuilder) : Selection :=
  match length (builders g) with
  | O => Empty (structure g)
  | S _ => if allSingletons g then singletonSelection g else fullSelection g
  end.

(** [atomGroupsGrouped]. *)
Definition atomGroupsGrouped (q : AtomGroupsQueryParams) : Query :=
  fun structure =>
  let builder :=
    foldl (fun builder '(unitId, set) =>
             let u := units structure unitId in
             segmentedUnit q u set
               (fun builder a =>
                  add builder (groupBy q {| unit := u; atom := a |}) unitId a)
               builder)
          (newLinearGroupingBuilder structure) (atoms structure) in
  getSelection builder.

(** [params.x || default]. *)
Definition normalize (params : AtomQueryParams) : AtomGroupsQueryParams :=
  {| entityTest := default constant_true (p_entityTest params);
     chainTest := default constant_true (p_chainTest params);
     residueTest := default constant_true (p_residueTest params);
     atomTest := default constant_true (p_atomTest params);
     groupBy := default constant_zero (p_groupBy params) |}.

(** [atoms]: the dispatcher.  [None] is a call without parameters. *)
Definition atomsQuery (params : option AtomQueryParams) : Query :=
  match params with
  | None => all
  | Some params =>
      match p_atomTest params, p_residueTest params, p_chainTest params,
            p_entityTest params, p_groupBy params with
      | None, None, None, None, None => all
      | Some atomTest, None, None, None, None => atomGroupsLinear atomTest
      | _, _, _, _, _ =>
          let normalized := normalize params in
          match p_groupBy params with
          | None => atomGroupsSegmented normalized
          | Some _ => atomGroupsGrouped normalized
          end
      end
  end.

End Grouping.

End Query.

(** ** Part II: the Structure data model (structure.ts) *)

(** *** Collaborators outside the sources

    Linear algebra, symmetry-operator composition, the hash helpers of
    mol-data/util, its generic in-place [sort] and the grid lookup are used
    by structure.ts through their call contracts only.  They are taken as
    parameters; everything below holds for every implementation of them. *)

Class LinearAlgebra := {
  Mat4 : Type;
  Vec3 : Type;
  Assembly : Type;
  Conformation : Type;
  (** [Mat4.isIdentity(m)] *)
  Mat4_isIdentity : Mat4 -> bool;
  (** [Mat4.isRotationAndTranslation(m, SymmetryOperator.RotationTranslationEpsilon)] *)
  Mat4_isRotationAndTranslation : Mat4 -> bool
}.

Module SymmetryOperator.
Section Operator.
Context `{LinearAlgebra}.

(** Modelled from the spec: a symmetry operator, a rigid transform with its
    name and metadata (assembly, NCS id, HKL);
    [SymmetryOperator.create(name, matrix, assembly, ncsId, hkl)]. *)
Record t := create {
  name : string;
  matrix : Mat4;
  assembly : Assembly;
  ncsId : Z;
  hkl : Vec3
}.

End Operator.
Arguments t {_}.
End SymmetryOperator.

(** Modelled from the spec: [GridLookup3D(...).buckets], the bucket offsets,
    the bucket sizes and the array that maps a bucket-local position to a
    position of the input. *)
Record Buckets := { offset : list nat; count : list nat; array : list nat }.

Class Collaborators `{LinearAlgebra} := {
  (** [SymmetryOperator.Default] and [SymmetryOperator.compose] *)
  SymmetryOperator_Default : SymmetryOperator.t;
  SymmetryOperator_compose :
    SymmetryOperator.t -> SymmetryOperator.t -> SymmetryOperator.t;
  (** [hash1], [hashFnv32a] (mol-data/util) and [SortedArray.hashCode] *)
  hash1 : Z -> Z;
  hashFnv32a : list Z -> Z;
  SortedArray_hashCode : list Z -> Z;
  (** [sort(data, 0, data.length, cmp, arraySwap)]: sorts [data] in place by
      the comparator; the contract is that the result is a rearrangement of
      the input, ascending for a comparator that is a difference of keys. *)
  sort : forall A : Type, (A -> A -> Z) -> list A -> list A;
  sort_Permutation : forall A (cmp : A -> A -> Z) (l : list A),
    sort A cmp l ≡ₚ l;
  sort_Sorted : forall A (key : A -> Z) (l : list A),
    Sorted (fun a b => (key a <= key b)%Z) (sort A (fun a b => (key a - key b)%Z) l);
  (** [GridLookup3D({ x, y, z, indices }, cellCount).buckets]; the cell
      count is [None] when the source passes NaN. *)
  GridLookup3D : Conformation -> list Z -> option Z -> Buckets
}.

Module Model.
Section Model.
Context `{LinearAlgebra}.

(** Modelled from the spec: the parts of a [Model] that the code modelled
    here reads: its id and label, the coordinates, and the segmentation of
    the atoms by residue. *)
Record t := {
  id : string;
  label : string;
  atomicConformation : Conformation;
  residueAtomSegments : IntData.Segmentation
}.

End Model.
Arguments t {_}.
End Model.

Module Unit.
Section Unit.
Context `{LinearAlgebra}.

(** Modelled from the spec: [Unit.Kind]. *)
Inductive Kind := Atomic | Spheres | Gaussians.

(** Modelled from the spec: a [Unit], with the attributes that
    [Unit.create(id, invariantId, chainGroupId, traits, kind, model,
    operator, elements)] is given; [operator] is [conformation.operator]. *)
Record t := create {
  id : Z;
  invariantId : Z;
  chainGroupId : Z;
  traits : Z;
  kind : Kind;
  model : Model.t;
  operator : SymmetryOperator.t;
  elements : list Z
}.

End Unit.
Arguments t {_}.

(** Modelled from the spec: [Unit.Trait], the flags "multi-chain" and
    "partitioned", which the code combines with [|]: distinct bits. *)
Definition Trait_None : Z := 0.
Definition Trait_MultiChain : Z := 1.
Definition Trait_Patitioned : Z := 2.

Section Apply.
Context `{Collaborators}.

(** Modelled from the spec: [unit.applyOperator(id, operator)] is a copy of
    the unit under the given id that carries the composed symmetry
    operator. *)
Definition applyOperator (u : t) (id' : Z) (op : SymmetryOperator.t) : t :=
  create id' (invariantId u) (chainGroupId u) (traits u) (kind u) (model u)
    (SymmetryOperator_compose (operator u) op) (elements u).

End Apply.
End Unit.

Module Struct.

(** The outcome of a call: a value, or a thrown [Error] with its message. *)
Inductive Outcome (A : Type) :=
| Return (a : A)
| Throw (msg : string).
Arguments Return {A} a.
Arguments Throw {A} msg.

(** References: the position of an array, or of a [Structure] instance, in
    the heap. *)
Abbreviation ARef := nat (only parsing).
Abbreviation SRef := nat (only parsing).

Section Struct.
Context `{Collaborators}.

(** [Structure.Props], the constructor's second argument. *)
Record Props := {
  parent : option SRef;
  coordinateSystem : option SymmetryOperator.t;
  label : option string;
  masterModel : option Model.t;
  representativeModel : option Model.t
}.

(** [new Structure(units)] passes [{}]. *)
Definition noProps : Props :=
  {| parent := None; coordinateSystem := None; label := None;
     masterModel := None; representativeModel := None |}.

(** The private [_props] of an instance: provenance and the cache of
    derived properties ([-1], or [None], marks a value not computed yet). *)
Record PrivateProps := {
  _parent : option SRef;
  _models : option (list Model.t);
  _model : option Model.t;
  _masterModel : option Model.t;
  _representativeModel : option Model.t;
  _hashCode : Z;
  _transformHash : Z;
  _elementCount : Z;
  _coordinateSystem : SymmetryOperator.t;
  _label : string
}.

(** A [Structure] instance.  [units] is a reference: the instance does not
    hold a copy of the array. *)
Record Instance_ := {
  unitMap : gmap Z Unit.t;
  unitIndexMap : gmap Z nat;
  units : ARef;
  _props : PrivateProps
}.

Record Heap := {
  arrays : list (list Unit.t);
  structures : list Instance_
}.

Definition emptyHeap : Heap := {| arrays := []; structures := [] |}.

(** *** Heap-passing computations that may throw *)

Definition M (A : Type) := Heap -> Outcome A * Heap.

Definition ret {A} (a : A) : M A := fun h => (Return a, h).

Definition throw {A} (msg : string) : M A := fun h => (Throw msg, h).

Definition bind {A B} (m : M A) (k : A -> M B) : M B := fun h =>
  match m h with
  | (Return a, h') => k a h'
  | (Throw e, h') => (Throw e, h')
  end.

Notation "'let!' x := m 'in' k" := (bind m (fun x => k))
  (at level 10, x pattern, m at level 100, k at level 200).

(** A reference that names nothing does not arise in JavaScript; reading
    one is made a throw so that no result is invented for it. *)
Definition readArray (a : ARef) : M (list Unit.t) := fun h =>
  match arrays h !! a with
  | Some us => (Return us, h)
  | None => (Throw "dangling array reference", h)
  end.

Definition writeArray (a : ARef) (us : list Unit.t) : M () := fun h =>
  (Return (), {| arrays := <[a := us]> (arrays h); structures := structures h |}).

(** [[...]]: a fresh array. *)
Definition newArray (us : list Unit.t) : M ARef := fun h =>
  (Return (length (arrays h)),
   {| arrays := arrays h ++ [us]; structures := structures h |}).

Definition readStructure (s : SRef) : M Instance_ := fun h =>
  match structures h !! s with
  | Some o => (Return o, h)
  | None => (Throw "dangling structure reference", h)
  end.

Definition writeProps (s : SRef) (f : PrivateProps -> PrivateProps) : M () :=
  fun h =>
  (Return (),
   {| arrays := arrays h;
      structures :=
        alter (fun o => {| unitMap := unitMap o; unitIndexMap := unitIndexMap o;
                           units := units o; _props := f (_props o) |})
              s (structures h) |}).

Definition newInstance (o : Instance_) : M SRef := fun h =>
  (Return (length (structures h)),
   {| arrays := arrays h; structures := structures h ++ [o] |}).

Definition set_hashCode (v : Z) (p : PrivateProps) : PrivateProps :=
  {| _parent := _parent p; _models := _models p; _model := _model p;
     _masterModel := _masterModel p;
     _representativeModel := _representativeModel p;
     _hashCode := v; _transformHash := _transformHash p;
     _elementCount := _elementCount p;
     _coordinateSystem := _coordinateSystem p; _label := _label p |}.

Definition set_transformHash (v : Z) (p : PrivateProps) : PrivateProps :=
  {| _parent := _parent p; _models := _models p; _model := _model p;
     _masterModel := _masterModel p;
     _representativeModel := _representativeModel p;
     _hashCode := _hashCode p; _transformHash := v;
     _elementCount := _elementCount p;
     _coordinateSystem := _coordinateSystem p; _label := _label p |}.

Definition set_models (v : list Model.t) (p : PrivateProps) : PrivateProps :=
  {| _parent := _parent p; _models := Some v; _model := _model p;
     _masterModel := _masterModel p;
     _representativeModel := _representativeModel p;
     _hashCode := _hashCode p; _transformHash := _transformHash p;
     _elementCount := _elementCount p;
     _coordinateSystem := _coordinateSystem p; _label := _label p |}.

Definition set_model (v : option Model.t) (p : PrivateProps) : PrivateProps :=
  {| _parent := _parent p; _models := _models p; _model := v;
     _masterModel := _masterModel p;
     _representativeModel := _representativeModel p;
     _hashCode := _hashCode p; _transformHash := _transformHash p;
     _elementCount := _elementCount p;
     _coordinateSystem := _coordinateSystem p; _label := _label p |}.

(** *** The constructor *)

(** [cmpUnits], on the two array entries it reads. *)
Definition cmpUnits (a b : Unit.t) : Z := (Unit.id a - Unit.id b)%Z.

(** The [isSorted] flag that the first loop of [initUnits] computes. *)
Definition isSorted (us : list Unit.t) : bool :=
  fst (foldl (fun '(isSorted, lastId) u =>
                (if (Unit.id u <? lastId)%Z then false else isSorted, Unit.id u))
             (true, match us with u :: _ => Unit.id u | [] => 0%Z end) us).

(** [initUnits]: the two maps and the element count (which the source
    stores in [_props.elementCount] itself).  The array is sorted in place
    when it is not sorted: the write goes to the array the caller passed. *)
Definition initUnits (units : ARef) : M (gmap Z Unit.t * gmap Z nat * Z) :=
  let! us := readArray units in
  let unitMap := foldl (fun m u => <[Unit.id u := u]> m) ∅ us in
  let elementCount :=
    foldl (fun n u => (n + Z.of_nat (length (Unit.elements u)))%Z) 0%Z us in
  let! _ := (if isSorted us then ret () else writeArray units (sort _ cmpUnits us)) in
  let! us := readArray units in
  let unitIndexMap :=
    foldl (fun m '(i, u) => <[Unit.id u := i]> m) ∅ (zip (seq 0 (length us)) us) in
  ret (unitMap, unitIndexMap, elementCount).

(** JavaScript truthiness of a string property: present and not empty. *)
Definition truthyString (s : option string) : option string :=
  match s with
  | Some str => if decide (str = "") then None else Some str
  | None => None
  end.

(** [new Structure(units, props)]. *)
Definition new_Structure (units : ARef) (props : Props) : M SRef :=
  let! (unitMap, unitIndexMap, elementCount) := initUnits units in
  let! parentInstance :=
    match parent props with
    | Some p => let! o := readStructure p in ret (Some (p, o))
    | None => ret None
    end in
  let inherited {A} (own : option A) (f : PrivateProps -> option A) : option A :=
    match own, parentInstance with
    | Some v, _ => Some v
    | None, Some (_, o) => f (_props o)
    | None, None => None
    end in
  newInstance
    {| unitMap := unitMap;
       unitIndexMap := unitIndexMap;
       units := units;
       _props :=
         {| _parent :=
              match parentInstance with
              | Some (p, o) => Some (default p (_parent (_props o)))
              | None => None
              end;
            _models := None;
            _model := None;
            _masterModel := inherited (masterModel props) _masterModel;
            _representativeModel :=
              inherited (representativeModel props) _representativeModel;
            _hashCode := -1;
            _transformHash := -1;
            _elementCount := elementCount;
            _coordinateSystem :=
              default SymmetryOperator_Default
                (inherited (coordinateSystem props)
                   (fun p => Some (_coordinateSystem p)));
            _label :=
              default ""
                (inherited (truthyString (label props))
                   (fun p => Some (_label p))) |} |}.

(** [Structure.create(units, props)]. *)
Definition create (units : ARef) (props : Props) : M SRef :=
  new_Structure units props.

(** *** Derived properties *)

(** [x | 0]: the 32-bit two's-complement integer. *)
Definition toInt32 (x : Z) : Z := ((x + 2 ^ 31) mod 2 ^ 32 - 2 ^ 31)%Z.

(** The value [computeHash] arrives at, from the array entries and the
    element count it reads. *)
Definition hashOf (us : list Unit.t) (elementCount : Z) : Z :=
  let hash :=
    foldl (fun hash u =>
             let hash := toInt32 (31 * hash + Unit.id u) in
             toInt32 (31 * hash + SortedArray_hashCode (Unit.elements u)))
          23%Z us in
  let hash := toInt32 (31 * hash + elementCount) in
  let hash := hash1 hash in
  if decide (hash = -1)%Z then 0%Z else hash.

(** [computeHash]. *)
Definition computeHash (s : SRef) : M Z :=
  let! o := readStructure s in
  let! us := readArray (units o) in
  let hash := hashOf us (_elementCount (_props o)) in
  let! _ := writeProps s (set_hashCode hash) in
  ret hash.

(** [get hashCode]. *)
Definition hashCode (s : SRef) : M Z :=
  let! o := readStructure s in
  if decide (_hashCode (_props o) ≠ -1)%Z then ret (_hashCode (_props o))
  else computeHash s.

(** [get transformHash]. *)
Definition transformHash (s : SRef) : M Z :=
  let! o := readStructure s in
  if decide (_transformHash (_props o) ≠ -1)%Z then ret (_transformHash (_props o))
  else
    let! us := readArray (units o) in
    let v := hashFnv32a (map Unit.id us) in
    let! _ := writeProps s (set_transformHash v) in
    ret v.

(** [get elementCount]. *)
Definition elementCount (s : SRef) : M Z :=
  let! o := readStructure s in ret (_elementCount (_props o)).

(** [get root] and [get parent]. *)
Definition root (s : SRef) : M SRef :=
  let! o := readStructure s in ret (default s (_parent (_props o))).

Definition getParent (s : SRef) : M (option SRef) :=
  let! o := readStructure s in ret (_parent (_props o)).

(** Modelled from the spec: [UniqueArray.add(arr, key, value)]
    (mol-data/generic) collects the models that the units reference, each
    once: the value is appended unless its key was added before. *)
Definition UniqueArray_add (arr : list Model.t) (m : Model.t) : list Model.t :=
  if decide (Model.id m ∈ map Model.id arr) then arr else arr ++ [m].

(** [getModels]. *)
Definition getModels (us : list Unit.t) : list Model.t :=
  foldl (fun arr u => UniqueArray_add arr (Unit.model u)) [] us.

(** [get models]. *)
Definition models (s : SRef) : M (list Model.t) :=
  let! o := readStructure s in
  match _models (_props o) with
  | Some ms => ret ms
  | None =>
      let! us := readArray (units o) in
      let ms := getModels us in
      let! _ := writeProps s (set_models ms) in
      ret ms
  end.

(** [get model].  [Return None] is the [undefined] that [models[0]] reads
    from an empty array. *)
Definition model (s : SRef) : M (option Model.t) :=
  let! o := readStructure s in
  match _model (_props o) with
  | Some m => ret (Some m)
  | None =>
  match _representativeModel (_props o) with
  | Some m => ret (Some m)
  | None =>
  match _masterModel (_props o) with
  | Some m => ret (Some m)
  | None =>
      let! ms := models s in
      if 1 <? length ms
      then throw "The structure is based on multiple models and has neither a master- nor a representative-model."
      else
        let! _ := writeProps s (set_model (head ms)) in
        ret (head ms)
  end end end.

(** [get masterModel], [get representativeModel], [get coordinateSystem]. *)
Definition getMasterModel (s : SRef) : M (option Model.t) :=
  let! o := readStructure s in ret (_masterModel (_props o)).

Definition getRepresentativeModel (s : SRef) : M (option Model.t) :=
  let! o := readStructure s in ret (_representativeModel (_props o)).

Definition getCoordinateSystem (s : SRef) : M SymmetryOperator.t :=
  let! o := readStructure s in ret (_coordinateSystem (_props o)).

(** *** [Structure.transform] *)

Definition transform (s : SRef) (transform : Mat4) : M SRef :=
  if Mat4_isIdentity transform then ret s
  else if negb (Mat4_isRotationAndTranslation transform)
  then throw "Only rotation/translation combination can be applied."
  else
    let! o := readStructure s in
    let! us := readArray (units o) in
    let! units :=
      newArray
        (map (fun u =>
                let old := Unit.operator u in
                let op :=
                  SymmetryOperator.create (SymmetryOperator.name old) transform
                    (SymmetryOperator.assembly old) (SymmetryOperator.ncsId old)
                    (SymmetryOperator.hkl old) in
                Unit.applyOperator u (Unit.id u) op)
             us) in
    let! cs := getCoordinateSystem s in
    let newCS :=
      SymmetryOperator_compose
        (SymmetryOperator.create (SymmetryOperator.name cs) transform
           (SymmetryOperator.assembly cs) (SymmetryOperator.ncsId cs)
           (SymmetryOperator.hkl cs))
        cs in
    new_Structure units
      {| parent := Some s; coordinateSystem := Some newCS; label := None;
         masterModel := None; representativeModel := None |}.

(** *** Comparisons *)

(** Modelled from the spec: [SortedArray.areEqual] holds of two index sets
    with the same contents. *)
Definition SortedArray_areEqual (a b : list Z) : bool := bool_decide (a = b).

(** The two loops of [areUnitAndIndicesEqual] over positions [0 .. len). *)
Definition sameIds (a b : list Unit.t) : bool :=
  forallb (fun '(x, y) => bool_decide (Unit.id x = Unit.id y)) (zip a b).

Definition sameIndices (a b : list Unit.t) : bool :=
  forallb (fun '(x, y) => SortedArray_areEqual (Unit.elements x) (Unit.elements y))
          (zip a b).

(** [Structure.areUnitAndIndicesEqual]. *)
Definition areUnitAndIndicesEqual (a b : SRef) : M bool :=
  let! ca := elementCount a in
  let! cb := elementCount b in
  if decide (ca ≠ cb) then ret false
  else
    let! oa := readStructure a in
    let! ua := readArray (units oa) in
    let! ob := readStructure b in
    let! ub := readArray (units ob) in
    if decide (length ua ≠ length ub) then ret false
    else if negb (sameIds ua ub) then ret false
    else if negb (sameIndices ua ub) then ret false
    else ret true.

(** [Structure.areRootsEqual]: the roots are one instance. *)
Definition areRootsEqual (a b : SRef) : M bool :=
  let! ra := root a in
  let! rb := root b in
  ret (bool_decide (ra = rb)).

(** *** [StructureBuilder] and the spatial partitioners *)

(** [StructureBuilder].  Modelled from the spec: [idFactory()] is a fresh,
    monotonically increasing id generator; [b_invariantId] is its next
    value. *)
Record StructureBuilder := {
  b_units : list Unit.t;
  b_invariantId : Z;
  b_chainGroupId : Z;
  b_inChainGroup : bool;
  b_props : Props
}.

(** [new StructureBuilder(props)]. *)
Definition Builder (props : Props) : StructureBuilder :=
  {| b_units := []; b_invariantId := 0; b_chainGroupId := -1;
     b_inChainGroup := false; b_props := props |}.

Definition beginChainGroup (b : StructureBuilder) : StructureBuilder :=
  {| b_units := b_units b; b_invariantId := b_invariantId b;
     b_chainGroupId := (b_chainGroupId b + 1)%Z; b_inChainGroup := true;
     b_props := b_props b |}.

Definition endChainGroup (b : StructureBuilder) : StructureBuilder :=
  {| b_units := b_units b; b_invariantId := b_invariantId b;
     b_chainGroupId := b_chainGroupId b; b_inChainGroup := false;
     b_props := b_props b |}.

(** [addUnit(kind, model, operator, elements, traits)], without the optional
    [invariantId] (no caller in structure.ts passes one).  Returns the
    builder; the unit is its last one. *)
Definition addUnit (b : StructureBuilder) (kind : Unit.Kind) (model : Model.t)
    (operator : SymmetryOperator.t) (elements : list Z) (traits : Z)
    : StructureBuilder :=
  let invariantId := b_invariantId b in
  let chainGroupId :=
    if b_inChainGroup b then b_chainGroupId b else (b_chainGroupId b + 1)%Z in
  let unit :=
    Unit.create (Z.of_nat (length (b_units b))) invariantId chainGroupId traits
      kind model operator elements in
  {| b_units := b_units b ++ [unit]; b_invariantId := (invariantId + 1)%Z;
     b_chainGroupId := chainGroupId; b_inChainGroup := b_inChainGroup b;
     b_props := b_props b |}.

(** [getStructure]: the builder's array becomes the structure's. *)
Definition getStructure (b : StructureBuilder) : M SRef :=
  let! units := newArray (b_units b) in
  create units (b_props b).

(** The [traits] both partitioners compute. *)
Definition partitionTraits (multiChain : bool) (buckets : Buckets) : Z :=
  Z.lor (if multiChain then Unit.Trait_MultiChain else Unit.Trait_None)
        (if 1 <? length (offset buckets) then Unit.Trait_Patitioned
         else Unit.Trait_None).

(** [partitionAtomicUnitByAtom].  An [Int32Array] of [count[i]] entries is
    filled with [indices[array[start + j]]]; a read outside an array is
    [undefined], which the typed array stores as 0, and an [undefined]
    length makes it empty. *)
Definition partitionAtomicUnitByAtom (model : Model.t) (indices : list Z)
    (builder : StructureBuilder) (multiChain : bool) : StructureBuilder :=
  let buckets :=
    GridLookup3D (Model.atomicConformation model) indices (Some 8192%Z) in
  let traits := partitionTraits multiChain buckets in
  let builder := beginChainGroup builder in
  let builder :=
    foldl (fun builder '(i, start) =>
             let set :=
               map (fun j =>
                      default 0%Z
                        (array buckets !! (start + j) ≫= fun p => indices !! p))
                   (seq 0 (default 0 (count buckets !! i))) in
             addUnit builder Unit.Atomic model SymmetryOperator_Default set traits)
          builder (zip (seq 0 (length (offset buckets))) (offset buckets)) in
  endChainGroup builder.

(** [for (let l = startIndices[k], _l = endIndices[k]; l < _l; l++) set[set.length] = l]:
    the integers from [l] up to [_l], none when either bound is [undefined]
    (the comparison with [undefined] is false). *)
Definition residueRange (l _l : option Z) : list Z :=
  match l, _l with
  | Some l, Some _l => map (fun i => (l + Z.of_nat i)%Z) (seq 0 (Z.to_nat (_l - l)))
  | _, _ => []
  end.

(** [partitionAtomicUnitByResidue].  [endIndices] holds [indices[segment.end]],
    which is [undefined] ([None]) when [segment.end] is the length of
    [indices]. *)
Definition partitionAtomicUnitByResidue (model : Model.t) (indices : list Z)
    (builder : StructureBuilder) (multiChain : bool) : StructureBuilder :=
  let residueIt :=
    IntData.transientSegments (Model.residueAtomSegments model) indices in
  let startIndices : list Z :=
    map (fun residueSegment => IntData.getAt indices (IntData.start residueSegment))
        residueIt in
  let endIndices : list (option Z) :=
    map (fun residueSegment => indices !! IntData.end_ residueSegment) residueIt in
  let firstResidueAtomCount : option Z :=
    match mjoin (endIndices !! 0), startIndices !! 0 with
    | Some e, Some s => Some (e - s)%Z
    | _, _ => None
    end in
  let gridCellCount := (fun n => 512 * n)%Z <$> firstResidueAtomCount in
  let buckets :=
    GridLookup3D (Model.atomicConformation model) startIndices gridCellCount in
  let traits := partitionTraits multiChain buckets in
  let builder := beginChainGroup builder in
  let builder :=
    foldl (fun builder '(i, start) =>
             let set :=
               flat_map (fun j =>
                           let k := array buckets !! (start + j) in
                           residueRange (k ≫= fun k => startIndices !! k)
                                        (k ≫= fun k => mjoin (endIndices !! k)))
                        (seq 0 (default 0 (count buckets !! i))) in
             addUnit builder Unit.Atomic model SymmetryOperator_Default set traits)
          builder (zip (seq 0 (length (offset buckets))) (offset buckets)) in
  endChainGroup builder.

End Struct.
End Struct.

(** ** Part II, continued: further members of [Structure] and of its
    namespace *)

Module StructViews.

Import Struct.

Section More.
Context `{Collaborators}.

Notation "'let!' x := m 'in' k" := (bind m (fun x => k))
  (at level 10, x pattern, m at level 100, k at level 200).

(** *** Element membership *)

(** [StructureElement.Location] as [hasElement] reads it: a unit and an
    element index. *)
Record Location := { unit : Unit.t; element : Z }.

(** [SortedArray.has(set, x)] of mol-data/int: membership in an index set. *)
Definition SortedArray_has (xs : list Z) (x : Z) : bool := bool_decide (x ∈ xs).

(** [hasElement]. *)
Definition hasElement (s : SRef) (e : Location) : M bool :=
  let! o := readStructure s in
  match unitMap o !! Unit.id (unit e) with
  | None => ret false
  | Some u => ret (SortedArray_has (Unit.elements u) (element e))
  end.

(** [get label]. *)
Definition getLabel (s : SRef) : M string :=
  let! o := readStructure s in ret (_label (_props o)).

(** [get isEmpty]. *)
Definition isEmpty (s : SRef) : M bool :=
  let! o := readStructure s in
  let! us := readArray (units o) in
  ret (bool_decide (length us = 0)).

(** [get isAtomic]: the loop returns [false] at the first unit of another
    kind. *)
Definition isAtomic (s : SRef) : M bool :=
  let! o := readStructure s in
  let! us := readArray (units o) in
  ret (forallb (fun u => match Unit.kind u with Unit.Atomic => true | _ => false end)
         us).

(** *** The serial mapping *)

(** [SerialMapping]: three [Uint32Array]s. *)
Record SerialMapping := {
  unitElementCount : list Z;
  unitIndices : list Z;
  elementIndices : list Z
}.

(** The value a [Uint32Array] holds after a number is stored in it. *)
Definition u32 (x : Z) : Z := (x mod 2 ^ 32)%Z.

(** [array[i] = v] on a [Uint32Array]: a store outside the array is ignored. *)
Definition setU32 (array : list Z) (i : nat) (v : Z) : list Z := <[i := u32 v]> array.

(** [getSerialMapping].  [new Uint32Array(n)] is [n] zeros, and throws a
    [RangeError] for a negative [n]. *)
Definition getSerialMapping (s : SRef) : M SerialMapping :=
  let! o := readStructure s in
  let! us := readArray (units o) in
  let! elementCount := elementCount s in
  if (elementCount <? 0)%Z then throw "RangeError: Invalid typed array length"
  else
    let unitElementCount := replicate (length us) 0%Z in
    let unitIndices := replicate (Z.to_nat elementCount) 0%Z in
    let elementIndices := replicate (Z.to_nat elementCount) 0%Z in
    let '(unitElementCount, unitIndices, elementIndices, _) :=
      foldl (fun '(unitElementCount, unitIndices, elementIndices, m) '(i, u) =>
               let unitElementCount := setU32 unitElementCount i (Z.of_nat m) in
               let elements := Unit.elements u in
               let '(unitIndices, elementIndices) :=
                 foldl (fun '(unitIndices, elementIndices) '(j, e) =>
                          let mj := m + j in
                          (setU32 unitIndices mj (Z.of_nat i),
                           setU32 elementIndices mj e))
                       (unitIndices, elementIndices)
                       (zip (seq 0 (length elements)) elements) in
               (unitElementCount, unitIndices, elementIndices, m + length elements))
            (unitElementCount, unitIndices, elementIndices, 0)
            (zip (seq 0 (length us)) us) in
    ret {| unitElementCount := unitElementCount; unitIndices := unitIndices;
           elementIndices := elementIndices |}.

(** *** [ElementLocationIterator] *)

(** The iterator object.  [current_unit] and [current_element] are the
    fields of its one [current] location, which [move] returns every time;
    [None] is a field the iterator has not assigned, or has assigned
    [undefined].  [elements] is [None] until it is assigned. *)
Record ElementLocationIterator := {
  structure : SRef;
  current_unit : option Unit.t;
  current_element : option Z;
  unitIndex : nat;
  elements : option (list Z);
  maxIdx : Z;
  idx : Z;
  hasNext : bool
}.

(** [new ElementLocationIterator(structure)]; [structure.units[0].elements]
    throws a [TypeError] when there is no first unit. *)
Definition new_ElementLocationIterator (s : SRef) : M ElementLocationIterator :=
  let! n := elementCount s in
  if (0 <? n)%Z then
    let! o := readStructure s in
    let! us := readArray (units o) in
    match us !! 0 with
    | Some u =>
        ret {| structure := s; current_unit := Some u; current_element := None;
               unitIndex := 0; elements := Some (Unit.elements u);
               maxIdx := (Z.of_nat (length (Unit.elements u)) - 1)%Z;
               idx := -1; hasNext := true |}
    | None => throw "TypeError: Cannot read properties of undefined"
    end
  else
    ret {| structure := s; current_unit := None; current_element := None;
           unitIndex := 0; elements := None; maxIdx := 0; idx := -1;
           hasNext := false |}.

(** [elementLocations()]. *)
Definition elementLocations (s : SRef) : M ElementLocationIterator :=
  new_ElementLocationIterator s.

(** [advance]. *)
Definition advance (it : ElementLocationIterator) : M ElementLocationIterator :=
  if (idx it <? maxIdx it)%Z then
    let idx' := (idx it + 1)%Z in
    if (idx' =? maxIdx it)%Z then
      let! o := readStructure (structure it) in
      let! us := readArray (units o) in
      ret {| structure := structure it; current_unit := current_unit it;
             current_element := current_element it; unitIndex := unitIndex it;
             elements := elements it; maxIdx := maxIdx it; idx := idx';
             hasNext := bool_decide (unitIndex it + 1 < length us) |}
    else
      ret {| structure := structure it; current_unit := current_unit it;
             current_element := current_element it; unitIndex := unitIndex it;
             elements := elements it; maxIdx := maxIdx it; idx := idx';
             hasNext := hasNext it |}
  else
    let unitIndex' := unitIndex it + 1 in
    let! o := readStructure (structure it) in
    let! us := readArray (units o) in
    match us !! unitIndex' with
    | None =>
        (* unitIndex >= units.length *)
        ret {| structure := structure it; current_unit := current_unit it;
               current_element := current_element it; unitIndex := unitIndex';
               elements := elements it; maxIdx := maxIdx it; idx := 0;
               hasNext := false |}
    | Some u =>
        ret {| structure := structure it; current_unit := Some u;
               current_element := current_element it; unitIndex := unitIndex';
               elements := Some (Unit.elements u);
               maxIdx := (Z.of_nat (length (Unit.elements u)) - 1)%Z; idx := 0;
               hasNext := hasNext it |}
    end.

(** [move]: the location it returns is the iterator's [current], read from
    the iterator it gives back.  [this.elements[this.idx]] throws while
    [elements] is unassigned and is [undefined] outside the index set. *)
Definition move (it : ElementLocationIterator) : M ElementLocationIterator :=
  let! it := advance it in
  match elements it with
  | None => throw "TypeError: Cannot read properties of undefined"
  | Some es =>
      ret {| structure := structure it; current_unit := current_unit it;
             current_element :=
               if (idx it <? 0)%Z then None else es !! Z.to_nat (idx it);
             unitIndex := unitIndex it; elements := elements it;
             maxIdx := maxIdx it; idx := idx it; hasNext := hasNext it |}
  end.

(** *** Polymer counts *)

Section Polymer.

(** [unit.polymerElements], a derived index set of a unit (unit.ts). *)
Variable polymerElements : Unit.t -> list Z.

(** [getPolymerResidueCount]. *)
Definition getPolymerResidueCount (structure : SRef) : M Z :=
  let! o := readStructure structure in
  let! us := readArray (units o) in
  ret (foldl (fun polymerResidueCount u =>
                (polymerResidueCount + Z.of_nat (length (polymerElements u)))%Z)
             0%Z us).

(** [getPolymerUnitCount]. *)
Definition getPolymerUnitCount (structure : SRef) : M Z :=
  let! o := readStructure structure in
  let! us := readArray (units o) in
  ret (foldl (fun polymerUnitCount u =>
                if 0 <? length (polymerElements u)
                then (polymerUnitCount + 1)%Z else polymerUnitCount)
             0%Z us).

End Polymer.

(** *** [StructureBuilder], continued *)

(** [addWithOperator]. *)
Definition addWithOperator (b : StructureBuilder) (unit : Unit.t)
    (operator : SymmetryOperator.t) : StructureBuilder :=
  let newUnit := Unit.applyOperator unit (Z.of_nat (length (b_units b))) operator in
  {| b_units := b_units b ++ [newUnit]; b_invariantId := b_invariantId b;
     b_chainGroupId := b_chainGroupId b; b_inChainGroup := b_inChainGroup b;
     b_props := b_props b |}.

(** [get isEmpty] of the builder. *)
Definition builderIsEmpty (b : StructureBuilder) : bool :=
  bool_decide (length (b_units b) = 0).

End More.

End StructViews.

(** ** Part II, continued: [ofModel] and [ofTrajectory] *)

Module StructBuild.

Import Struct.

Section Build.
Context `{Collaborators}.

Notation "'let!' x := m 'in' k" := (bind m (fun x => k))
  (at level 10, x pattern, m at level 100, k at level 200).

(** A [Segmentation] as the loops of [ofModel] read it: the number of
    segments and the offset at which each begins ([offsets[count]] is the
    end of the last one). *)
Record SegmentOffsets := { seg_count : nat; seg_offsets : nat -> Z }.

(** [CoarseElements]: the number of elements and their chain segments. *)
Record CoarseElements := {
  coarse_count : Z;
  chainElementSegments : SegmentOffsets
}.

(** A [Model] with the further parts that [ofModel] reads:
    [atomicHierarchy.chainAtomSegments],
    [AtomicHierarchy.chainResidueCount(atomicHierarchy, c)],
    [atomicHierarchy.index.getEntityFromChain(c)],
    [atomicHierarchy.chains.auth_asym_id.value(c)],
    [entities.data.type.value(e)] and [coarseHierarchy]. *)
Record FullModel := {
  core : Model.t;
  chainAtomSegments : SegmentOffsets;
  chainResidueCount : nat -> Z;
  getEntityFromChain : nat -> Z;
  auth_asym_id : nat -> string;
  entityType : Z -> string;
  coarse_isDefined : bool;
  spheres : CoarseElements;
  gaussians : CoarseElements
}.

(** [SortedArray.ofBounds(min, max)] of mol-data/int: the index set of the
    integers from [min] up to [max], [max] excluded (empty when [max] is not
    above [min]). *)
Definition SortedArray_ofBounds (min max : Z) : list Z :=
  map (fun i => (min + Z.of_nat i)%Z) (seq 0 (Z.to_nat (max - min))).

(** [isWaterChain]. *)
Definition isWaterChain (m : FullModel) (chainIndex : nat) : bool :=
  bool_decide (entityType m (getEntityFromChain m chainIndex) = "water").

(** The [while] loop of [ofModel] that merges consecutive single-atom
    chains of one entity and one [auth_asym_id]: from the chain [c] and the
    two flags to the chain and the flags it ends with.  Every round
    advances [c], which stays below the chain count, so that [fuel] rounds
    are enough when [fuel] is the chain count (see [mergeChains_fuel]). *)
Fixpoint mergeChains (fuel : nat) (m : FullModel) (c : nat)
    (singleAtomResidues multiChain : bool) : nat * bool * bool :=
  match fuel with
  | O => (c, singleAtomResidues, multiChain)
  | S fuel =>
      let offsets := seg_offsets (chainAtomSegments m) in
      if bool_decide (c + 1 < seg_count (chainAtomSegments m))
         && (offsets (c + 1)%nat - offsets c =? 1)%Z
         && (offsets (c + 2)%nat - offsets (c + 1)%nat =? 1)%Z
      then
        let e1 := getEntityFromChain m c in
        let e2 := getEntityFromChain m (c + 1) in
        if bool_decide (e1 ≠ e2) then (c, true, multiChain)
        else
          let a1 := auth_asym_id m c in
          let a2 := auth_asym_id m (c + 1) in
          if bool_decide (a1 ≠ a2) then (c, true, multiChain)
          else mergeChains fuel m (c + 1) true true
      else (c, singleAtomResidues, multiChain)
  end.

(** The [for] loop of [ofModel] over the chains, from chain [c] on.  Every
    round advances [c], so that [fuel] rounds are enough when [fuel] is the
    chain count (see [chainLoop_fuel]). *)
Fixpoint chainLoop (fuel : nat) (m : FullModel) (c : nat)
    (builder : StructureBuilder) : StructureBuilder :=
  match fuel with
  | O => builder
  | S fuel =>
      let chains := chainAtomSegments m in
      if bool_decide (c < seg_count chains) then
        let start := seg_offsets chains c in
        let singleAtomResidues :=
          (chainResidueCount m c
           =? seg_offsets chains (c + 1)%nat - seg_offsets chains c)%Z in
        let '(c, singleAtomResidues, multiChain) :=
          mergeChains (seg_count chains) m c singleAtomResidues false in
        let elements := SortedArray_ofBounds start (seg_offsets chains (c + 1)) in
        let builder :=
          if singleAtomResidues
          then partitionAtomicUnitByAtom (core m) elements builder multiChain
          else if (200000 <? Z.of_nat (length elements))%Z || isWaterChain m c
          then partitionAtomicUnitByResidue (core m) elements builder multiChain
          else addUnit builder Unit.Atomic (core m) SymmetryOperator_Default
                 elements
                 (if multiChain then Unit.Trait_MultiChain else Unit.Trait_None) in
        chainLoop fuel m (c + 1) builder
      else builder
  end.

(** [addCoarseUnits]. *)
Definition addCoarseUnits (builder : StructureBuilder) (model : Model.t)
    (elements : CoarseElements) (kind : Unit.Kind) : StructureBuilder :=
  let segments := chainElementSegments elements in
  foldl (fun builder cI =>
           let elements :=
             SortedArray_ofBounds (seg_offsets segments cI)
               (seg_offsets segments (cI + 1)) in
           addUnit builder kind model SymmetryOperator_Default elements
             Unit.Trait_None)
        builder (seq 0 (seg_count segments)).

(** The builder of [ofModel] when it calls [getStructure]. *)
Definition modelBuilder (m : FullModel) : StructureBuilder :=
  let builder :=
    Builder {| parent := None; coordinateSystem := None;
               label := Some (Model.label (core m));
               masterModel := None; representativeModel := None |} in
  let builder := chainLoop (seg_count (chainAtomSegments m)) m 0 builder in
  if coarse_isDefined m then
    let builder :=
      if (0 <? coarse_count (spheres m))%Z
      then addCoarseUnits builder (core m) (spheres m) Unit.Spheres
      else builder in
    if (0 <? coarse_count (gaussians m))%Z
    then addCoarseUnits builder (core m) (gaussians m) Unit.Gaussians
    else builder
  else builder.

(** [Structure.ofModel]. *)
Definition ofModel (m : FullModel) : M SRef := getStructure (modelBuilder m).

(** The loops of [ofTrajectory]: the units of the structure of every model,
    in order, renumbered.  [units] is the array built so far and [count]
    its length after the model before. *)
Fixpoint trajectoryUnits (trajectory : list FullModel) (units : list Unit.t)
    (count : Z) : M (list Unit.t) :=
  match trajectory with
  | [] => ret units
  | m :: trajectory =>
      let! structure := ofModel m in
      let! o := readStructure structure in
      let! us := readArray (Struct.units o) in
      let units :=
        foldl (fun units u =>
                 let invariantId := (Unit.invariantId u + count)%Z in
                 let chainGroupId := (Unit.chainGroupId u + count)%Z in
                 let newUnit :=
                   Unit.create (Z.of_nat (length units)) invariantId chainGroupId
                     (Unit.traits u) (Unit.kind u) (Unit.model u)
                     (Unit.operator u) (Unit.elements u) in
                 units ++ [newUnit])
              units us in
      trajectoryUnits trajectory units (Z.of_nat (length units))
  end.

(** [Structure.ofTrajectory].  [Empty] is the instance that
    [Structure.Empty = new Structure([])] names. *)
Definition ofTrajectory (Empty : SRef) (trajectory : list FullModel) : M SRef :=
  match trajectory with
  | [] => ret Empty
  | first :: _ =>
      let! units := trajectoryUnits trajectory [] 0 in
      let! units := newArray units in
      create units
        {| parent := None; coordinateSystem := None;
           label := Some (Model.label (core first));
           masterModel := None;
           representativeModel := Some (core first) |}
  end.

End Build.

End StructBuild.

(** ** A reference implementation of the collaborators

    Exact integer matrices, one-bucket grid lookup, merge sort.  It is used
    to run the model on concrete inputs; no theorem about the model depends
    on it. *)

Module Reference.

Definition identity4 : list Z :=
  [1; 0; 0; 0;  0; 1; 0; 0;  0; 0; 1; 0;  0; 0; 0; 1]%Z.

Definition entry (m : list Z) (i : nat) : Z := default 0%Z (m !! i).

(** Last row (0, 0, 0, 1) and a 3x3 block of determinant 1. *)
Definition det3 (a : list Z) : Z :=
  (entry a 0 * (entry a 5 * entry a 10 - entry a 6 * entry a 9)
   - entry a 1 * (entry a 4 * entry a 10 - entry a 6 * entry a 8)
   + entry a 2 * (entry a 4 * entry a 9 - entry a 5 * entry a 8))%Z.

(** [Mat4.isRotationAndTranslation(a, eps)] of mol-math/linear-algebra, on
    exact integers: [a[15]] is 1, [a[3]], [a[7]] and [a[11]] are 0, and the
    determinant of the 3x3 block is within [eps] of 1, that is, [eps] being
    below 1, it is 1.  The test does not look at the angles between the
    columns of the block. *)
Definition isRotationAndTranslation (a : list Z) : bool :=
  bool_decide (entry a 3 = 0 ∧ entry a 7 = 0 ∧ entry a 11 = 0
               ∧ entry a 15 = 1 ∧ det3 a = 1)%Z.

(** The scalar product of the columns [i] and [j] of the 3x3 block of a
    column-major 4x4 matrix. *)
Definition columnDot (a : list Z) (i j : nat) : Z :=
  (entry a (4 * i) * entry a (4 * j)
   + entry a (4 * i + 1) * entry a (4 * j + 1)
   + entry a (4 * i + 2) * entry a (4 * j + 2))%Z.

(** Modelled from the spec: a transform that is expressible as rotation
    plus translation, [x ↦ R x + t] with [R] a rotation: the last row is
    (0, 0, 0, 1), the columns of the 3x3 block are orthonormal and its
    determinant is 1. *)
Definition rotationPlusTranslation (a : list Z) : Prop :=
  (entry a 3 = 0 ∧ entry a 7 = 0 ∧ entry a 11 = 0 ∧ entry a 15 = 1
   ∧ columnDot a 0 0 = 1 ∧ columnDot a 1 1 = 1 ∧ columnDot a 2 2 = 1
   ∧ columnDot a 0 1 = 0 ∧ columnDot a 0 2 = 0 ∧ columnDot a 1 2 = 0
   ∧ det3 a = 1)%Z.

#[export] Instance linearAlgebra : LinearAlgebra :=
  {| Mat4 := list Z; Vec3 := list Z; Assembly := string; Conformation := ();
     Mat4_isIdentity := fun m => bool_decide (m = identity4);
     Mat4_isRotationAndTranslation := isRotationAndTranslation |}.

(** Column-major 4x4 product. *)
Definition mul4 (a b : list Z) : list Z :=
  map (fun i =>
         let c := (i / 4)%nat in
         let r := (i mod 4)%nat in
         (entry a r * entry b (4 * c) + entry a (4 + r) * entry b (4 * c + 1)
          + entry a (8 + r) * entry b (4 * c + 2)
          + entry a (12 + r) * entry b (4 * c + 3))%Z)
      (seq 0 16).

Definition compose (first second : SymmetryOperator.t) : SymmetryOperator.t :=
  SymmetryOperator.create (SymmetryOperator.name second)
    (mul4 (SymmetryOperator.matrix second) (SymmetryOperator.matrix first))
    (SymmetryOperator.assembly second) (SymmetryOperator.ncsId second)
    (SymmetryOperator.hkl second).

Definition Default : SymmetryOperator.t :=
  SymmetryOperator.create "1_555" identity4 "" (-1) [0; 0; 0]%Z.

Definition u32 (x : Z) : Z := (x mod 2 ^ 32)%Z.

(** 32-bit FNV-1a over the array entries. *)
Definition fnv32a (xs : list Z) : Z :=
  foldl (fun hval x => u32 (Z.lxor hval (u32 x) * 16777619)) 2166136261%Z xs.

Definition hash1_ref (i : Z) : Z :=
  let a := Struct.toInt32 (Z.lxor i (Z.shiftr i 4)) in
  let a :=
    Struct.toInt32
      (Struct.toInt32 (Z.lxor a 3735928559) + Struct.toInt32 (Z.shiftl a 5)) in
  Struct.toInt32 (Z.lxor a (Z.shiftr a 11)).

Definition sortedArrayHash (xs : list Z) : Z :=
  foldl (fun h x => u32 (31 * h + x)) (Z.of_nat (length xs)) xs.

Definition cmpLe {A} (cmp : A -> A -> Z) : relation A :=
  fun a b => (cmp a b <= 0)%Z.

#[local] Instance cmpLe_dec {A} (cmp : A -> A -> Z) : RelDecision (cmpLe cmp).
Proof. intros a b. unfold cmpLe. apply _. Defined.

Definition mergeSort (A : Type) (cmp : A -> A -> Z) (l : list A) : list A :=
  merge_sort (cmpLe cmp) l.

Lemma mergeSort_Permutation A (cmp : A -> A -> Z) (l : list A) :
  mergeSort A cmp l ≡ₚ l.
Proof. apply merge_sort_Permutation. Qed.

Lemma mergeSort_Sorted A (key : A -> Z) (l : list A) :
  Sorted (fun a b => (key a <= key b)%Z)
         (mergeSort A (fun a b => (key a - key b)%Z) l).
Proof.
  unfold mergeSort.
  set (R := cmpLe (fun a b : A => (key a - key b)%Z)).
  assert (Htot : Total R).
  { intros a b. unfold R, cmpLe.
    destruct (Z.le_gt_cases (key a) (key b)); [left|right]; lia. }
  pose proof (Sorted_merge_sort R l) as Hs.
  induction Hs as [|a l' Hs IH Hhd]; constructor; [done|].
  destruct Hhd as [|b l'' Hab]; constructor. unfold R, cmpLe in Hab. lia.
Qed.

(** One bucket that holds every position. *)
Definition oneBucket (_ : ()) (indices : list Z) (_ : option Z) : Buckets :=
  {| offset := [0]; count := [length indices]; array := seq 0 (length indices) |}.

#[export] Instance collaborators : Collaborators :=
  {| SymmetryOperator_Default := Default;
     SymmetryOperator_compose := compose;
     hash1 := hash1_ref;
     hashFnv32a := fnv32a;
     SortedArray_hashCode := sortedArrayHash;
     sort := mergeSort;
     sort_Permutation := mergeSort_Permutation;
     sort_Sorted := mergeSort_Sorted;
     GridLookup3D := oneBucket |}.

End Reference.

(** ** Part III: properties of the query engine *)

Module QueryFacts.

Import IntData Query.

(** The positions of a segment. *)
Definition positions (s : Segment) : list nat := seq (start s) (end_ s - start s).

(** What a selection's element set holds: the units that have an element. *)
Definition elementsOf (a : AtomSet) : AtomSet := filter (fun us => us.2 ≠ []) a.

(** Two selections are equivalent when they have the same shape, belong to
    the same structure and hold the same elements unit by unit. *)
Inductive equivalent : Selection -> Selection -> Prop :=
| equivalent_Empty s : equivalent (Empty s) (Empty s)
| equivalent_Singletons s a b :
    elementsOf a = elementsOf b -> equivalent (Singletons s a) (Singletons s b)
| equivalent_Sequence s l1 l2 :
    map elementsOf l1 = map elementsOf l2 ->
    equivalent (Sequence s l1) (Sequence s l2).

Lemma equivalent_refl x : equivalent x x.
Proof. destruct x; by constructor. Qed.

(** *** Segments tile the positions they are cut from *)

Lemma segmentsAcc_tiles seg set n : forall pos idx st,
  st <= pos ->
  concat (map positions (segmentsAcc seg set n pos idx st)) = seq st (pos + n - st).
Proof.
  induction n as [|n IH]; intros pos idx st Hle; simpl.
  - unfold positions; simpl. rewrite app_nil_r. f_equal. lia.
  - case_decide.
    + rewrite IH by lia. f_equal. lia.
    + simpl. rewrite IH by lia. unfold positions at 1; simpl.
      replace (pos + S n - st) with ((pos - st) + (S pos + n - pos)) by lia.
      rewrite seq_app. do 2 f_equal. lia.
Qed.

Lemma segmentsIn_tiles seg set lo hi :
  concat (map positions (segmentsIn seg set lo hi)) = seq lo (hi - lo).
Proof.
  unfold segmentsIn. destruct (hi - lo) as [|n] eqn:E; [done|].
  rewrite segmentsAcc_tiles by lia. f_equal. lia.
Qed.

(** Every segment is non-empty and lies inside the positions walked. *)
Lemma segmentsAcc_bounds seg set n : forall pos idx st s,
  st < pos ->
  s ∈ segmentsAcc seg set n pos idx st ->
  st <= start s ∧ start s < end_ s ∧ end_ s <= pos + n.
Proof.
  induction n as [|n IH]; intros pos idx st s Hlt; simpl.
  - intros ->%list_elem_of_singleton. simpl. lia.
  - case_decide.
    + intros Hin. apply IH in Hin; lia.
    + intros [->|Hin]%elem_of_cons; [simpl; lia|].
      apply IH in Hin; lia.
Qed.

Lemma segmentsIn_bounds seg set lo hi s :
  s ∈ segmentsIn seg set lo hi -> lo <= start s ∧ start s < end_ s ∧ end_ s <= hi.
Proof.
  unfold segmentsIn. destruct (hi - lo) as [|n] eqn:E.
  - by intros ?%elem_of_nil.
  - intros Hin. apply segmentsAcc_bounds in Hin; lia.
Qed.

(** *** The segmented nest with permissive tests is the flat scan *)

Section Scan.
Context {B : Type} (atomTest : Predicate) (u : Unit) (set : OrderedSet)
        (k : B -> Z -> B).

Definition step (b : B) (j : nat) : B :=
  if atomTest {| unit := u; atom := getAt set j |} then k b (getAt set j) else b.

Lemma scanAtoms_step lo hi b :
  scanAtoms atomTest u set k lo hi b = foldl step b (seq lo (hi - lo)).
Proof. reflexivity. Qed.

Lemma scan_segments (segs : list Segment) : forall b,
  foldl (fun b s => scanAtoms atomTest u set k (start s) (end_ s) b) b segs
  = foldl step b (concat (map positions segs)).
Proof.
  induction segs as [|s segs IH]; intros b; simpl; [done|].
  by rewrite foldl_app, IH.
Qed.

Lemma segmentedUnit_permissive (q : AtomGroupsQueryParams) b :
  entityTest q = constant_true -> chainTest q = constant_true ->
  residueTest q = constant_true -> Query.atomTest q = atomTest ->
  segmentedUnit q u set k b = scanAtoms atomTest u set k 0 (length set) b.
Proof.
  intros He Hc Hr Ha. unfold segmentedUnit. rewrite He, Hc, Hr, Ha. simpl.
  rewrite scanAtoms_step, <- (segmentsIn_tiles (chainSegments (hierarchy u)) set).
  unfold transientSegments.
  generalize (segmentsIn (chainSegments (hierarchy u)) set 0 (length set)).
  intros chains. revert b.
  induction chains as [|c chains IH]; intros b; simpl; [done|].
  rewrite foldl_app, <- IH. f_equal.
  rewrite scan_segments, segmentsIn_tiles. reflexivity.
Qed.

End Scan.

Lemma linear_is_segmented (atomTest : Predicate) (s : Structure) :
  atomGroupsLinear atomTest s
  = atomGroupsSegmented
      {| entityTest := constant_true; chainTest := constant_true;
         residueTest := constant_true; Query.atomTest := atomTest;
         groupBy := constant_zero |} s.
Proof.
  unfold atomGroupsLinear, atomGroupsSegmented. do 2 f_equal.
  generalize (Builder.LinearBuilder (atoms s)).
  induction (atoms s) as [|[unitId set] l IH]; intros b; simpl; [done|].
  rewrite IH. do 3 f_equal.
  symmetry. by apply segmentedUnit_permissive.
Qed.

(** *** The flat scan with the permissive atom test rebuilds the set *)

Lemma getAt_all (set : OrderedSet) : map (getAt set) (seq 0 (length set)) = set.
Proof.
  apply list_eq. intros i. rewrite list_lookup_fmap.
  destruct (set !! i) as [x|] eqn:E.
  - rewrite lookup_seq_lt by (by eapply lookup_lt_Some). simpl.
    unfold getAt. by rewrite E.
  - rewrite lookup_seq_ge; [done|]. by apply lookup_ge_None.
Qed.

Lemma scan_all_currentUnit u set (js : list nat) : forall b,
  foldl (step constant_true u set Builder.addToUnit) b js
  = {| Builder.parent := Builder.parent b; Builder.units := Builder.units b;
       Builder.currentUnit := Builder.currentUnit b ++ map (getAt set) js;
       Builder.atomCount := Builder.atomCount b + length js |}.
Proof.
  induction js as [|j js IH]; intros b; simpl.
  - rewrite app_nil_r, Nat.add_0_r. by destruct b.
  - rewrite IH. unfold step; simpl. rewrite <- app_assoc. simpl.
    f_equal. lia.
Qed.

Lemma linear_all_units (l : AtomSet) (units : Z -> Unit) : forall b,
  Builder.units
    (foldl (fun builder '(unitId, set) =>
              Builder.commitUnit
                (scanAtoms constant_true (units unitId) set Builder.addToUnit 0
                   (length set) (Builder.beginUnit builder)) unitId) b l)
  = Builder.units b ++ elementsOf l.
Proof.
  induction l as [|[unitId set] l IH]; intros b.
  - simpl. by rewrite app_nil_r.
  - cbn [foldl]. rewrite IH, scanAtoms_step, Nat.sub_0_r, scan_all_currentUnit, getAt_all.
    unfold elementsOf. rewrite filter_cons.
    unfold Builder.commitUnit; simpl.
    destruct set as [|a set]; simpl.
    + done.
    + by rewrite <- app_assoc.
Qed.

Lemma elementsOf_idemp (a : AtomSet) : elementsOf (elementsOf a) = elementsOf a.
Proof.
  unfold elementsOf. induction a as [|x a IH]; [done|].
  rewrite filter_cons. case_decide; [|done].
  rewrite filter_cons, decide_True by done. by rewrite IH.
Qed.

Lemma all_is_linear (s : Structure) :
  equivalent (all s) (atomGroupsLinear constant_true s).
Proof.
  unfold all, atomGroupsLinear. constructor. unfold Builder.getSet.
  rewrite (linear_all_units (atoms s) (units s)). simpl.
  by rewrite elementsOf_idemp.
Qed.

(** When no unit of the structure's element set is empty, [all] returns the
    very Selection of the flat scan with the permissive test. *)
Lemma all_equals_linear (s : Structure) :
  Forall (fun us => us.2 ≠ []) (atoms s) ->
  all s = atomGroupsLinear constant_true s.
Proof.
  intros Hne. unfold all, atomGroupsLinear. f_equal. unfold Builder.getSet.
  rewrite (linear_all_units (atoms s) (units s)). simpl.
  unfold elementsOf. induction Hne as [|x l Hx Hl IH]; [done|].
  by rewrite filter_cons_True, <- IH.
Qed.

(** C3.  The strategies that [atoms] dispatches to are one query.
    (1) For every structure and atom test, [atomGroupsLinear] returns the
    very Selection that [atomGroupsSegmented] returns with the entity,
    chain and residue tests defaulted to always-true.
    (2) For every call of [atoms] without a group-by, with any choice of
    the four tests present or absent, the strategy chosen ([all],
    [atomGroupsLinear] or [atomGroupsSegmented]) returns a Selection
    equivalent to the one the segmented strategy returns on the normalized
    parameters; so does the call without parameters. *)
Theorem atoms_strategies_agree (ofAtoms : list Atom -> AtomSet -> AtomSet)
    (entityTest chainTest residueTest atomTest : option Predicate)
    (s : Structure) :
  let params :=
    {| p_entityTest := entityTest; p_chainTest := chainTest;
       p_residueTest := residueTest; p_atomTest := atomTest;
       p_groupBy := None |} in
  (forall t : Predicate,
     atomGroupsLinear t s
     = atomGroupsSegmented
         {| Query.entityTest := constant_true; Query.chainTest := constant_true;
            Query.residueTest := constant_true; Query.atomTest := t;
            groupBy := constant_zero |} s)
  ∧ equivalent (atomsQuery ofAtoms (Some params) s)
               (atomGroupsSegmented (normalize params) s)
  ∧ equivalent (atomsQuery ofAtoms None s)
               (atomGroupsSegmented
                  (normalize {| p_entityTest := None; p_chainTest := None;
                                p_residueTest := None; p_atomTest := None;
                                p_groupBy := None |}) s).
Proof.
  intros params. split; [intros t; apply linear_is_segmented|].
  assert (Hall : equivalent (all s)
            (atomGroupsSegmented
               (normalize {| p_entityTest := None; p_chainTest := None;
                             p_residueTest := None; p_atomTest := None;
                             p_groupBy := None |}) s)).
  { unfold normalize; simpl. rewrite <- linear_is_segmented. apply all_is_linear. }
  split; [|exact Hall].
  subst params. unfold atomsQuery; simpl.
  destruct atomTest as [t|], residueTest as [r|], chainTest as [c|],
    entityTest as [e|]; simpl; try apply equivalent_refl.
  - unfold normalize; simpl. rewrite linear_is_segmented. apply equivalent_refl.
  - exact Hall.
Qed.

(** *** The grouping accumulator *)

(** One call [builder.add(key, unit, atom)], as the triple of its arguments. *)
Definition callKey (c : Z * Z * Z) : Z := c.1.1.

(** The keys of a sequence of calls, each once, in the order in which they
    are first seen. *)
Fixpoint firstSeen (ks : list Z) : list Z :=
  match ks with
  | [] => []
  | k :: r => k :: filter (fun k' => k' ≠ k) (firstSeen r)
  end.

(** The (unit, atom) pairs added under key [k], in call order. *)
Definition callsOf (k : Z) (calls : list (Z * Z * Z)) : list (Z * Z) :=
  map (fun c => (c.1.2, c.2)) (filter (fun c => callKey c = k) calls).

(** The element-set builder that has received the given elements. *)
Definition builderOf (p : list (Z * list Z)) (l : list (Z * Z)) : Builder.t :=
  foldl (fun b ua => Builder.add b ua.1 ua.2) (Builder.LinearBuilder p) l.

Lemma elem_of_firstSeen k ks : k ∈ firstSeen ks ↔ k ∈ ks.
Proof.
  induction ks as [|k0 ks IH]; simpl; [done|].
  rewrite !elem_of_cons, list_elem_of_filter, IH.
  destruct (decide (k = k0)); naive_solver.
Qed.

Lemma NoDup_firstSeen ks : NoDup (firstSeen ks).
Proof.
  induction ks as [|k0 ks IH]; simpl; constructor.
  - rewrite list_elem_of_filter. naive_solver.
  - by apply NoDup_filter.
Qed.

Lemma firstSeen_snoc ks k :
  firstSeen (ks ++ [k]) = if decide (k ∈ ks) then firstSeen ks else firstSeen ks ++ [k].
Proof.
  induction ks as [|k0 ks IH]; simpl; [done|].
  rewrite IH. destruct (decide (k ∈ ks)) as [Hin|Hnin].
  - rewrite decide_True; [done|]. by right.
  - rewrite filter_app, filter_cons, filter_nil.
    destruct (decide (k = k0)) as [->|Hne].
    + rewrite decide_False by naive_solver.
      rewrite decide_True by (by left). by rewrite app_nil_r.
    + rewrite decide_True by done.
      rewrite decide_False; [done|]. rewrite elem_of_cons. naive_solver.
Qed.

Lemma callsOf_snoc k calls c :
  callsOf k (calls ++ [c])
  = callsOf k calls ++ (if decide (callKey c = k) then [(c.1.2, c.2)] else []).
Proof.
  unfold callsOf. rewrite filter_app, filter_cons, filter_nil, map_app.
  by case_decide.
Qed.

Lemma callsOf_absent k calls : k ∉ map callKey calls -> callsOf k calls = [].
Proof.
  intros Hnin. unfold callsOf.
  induction calls as [|c calls IH]; [done|].
  rewrite filter_cons. simpl in Hnin. rewrite not_elem_of_cons in Hnin.
  rewrite decide_False by naive_solver. apply IH. naive_solver.
Qed.

Lemma callsOf_present k calls : k ∈ map callKey calls -> callsOf k calls ≠ [].
Proof.
  unfold callsOf. induction calls as [|c calls IH]; simpl.
  - by intros ?%elem_of_nil.
  - rewrite filter_cons. case_decide; [done|].
    rewrite elem_of_cons. naive_solver.
Qed.

Lemma builderOf_snoc p l ua :
  builderOf p (l ++ [ua]) = Builder.add (builderOf p l) ua.1 ua.2.
Proof. unfold builderOf. by rewrite foldl_app. Qed.

Lemma builderOf_atomCount p l : Builder.atomCount (builderOf p l) = length l.
Proof.
  induction l as [|ua l IH] using rev_ind; [done|].
  rewrite builderOf_snoc, length_app. simpl. lia.
Qed.

Lemma addAtom_nonempty us u a :
  Forall (fun x : Z * list Z => x.2 ≠ []) us ->
  Forall (fun x : Z * list Z => x.2 ≠ []) (Builder.addAtom us u a)
  ∧ Builder.addAtom us u a ≠ [].
Proof.
  induction 1 as [|[u' xs] us Hx Hus [IH _]]; simpl.
  - split; [|done]. by repeat constructor.
  - case_decide; (split; [|done]); constructor; simpl in *; try done.
    by destruct xs.
Qed.

Lemma builderOf_units p l :
  Forall (fun x : Z * list Z => x.2 ≠ []) (Builder.units (builderOf p l))
  ∧ (l ≠ [] -> Builder.units (builderOf p l) ≠ []).
Proof.
  induction l as [|ua l [IH _]] using rev_ind; [by split|].
  rewrite builderOf_snoc. simpl.
  destruct (addAtom_nonempty (Builder.units (builderOf p l)) ua.1 ua.2 IH).
  by split.
Qed.

Lemma builderOf_singleton p l : l ≠ [] -> is_Some (Builder.singleton (builderOf p l)).
Proof.
  intros Hl. destruct (builderOf_units p l) as [Hall Hne].
  specialize (Hne Hl). unfold Builder.singleton.
  destruct (Builder.units (builderOf p l)) as [|[u [|a xs]] us]; [done| |by eexists].
  by inversion Hall.
Qed.

Section GroupingFacts.
Variable ofAtoms : list Atom -> list (Z * list Z) -> list (Z * list Z).
Variable s : Structure.

Definition addCall (g : LinearGroupingBuilder) (c : Z * Z * Z)
    : LinearGroupingBuilder :=
  add g (callKey c) c.1.2 c.2.

(** The accumulator after the given calls. *)
Definition after (calls : list (Z * Z * Z)) : LinearGroupingBuilder :=
  foldl addCall (newLinearGroupingBuilder s) calls.

Lemma alter_map_NoDup {A} (F : Z -> A) (f : A -> A) (ks : list Z) i k :
  NoDup ks -> ks !! i = Some k ->
  alter f i (map F ks) = map (fun k' => if decide (k' = k) then f (F k') else F k') ks.
Proof.
  intros Hnd Hi. apply list_eq. intros j.
  rewrite list_lookup_fmap. destruct (decide (j = i)) as [->|Hne].
  - rewrite list_lookup_alter_eq, list_lookup_fmap, Hi. simpl.
    by rewrite decide_True.
  - rewrite list_lookup_alter_ne by done. rewrite list_lookup_fmap.
    destruct (ks !! j) as [k'|] eqn:Ej; [|done]. simpl.
    rewrite decide_False; [done|]. intros ->.
    by pose proof (NoDup_lookup _ _ _ _ Hnd Ej Hi).
Qed.

Lemma after_invariant calls :
  structure (after calls) = s
  ∧ builders (after calls)
    = map (fun k => builderOf (atoms s) (callsOf k calls))
          (firstSeen (map callKey calls))
  ∧ (forall k i, builderMap (after calls) !! k = Some i
                 ↔ firstSeen (map callKey calls) !! i = Some k).
Proof.
  induction calls as [|c calls (Hs & Hb & Hm)] using rev_ind.
  - repeat split; simpl; try done.
  - unfold after in *. rewrite foldl_app. simpl.
    set (g := foldl addCall (newLinearGroupingBuilder s) calls) in *.
    rewrite map_app. simpl. rewrite firstSeen_snoc.
    set (ks := firstSeen (map callKey calls)) in *.
    unfold addCall, add.
    destruct (builderMap g !! callKey c) as [i|] eqn:Ek.
    + apply Hm in Ek as Hi.
      assert (callKey c ∈ map callKey calls) as Hin.
      { apply elem_of_firstSeen. by eapply list_elem_of_lookup_2. }
      rewrite decide_True by done. simpl. split; [done|]. split; [|done].
      rewrite Hb.
      rewrite (alter_map_NoDup _ _ ks i (callKey c)) by (done || apply NoDup_firstSeen).
      apply map_ext. intros k'. rewrite callsOf_snoc.
      destruct (decide (k' = callKey c)) as [->|Hne].
      * rewrite decide_True by done. by rewrite builderOf_snoc.
      * rewrite decide_False by done. by rewrite app_nil_r.
    + assert (callKey c ∉ ks) as Hnin.
      { intros [i Hi]%list_elem_of_lookup_1. apply Hm in Hi. congruence. }
      assert (callKey c ∉ map callKey calls) as Hnin'.
      { by rewrite <- elem_of_firstSeen. }
      rewrite decide_False by done. simpl. split; [done|]. split.
      * rewrite map_app, Hb, Hs. simpl. f_equal.
        -- apply map_ext_in. intros k' Hk'%list_elem_of_In.
           rewrite callsOf_snoc, decide_False; [by rewrite app_nil_r|].
           intros <-. done.
        -- rewrite callsOf_snoc, decide_True by done.
           rewrite callsOf_absent by done. done.
      * intros k i. rewrite Hb, length_map.
        destruct (decide (k = callKey c)) as [->|Hne].
        -- rewrite lookup_insert_eq. split.
           ++ intros [= <-]. rewrite lookup_app_r by done.
              by rewrite Nat.sub_diag.
           ++ intros Hi. f_equal.
              destruct (decide (i < length ks)) as [Hlt|Hge].
              ** rewrite lookup_app_l in Hi by done.
                 destruct Hnin. by eapply list_elem_of_lookup_2.
              ** apply lookup_lt_Some in Hi. rewrite length_app in Hi.
                 simpl in Hi. lia.
        -- rewrite lookup_insert_ne by done. rewrite Hm. split.
           ++ intros Hi. rewrite lookup_app_l; [done|]. by eapply lookup_lt_Some.
           ++ intros Hi. destruct (decide (i < length ks)) as [Hlt|Hge].
              ** by rewrite lookup_app_l in Hi.
              ** rewrite lookup_app_r in Hi by lia.
                 destruct (i - length ks) as [|n]; simpl in Hi; [congruence|].
                 by rewrite lookup_nil in Hi.
Qed.

Lemma after_builders_filled calls :
  Forall (fun b => 1 <= Builder.atomCount b ∧ is_Some (Builder.singleton b))
         (builders (after calls)).
Proof.
  destruct (after_invariant calls) as (_ & -> & _).
  apply Forall_fmap, Forall_forall. intros k Hk. simpl.
  apply (proj1 (elem_of_firstSeen _ _)), callsOf_present in Hk. split.
  - rewrite builderOf_atomCount. destruct (callsOf k calls); simpl; [done|lia].
  - by apply builderOf_singleton.
Qed.

Lemma allSingletons_spec calls :
  allSingletons (after calls) = true
  ↔ Forall (fun b => Builder.atomCount b = 1) (builders (after calls)).
Proof.
  unfold allSingletons.
  pose proof (after_builders_filled calls) as Hfilled.
  induction Hfilled as [|b bs [Hb _] _ IH]; simpl; [by split; constructor|].
  rewrite Forall_cons, <- IH, andb_true_iff, negb_true_iff, Nat.ltb_ge.
  intuition lia.
Qed.

(** What [atomGroupsGrouped] does to the accumulator is a sequence of
    [add] calls. *)
Definition extends (g g' : LinearGroupingBuilder) : Prop :=
  exists calls, g' = foldl addCall g calls.

Lemma extends_refl g : extends g g.
Proof. by exists []. Qed.

Lemma extends_trans g1 g2 g3 : extends g1 g2 -> extends g2 g3 -> extends g1 g3.
Proof. intros [c1 ->] [c2 ->]. exists (c1 ++ c2). by rewrite foldl_app. Qed.

Lemma extends_add g key unit atom : extends g (add g key unit atom).
Proof. by exists [(key, unit, atom)]. Qed.

Lemma extends_foldl {X} (f : LinearGroupingBuilder -> X -> LinearGroupingBuilder)
    (l : list X) :
  (forall g x, extends g (f g x)) -> forall g, extends g (foldl f g l).
Proof.
  intros Hf. induction l as [|x l IH]; intros g; simpl; [apply extends_refl|].
  eapply extends_trans; [apply Hf|apply IH].
Qed.

Lemma grouped_is_calls (q : AtomGroupsQueryParams) :
  exists calls, atomGroupsGrouped ofAtoms q s = getSelection ofAtoms (after calls).
Proof.
  unfold atomGroupsGrouped, after.
  match goal with |- context [getSelection _ (foldl ?f ?g0 ?l)] =>
    destruct (extends_foldl f l) with (g := g0) as [calls Hc] end.
  - intros g [unitId set]. unfold segmentedUnit.
    apply extends_foldl. intros g1 c. case_match; [apply extends_refl|].
    apply extends_foldl. intros g2 r. case_match; [apply extends_refl|].
    unfold scanAtoms. apply extends_foldl. intros g3 j. simpl.
    case_match; [apply extends_add|apply extends_refl].
  - exists calls. by rewrite Hc.
Qed.

(** C4.  After any sequence of [add] calls the accumulator holds one
    element-set builder per distinct key, in first-seen-key order, each with
    exactly the elements added under its key (so none is empty), and the map
    sends a key to its builder.  [getSelection] returns the empty Selection
    when there was no call; the singleton shape when every builder holds
    exactly one element; the sequence of all per-group sets otherwise.
    Every grouped query returns [getSelection] of such an accumulator. *)
Theorem grouping_accumulator_shape (calls : list (Z * Z * Z)) :
  let g := after calls in
  let keys := firstSeen (map callKey calls) in
  builders g = map (fun k => builderOf (atoms s) (callsOf k calls)) keys
  ∧ (forall k i, builderMap g !! k = Some i ↔ keys !! i = Some k)
  ∧ Forall (fun b => 1 <= Builder.atomCount b ∧ is_Some (Builder.singleton b))
           (builders g)
  ∧ getSelection ofAtoms g
    = (if decide (calls = []) then Empty s
       else if decide (Forall (fun b => Builder.atomCount b = 1) (builders g))
       then Singletons s (ofAtoms (omap Builder.singleton (builders g)) (atoms s))
       else Sequence s (map Builder.getSet (builders g)))
  ∧ (forall q : AtomGroupsQueryParams,
       exists calls', atomGroupsGrouped ofAtoms q s
                      = getSelection ofAtoms (after calls')).
Proof.
  cbv zeta. destruct (after_invariant calls) as (Hs & Hb & Hm).
  split; [exact Hb|]. split; [exact Hm|].
  split; [apply after_builders_filled|]. split; [|apply grouped_is_calls].
  unfold getSelection, singletonSelection, fullSelection. rewrite Hs.
  pose proof (allSingletons_spec calls) as Hall.
  destruct (decide (calls = [])) as [->|Hne]; [done|].
  destruct (length (builders (after calls))) eqn:Elen.
  - exfalso. rewrite Hb, length_map in Elen.
    destruct calls; [done|]. simpl in Elen. done.
  - destruct (allSingletons (after calls)).
    + rewrite decide_True; [done|]. by apply Hall.
    + rewrite decide_False; [done|]. rewrite <- Hall. congruence.
Qed.

End GroupingFacts.

End QueryFacts.

(** ** Part III, continued: the segmented scan as a filter *)

Module FilterFacts.

Import IntData Query QueryFacts.

(** *** The segmented scan is a filter *)

(** Every position of a segment belongs to the group of the segment. *)
Lemma segmentsAcc_uniform seg set n : forall pos idx st s,
  (forall j, st <= j < pos -> getSegment seg (getAt set j) = idx) ->
  s ∈ segmentsAcc seg set n pos idx st ->
  forall j, start s <= j < end_ s -> getSegment seg (getAt set j) = index s.
Proof.
  induction n as [|n IH]; intros pos idx st s Hrun; simpl.
  - intros ->%list_elem_of_singleton. simpl. exact Hrun.
  - case_decide as Hk.
    + apply IH. intros j Hj. destruct (decide (j = pos)) as [->|]; [done|].
      apply Hrun. lia.
    + intros [->|Hin]%elem_of_cons; [exact Hrun|].
      revert Hin. apply IH. intros j Hj. by assert (j = pos) as -> by lia.
Qed.

Lemma segmentsIn_uniform seg set lo hi s :
  s ∈ segmentsIn seg set lo hi ->
  forall j, start s <= j < end_ s -> getSegment seg (getAt set j) = index s.
Proof.
  unfold segmentsIn. destruct (hi - lo) as [|n] eqn:E.
  - by intros ?%elem_of_nil.
  - apply segmentsAcc_uniform. intros j Hj. by assert (j = lo) as -> by lia.
Qed.

(** A test respects a segmentation when it gives one answer on the
    elements of one group. *)
Definition respects (t : Predicate) (seg : Hierarchy -> Segmentation) : Prop :=
  forall (u : Unit) (a a' : Z),
    getSegment (seg (hierarchy u)) a = getSegment (seg (hierarchy u)) a' ->
    t {| unit := u; atom := a |} = t {| unit := u; atom := a' |}.

(** The four tests on one element. *)
Definition passes (q : AtomGroupsQueryParams) (u : Unit) (a : Z) : bool :=
  let l := {| unit := u; atom := a |} in
  entityTest q l && chainTest q l && residueTest q l && atomTest q l.

Section Filter.
Context {B : Type} (q : AtomGroupsQueryParams) (u : Unit) (set : OrderedSet)
        (k : B -> Z -> B).
Hypothesis Hentity : respects (entityTest q) chainSegments.
Hypothesis Hchain : respects (chainTest q) chainSegments.
Hypothesis Hresidue : respects (residueTest q) residueSegments.

Definition stepAll (b : B) (j : nat) : B :=
  if passes q u (getAt set j) then k b (getAt set j) else b.

Lemma stepAll_skip (js : list nat) b :
  Forall (fun j => passes q u (getAt set j) = false) js -> foldl stepAll b js = b.
Proof.
  induction 1 as [|j js Hj _ IH]; simpl; [done|].
  unfold stepAll at 2. by rewrite Hj.
Qed.

Lemma stepAll_atoms (js : list nat) : forall b,
  Forall (fun j => let l := {| unit := u; atom := getAt set j |} in
                   entityTest q l && chainTest q l && residueTest q l = true) js ->
  foldl (step (atomTest q) u set k) b js = foldl stepAll b js.
Proof.
  induction js as [|j js IH]; intros b Hall; simpl; [done|].
  inversion Hall as [|? ? Hj Hjs]; subst. rewrite IH by done. f_equal.
  unfold step, stepAll, passes. cbv zeta in *. by rewrite Hj.
Qed.

Lemma residues_are_filter lo hi b :
  (forall j, lo <= j < hi ->
     let l := {| unit := u; atom := getAt set j |} in
     entityTest q l && chainTest q l = true) ->
  foldl (fun b residueSegment =>
           let l := {| unit := u; atom := getAt set (start residueSegment) |} in
           if negb (residueTest q l) then b
           else scanAtoms (atomTest q) u set k
                  (start residueSegment) (end_ residueSegment) b)
        b (segmentsIn (residueSegments (hierarchy u)) set lo hi)
  = foldl stepAll b (seq lo (hi - lo)).
Proof.
  intros Hpass.
  rewrite <- (segmentsIn_tiles (residueSegments (hierarchy u)) set lo hi).
  pose proof (fun s => segmentsIn_bounds (residueSegments (hierarchy u)) set lo hi s)
    as Hbounds.
  pose proof (fun s => segmentsIn_uniform (residueSegments (hierarchy u)) set lo hi s)
    as Huniform.
  revert b Hbounds Huniform.
  generalize (segmentsIn (residueSegments (hierarchy u)) set lo hi).
  intros segs. induction segs as [|r segs IH]; intros b Hbounds Huniform;
    [done|].
  simpl. rewrite foldl_app.
  assert (Hb' : forall s, s ∈ segs -> lo <= start s ∧ start s < end_ s ∧ end_ s <= hi)
    by (intros s' Hs'; apply Hbounds; by right).
  assert (Hu' : forall s, s ∈ segs -> forall j, start s <= j < end_ s ->
                  getSegment (residueSegments (hierarchy u)) (getAt set j) = index s)
    by (intros s' Hs'; apply Huniform; by right).
  rewrite <- (IH _ Hb' Hu'). clear Hb' Hu'.
  f_equal.
  destruct (Hbounds r ltac:(by left)) as (Hlo & Hne & Hhi).
  assert (Hsame : forall j, start r <= j < end_ r ->
            residueTest q {| unit := u; atom := getAt set j |}
            = residueTest q {| unit := u; atom := getAt set (start r) |}).
  { intros j Hj. apply Hresidue.
    rewrite (Huniform r ltac:(by left) j Hj).
    by rewrite (Huniform r ltac:(by left) (start r)) by lia. }
  destruct (residueTest q {| unit := u; atom := getAt set (start r) |}) eqn:Hr;
    simpl.
  - rewrite scanAtoms_step. apply stepAll_atoms.
    apply Forall_forall. intros j Hj%elem_of_seq. cbv zeta.
    rewrite (Hsame j) by lia. rewrite andb_true_r. apply Hpass. lia.
  - symmetry. apply stepAll_skip.
    apply Forall_forall. intros j Hj%elem_of_seq. unfold passes. cbv zeta.
    rewrite (Hsame j) by lia. by rewrite andb_false_r.
Qed.

Lemma segmentedUnit_is_filter b :
  segmentedUnit q u set k b = foldl stepAll b (seq 0 (length set)).
Proof.
  unfold segmentedUnit, transientSegments.
  transitivity (foldl stepAll b (seq 0 (length set - 0)));
    [|by rewrite Nat.sub_0_r].
  rewrite <- (segmentsIn_tiles (chainSegments (hierarchy u)) set 0 (length set)).
  pose proof (fun s => segmentsIn_bounds (chainSegments (hierarchy u)) set
                         0 (length set) s) as Hbounds.
  pose proof (fun s => segmentsIn_uniform (chainSegments (hierarchy u)) set
                         0 (length set) s) as Huniform.
  revert b Hbounds Huniform.
  generalize (segmentsIn (chainSegments (hierarchy u)) set 0 (length set)).
  intros segs. induction segs as [|c segs IH]; intros b Hbounds Huniform;
    [done|].
  simpl. rewrite foldl_app.
  assert (Hb' : forall s, s ∈ segs ->
                  0 <= start s ∧ start s < end_ s ∧ end_ s <= length set)
    by (intros s' Hs'; apply Hbounds; by right).
  assert (Hu' : forall s, s ∈ segs -> forall j, start s <= j < end_ s ->
                  getSegment (chainSegments (hierarchy u)) (getAt set j) = index s)
    by (intros s' Hs'; apply Huniform; by right).
  rewrite <- (IH _ Hb' Hu'). clear Hb' Hu'.
  f_equal.
  destruct (Hbounds c ltac:(by left)) as (Hlo & Hne & Hhi).
  assert (Hsame : forall j, start c <= j < end_ c ->
            entityTest q {| unit := u; atom := getAt set j |}
            = entityTest q {| unit := u; atom := getAt set (start c) |}
            ∧ chainTest q {| unit := u; atom := getAt set j |}
              = chainTest q {| unit := u; atom := getAt set (start c) |}).
  { intros j Hj.
    assert (getSegment (chainSegments (hierarchy u)) (getAt set j)
            = getSegment (chainSegments (hierarchy u)) (getAt set (start c))).
    { rewrite (Huniform c ltac:(by left) j Hj).
      by rewrite (Huniform c ltac:(by left) (start c)) by lia. }
    split; [by apply Hentity|by apply Hchain]. }
  destruct (negb (entityTest q {| unit := u; atom := getAt set (start c) |})
            || negb (chainTest q {| unit := u; atom := getAt set (start c) |}))
    eqn:Hfail.
  - symmetry. apply stepAll_skip.
    apply Forall_forall. intros j Hj%elem_of_seq. unfold passes. cbv zeta.
    destruct (Hsame j ltac:(lia)) as [-> ->].
    apply orb_true_iff in Hfail as [Hf|Hf]; apply negb_true_iff in Hf;
      rewrite Hf; by rewrite ?andb_false_r.
  - apply residues_are_filter. intros j Hj. cbv zeta.
    destruct (Hsame j ltac:(lia)) as [-> ->].
    apply orb_false_iff in Hfail as [Hf1 Hf2].
    apply negb_false_iff in Hf1, Hf2. by rewrite Hf1, Hf2.
Qed.

End Filter.

Lemma stepAll_addToUnit q u set (js : list nat) : forall b,
  foldl (stepAll q u set Builder.addToUnit) b js
  = {| Builder.parent := Builder.parent b; Builder.units := Builder.units b;
       Builder.currentUnit :=
         Builder.currentUnit b ++ List.filter (passes q u) (map (getAt set) js);
       Builder.atomCount :=
         Builder.atomCount b
         + length (List.filter (passes q u) (map (getAt set) js)) |}.
Proof.
  induction js as [|j js IH]; intros b; simpl.
  - rewrite app_nil_r, Nat.add_0_r. by destruct b.
  - rewrite IH. unfold stepAll.
    destruct (passes q u (getAt set j)); simpl.
    + rewrite <- app_assoc. simpl. f_equal. lia.
    + done.
Qed.

(** The element set of the selection by per-element filtering: for every
    unit of the structure's element set, the elements that pass the four
    tests, and no entry for a unit of which none passes. *)
Definition filtered (q : AtomGroupsQueryParams) (s : Structure) : AtomSet :=
  elementsOf
    (map (fun '(unitId, set) =>
            (unitId, List.filter (passes q (units s unitId)) set))
         (atoms s)).

(** X19.  The segmented query tests the entity and the chain once per chain
    segment and the residue once per residue segment, on the first element
    of the segment.  When these three tests give one answer on the
    elements of one chain, respectively of one residue, the query selects
    exactly the elements that pass all four tests, unit by unit, in the
    order of the structure's element set. *)
Theorem segmented_is_filter (q : AtomGroupsQueryParams) (s : Structure) :
  respects (entityTest q) chainSegments ->
  respects (chainTest q) chainSegments ->
  respects (residueTest q) residueSegments ->
  atomGroupsSegmented q s = Singletons s (filtered q s).
Proof.
  intros He Hc Hr. unfold atomGroupsSegmented, filtered. f_equal.
  unfold Builder.getSet.
  assert (Hgen : forall l b,
    Builder.units
      (foldl (fun builder '(unitId, set) =>
                Builder.commitUnit
                  (segmentedUnit q (units s unitId) set Builder.addToUnit
                     (Builder.beginUnit builder)) unitId) b l)
    = Builder.units b
      ++ elementsOf (map (fun '(unitId, set) =>
                            (unitId, List.filter (passes q (units s unitId)) set))
                         l)).
  { induction l as [|[unitId set] l IH]; intros b.
    - simpl. by rewrite app_nil_r.
    - cbn [foldl map]. rewrite IH.
      rewrite (segmentedUnit_is_filter q (units s unitId) set _ He Hc Hr).
      rewrite stepAll_addToUnit, getAt_all.
      unfold elementsOf. rewrite filter_cons.
      unfold Builder.commitUnit; simpl.
      destruct (List.filter (passes q (units s unitId)) set) as [|a r]; simpl.
      + done.
      + by rewrite <- app_assoc. }
  by rewrite Hgen.
Qed.

(** *** The groups of a grouped query *)

(** The [add] calls of per-element filtering: one call for every element
    that passes the four tests, unit by unit in the order of the
    structure's element set, under the key that [groupBy] gives it. *)
Definition passingCalls (q : AtomGroupsQueryParams) (s : Structure)
    : list (Z * Z * Z) :=
  flat_map (fun '(unitId, set) =>
              map (fun a =>
                     (groupBy q {| unit := units s unitId; atom := a |}, unitId, a))
                  (List.filter (passes q (units s unitId)) set))
           (atoms s).

Lemma stepAll_add q (s : Structure) (unitId : Z) set (js : list nat) :
  forall g,
    foldl (stepAll q (units s unitId) set
             (fun builder a =>
                add builder (groupBy q {| unit := units s unitId; atom := a |})
                  unitId a))
          g js
    = foldl addCall g
        (map (fun a =>
                (groupBy q {| unit := units s unitId; atom := a |}, unitId, a))
             (List.filter (passes q (units s unitId)) (map (getAt set) js))).
Proof.
  induction js as [|j js IH]; intros g; simpl; [done|].
  rewrite IH. unfold stepAll.
  by destruct (passes q (units s unitId) (getAt set j)).
Qed.

(** X20.  A grouped query makes the [add] calls of per-element filtering (when
    the entity, chain and residue tests give one answer on the elements of
    one chain, respectively of one residue): its groups are, key by key in
    first-seen order, the elements that pass the four tests. *)
Theorem grouped_groups_filtered (ofAtoms : list Atom -> AtomSet -> AtomSet)
    (q : AtomGroupsQueryParams) (s : Structure) :
  respects (entityTest q) chainSegments ->
  respects (chainTest q) chainSegments ->
  respects (residueTest q) residueSegments ->
  atomGroupsGrouped ofAtoms q s = getSelection ofAtoms (after s (passingCalls q s)).
Proof.
  intros He Hc Hr. unfold atomGroupsGrouped, after, passingCalls. f_equal.
  generalize (newLinearGroupingBuilder s).
  induction (atoms s) as [|[unitId set] l IH]; intros g; [done|].
  cbn [foldl flat_map]. rewrite foldl_app, IH. f_equal.
  rewrite (segmentedUnit_is_filter q (units s unitId) set _ He Hc Hr).
  by rewrite stepAll_add, getAt_all.
Qed.

End FilterFacts.

(** ** Part IV: properties of the Structure data model *)

Module StructFacts.

Import Struct.

Section Facts.
Context `{Collaborators}.

(** *** Sortedness and the [isSorted] flag *)

Definition byId (a b : Unit.t) : Prop := (Unit.id a <= Unit.id b)%Z.

Definition isSortedStep : bool * Z -> Unit.t -> bool * Z :=
  fun '(isSorted, lastId) u =>
    (if (Unit.id u <? lastId)%Z then false else isSorted, Unit.id u).

Lemma isSorted_fold (us : list Unit.t) : forall flag lastId,
  fst (foldl isSortedStep (flag, lastId) us) = true
  ↔ flag = true ∧ Sorted byId us
    ∧ match us with [] => True | u :: _ => (lastId <= Unit.id u)%Z end.
Proof.
  induction us as [|u us IH]; intros flag lastId; simpl.
  - intuition constructor.
  - rewrite IH. destruct (Z.ltb_spec (Unit.id u) lastId); split.
    + intros (? & _); done.
    + intros (_ & _ & ?); lia.
    + intros (-> & Hs & Hhd). repeat split; [|done].
      constructor; [done|]. destruct us; constructor. exact Hhd.
    + intros (-> & Hs & _). inversion Hs as [|? ? Hs' Hhd]; subst.
      repeat split; [done|]. destruct us; [done|]. by inversion Hhd.
Qed.

Lemma isSorted_Sorted (us : list Unit.t) : isSorted us = true ↔ Sorted byId us.
Proof.
  unfold isSorted. fold isSortedStep.
  rewrite isSorted_fold. destruct us; intuition (done || lia).
Qed.

Lemma sort_isSorted (us : list Unit.t) : isSorted (sort _ cmpUnits us) = true.
Proof. apply isSorted_Sorted, (sort_Sorted _ Unit.id). Qed.

(** *** Well-formed heaps *)

(** The element count the constructor stores. *)
Definition countElements (us : list Unit.t) : Z :=
  foldl (fun n u => (n + Z.of_nat (length (Unit.elements u)))%Z) 0%Z us.

(** The cache of an instance agrees with the array the instance holds. *)
Definition propsAgree (us : list Unit.t) (p : PrivateProps) : Prop :=
  _elementCount p = countElements us
  ∧ (_hashCode p = (-1)%Z ∨ _hashCode p = hashOf us (_elementCount p))
  ∧ (_transformHash p = (-1)%Z ∨ _transformHash p = hashFnv32a (map Unit.id us))
  ∧ (forall ms, _models p = Some ms -> ms = getModels us)
  ∧ (forall m, _model p = Some m ->
       _representativeModel p = None ∧ _masterModel p = None
       ∧ getModels us = [m]).

Definition wfInstance (h : Heap) (o : Instance_) : Prop :=
  (exists us, arrays h !! units o = Some us ∧ isSorted us = true
              ∧ propsAgree us (_props o))
  ∧ (forall q, _parent (_props o) = Some q ->
       exists po, structures h !! q = Some po ∧ _parent (_props po) = None).

Definition wf (h : Heap) : Prop :=
  forall s o, structures h !! s = Some o -> wfInstance h o.

(** The heaps that arise: from the empty heap by allocating arrays and by
    the operations of the class, whatever their outcome. *)
Inductive reachable : Heap -> Prop :=
| reachable_empty : reachable emptyHeap
| reachable_newArray h us : reachable h -> reachable (newArray us h).2
| reachable_new h a props : reachable h -> reachable (new_Structure a props h).2
| reachable_hashCode h s : reachable h -> reachable (hashCode s h).2
| reachable_transformHash h s : reachable h -> reachable (transformHash s h).2
| reachable_models h s : reachable h -> reachable (models s h).2
| reachable_model h s : reachable h -> reachable (model s h).2
| reachable_transform h s m : reachable h -> reachable (transform s m h).2.

Ltac run :=
  unfold bind, ret, throw, readArray, readStructure, writeProps, writeArray,
    newInstance, newArray in *; simpl in *.

Lemma heap_eta (h : Heap) : {| arrays := arrays h; structures := structures h |} = h.
Proof. by destruct h. Qed.

Lemma wf_empty : wf emptyHeap.
Proof. intros s o Hs. simpl in Hs. by rewrite lookup_nil in Hs. Qed.

(** A heap that extends the structures and keeps the arrays that the old
    structures hold is well formed when the new structures are. *)
Lemma wf_extend (h h' : Heap) :
  wf h ->
  (forall s o, structures h !! s = Some o -> structures h' !! s = Some o) ->
  (forall s o, structures h !! s = Some o ->
     arrays h' !! units o = arrays h !! units o) ->
  (forall s o, structures h' !! s = Some o -> structures h !! s = None ->
     wfInstance h' o) ->
  wf h'.
Proof.
  intros Hwf Hkeep Harr Hnew s o Hs.
  destruct (structures h !! s) as [o'|] eqn:Eold; [|by eapply Hnew].
  pose proof (Hkeep _ _ Eold) as Hs'. rewrite Hs in Hs'. simplify_eq.
  destruct (Hwf _ _ Eold) as [(us & Hus & Hsorted & Hagree) Hpar]. split.
  - exists us. by rewrite (Harr _ _ Eold).
  - intros q Hq. destruct (Hpar q Hq) as (po & Hpo & Hnone).
    exists po. split; [by apply Hkeep|done].
Qed.

Lemma wf_newArray h us : wf h -> wf (newArray us h).2.
Proof.
  intros Hwf. apply (wf_extend h); simpl; try done.
  - intros s o Hs. destruct (Hwf _ _ Hs) as [(us' & Hus & _) _].
    rewrite Hus. by apply lookup_app_l_Some.
  - intros s o Hs Hnone. congruence.
Qed.

Lemma countElements_from (us : list Unit.t) : forall n,
  foldl (fun n u => (n + Z.of_nat (length (Unit.elements u)))%Z) n us
  = (n + countElements us)%Z.
Proof.
  unfold countElements. induction us as [|u us IH]; intros n; simpl; [lia|].
  rewrite (IH (n + _)%Z), (IH (0 + _)%Z). lia.
Qed.

Lemma countElements_cons u us :
  countElements (u :: us) = (Z.of_nat (length (Unit.elements u)) + countElements us)%Z.
Proof. unfold countElements at 1. simpl. by rewrite countElements_from. Qed.

Lemma countElements_Permutation us us' :
  us ≡ₚ us' -> countElements us = countElements us'.
Proof.
  induction 1; rewrite ?countElements_cons; try lia; congruence.
Qed.

(** The array of an instance is sorted, so a constructor call on an
    unsorted array writes to an array that no instance holds. *)
Lemma unsorted_unowned h a us s o :
  wf h -> arrays h !! a = Some us -> isSorted us = false ->
  structures h !! s = Some o -> units o ≠ a.
Proof.
  intros Hwf Ha Hns Hs Heq.
  destruct (Hwf _ _ Hs) as [(us' & Hus & Hsorted & _) _].
  rewrite Heq in Hus. congruence.
Qed.

(** The array that [initUnits] leaves behind. *)
Definition sortedArray (us : list Unit.t) : list Unit.t :=
  if isSorted us then us else sort _ cmpUnits us.

Definition afterInit (h : Heap) (a : ARef) (us : list Unit.t) : Heap :=
  if isSorted us then h
  else {| arrays := <[a := sort _ cmpUnits us]> (arrays h);
          structures := structures h |}.

Lemma sortedArray_isSorted us : isSorted (sortedArray us) = true.
Proof.
  unfold sortedArray. destruct (isSorted us) eqn:E; [done|apply sort_isSorted].
Qed.

Lemma sortedArray_Permutation us : sortedArray us ≡ₚ us.
Proof.
  unfold sortedArray. destruct (isSorted us); [done|apply sort_Permutation].
Qed.

Lemma afterInit_array h a us :
  arrays h !! a = Some us -> arrays (afterInit h a us) !! a = Some (sortedArray us).
Proof.
  intros Ha. unfold afterInit, sortedArray. destruct (isSorted us); [done|].
  simpl. apply list_lookup_insert_eq. by eapply lookup_lt_Some.
Qed.

Lemma afterInit_other h a us a' :
  a' ≠ a -> arrays (afterInit h a us) !! a' = arrays h !! a'.
Proof.
  intros Hne. unfold afterInit. destruct (isSorted us); [done|].
  simpl. by apply list_lookup_insert_ne.
Qed.

Lemma afterInit_structures h a us : structures (afterInit h a us) = structures h.
Proof. unfold afterInit. by destruct (isSorted us). Qed.

Lemma initUnits_returns h a us :
  arrays h !! a = Some us ->
  exists unitMap unitIndexMap,
    initUnits a h = (Return (unitMap, unitIndexMap, countElements us), afterInit h a us).
Proof.
  intros Ha. unfold initUnits, afterInit. run. rewrite Ha.
  destruct (isSorted us) eqn:E; simpl.
  - rewrite Ha. eauto.
  - rewrite list_lookup_insert_eq by (by eapply lookup_lt_Some). eauto.
Qed.

Lemma initUnits_dangling h a :
  arrays h !! a = None -> exists msg, initUnits a h = (Throw msg, h).
Proof. intros Ha. unfold initUnits. run. rewrite Ha. eauto. Qed.

Lemma wf_afterInit h a us :
  wf h -> arrays h !! a = Some us -> wf (afterInit h a us).
Proof.
  intros Hwf Ha. destruct (isSorted us) eqn:E.
  - unfold afterInit. by rewrite E.
  - apply (wf_extend h); try done.
    + intros s o. by rewrite afterInit_structures.
    + intros s o Hs. apply afterInit_other. by eapply unsorted_unowned.
    + intros s o. rewrite afterInit_structures. congruence.
Qed.

(** *** The constructor *)

(** What an instance inherits from the parent named in the properties. *)
Definition fromParent {A} (h : Heap) (props : Props)
    (f : PrivateProps -> option A) : option A :=
  parent props ≫= fun p => structures h !! p ≫= fun po => f (_props po).

Definition orInherited {A} (own inherited : option A) : option A :=
  match own with Some v => Some v | None => inherited end.

Lemma new_Structure_returns h a us props :
  arrays h !! a = Some us ->
  (forall p, parent props = Some p -> is_Some (structures h !! p)) ->
  exists o,
    new_Structure a props h
    = (Return (length (structures h)),
       {| arrays := arrays (afterInit h a us); structures := structures h ++ [o] |})
    ∧ units o = a
    ∧ _parent (_props o)
      = fromParent h props (fun p => Some (_parent p))
        ≫= (fun q => Some (default (default 0 (parent props)) q))
    ∧ _models (_props o) = None ∧ _model (_props o) = None
    ∧ _hashCode (_props o) = (-1)%Z ∧ _transformHash (_props o) = (-1)%Z
    ∧ _elementCount (_props o) = countElements us
    ∧ _representativeModel (_props o)
      = orInherited (representativeModel props)
          (fromParent h props _representativeModel)
    ∧ _masterModel (_props o)
      = orInherited (masterModel props) (fromParent h props _masterModel).
Proof.
  intros Ha Hp. destruct (initUnits_returns h a us Ha) as (um & uim & Hinit).
  unfold new_Structure, fromParent, orInherited. unfold bind at 1. rewrite Hinit.
  destruct (parent props) as [p|] eqn:Ep; simpl.
  - destruct (Hp p eq_refl) as [po Hpo]. run.
    rewrite afterInit_structures, Hpo. simpl. rewrite !afterInit_structures.
    eexists. split; [reflexivity|]. simpl.
    repeat split; by destruct (representativeModel props), (masterModel props).
  - run. rewrite !afterInit_structures. eexists. split; [reflexivity|]. simpl.
    repeat split; by destruct (representativeModel props), (masterModel props).
Qed.

Lemma new_Structure_throws h a props :
  (exists msg, new_Structure a props h = (Throw msg, h))
  ∨ (exists us msg, arrays h !! a = Some us
       ∧ new_Structure a props h = (Throw msg, afterInit h a us))
  ∨ (exists us, arrays h !! a = Some us
       ∧ forall p, parent props = Some p -> is_Some (structures h !! p)).
Proof.
  destruct (arrays h !! a) as [us|] eqn:Ha.
  - destruct (parent props) as [p|] eqn:Ep.
    + destruct (structures h !! p) as [po|] eqn:Epo.
      * right; right. exists us. split; [done|]. intros ? [= <-]. by eexists.
      * right; left. exists us.
        destruct (initUnits_returns h a us Ha) as (um & uim & Hinit).
        unfold new_Structure. unfold bind at 1. rewrite Hinit, Ep. run.
        rewrite afterInit_structures, Epo. eauto.
    + right; right. exists us. split; [done|]. intros ?. done.
  - left. destruct (initUnits_dangling h a Ha) as [msg Hinit].
    unfold new_Structure. unfold bind at 1. rewrite Hinit. eauto.
Qed.

Lemma wf_new h a props : wf h -> wf (new_Structure a props h).2.
Proof.
  intros Hwf.
  destruct (new_Structure_throws h a props)
    as [[msg ->]|[(us & msg & Ha & ->)|(us & Ha & Hp)]]; simpl; [done| |].
  { by apply wf_afterInit. }
  destruct (new_Structure_returns h a us props Ha Hp)
    as (o & -> & Hu & Hpar & Hms & Hm & Hh & Ht & Hc & _). simpl.
  pose proof (wf_afterInit h a us Hwf Ha) as Hwf'.
  apply (wf_extend (afterInit h a us)); simpl; try done.
  - intros s o' Hs. rewrite afterInit_structures in Hs. by apply lookup_app_l_Some.
  - intros s o' Hs Hnone. rewrite afterInit_structures in Hnone.
    apply lookup_ge_None in Hnone.
    rewrite lookup_app_r in Hs by done.
    destruct (s - length (structures h)) as [|n]; simpl in Hs;
      [|by rewrite lookup_nil in Hs].
    assert (o' = o) as -> by congruence. split.
    + exists (sortedArray us). rewrite Hu. split; [by apply afterInit_array|].
      split; [apply sortedArray_isSorted|].
      unfold propsAgree. rewrite Hc, Hh, Ht, Hms, Hm.
      repeat split; try done; try by left.
      symmetry. apply countElements_Permutation, sortedArray_Permutation.
    + intros q. rewrite Hpar. unfold fromParent.
      destruct (parent props) as [p|] eqn:Ep; simpl; [|done].
      destruct (structures h !! p) as [po|] eqn:Epo; simpl; [|done].
      intros [= <-].
      destruct (Hwf _ _ Epo) as [_ Hpp].
      destruct (_parent (_props po)) as [g|] eqn:Eg; simpl.
      * destruct (Hpp g eq_refl) as (go & Hgo & Hgnone).
        exists go. split; [by apply lookup_app_l_Some|done].
      * exists po. split; [by apply lookup_app_l_Some|done].
Qed.

(** *** Writes to the cache *)

Definition withProps (o : Instance_) (p : PrivateProps) : Instance_ :=
  {| unitMap := unitMap o; unitIndexMap := unitIndexMap o; units := units o;
     _props := p |}.

Definition cached (h : Heap) (s : SRef) (f : PrivateProps -> PrivateProps) : Heap :=
  (writeProps s f h).2.

Lemma cached_arrays h s f : arrays (cached h s f) = arrays h.
Proof. reflexivity. Qed.

Lemma cached_lookup h s f o :
  structures h !! s = Some o ->
  structures (cached h s f) !! s = Some (withProps o (f (_props o))).
Proof.
  intros Hs. unfold cached, writeProps. cbn [snd structures].
  by rewrite list_lookup_alter_eq, Hs.
Qed.

Lemma cached_lookup_ne h s f s' :
  s' ≠ s -> structures (cached h s f) !! s' = structures h !! s'.
Proof.
  intros Hne. unfold cached, writeProps. cbn [snd structures].
  by apply list_lookup_alter_ne.
Qed.

Lemma wf_cached h s o us f :
  wf h -> structures h !! s = Some o -> arrays h !! units o = Some us ->
  propsAgree us (f (_props o)) -> _parent (f (_props o)) = _parent (_props o) ->
  wf (cached h s f).
Proof.
  intros Hwf Hs Hus Hagree Hpar.
  assert (Hkeep : forall q po, structures h !! q = Some po ->
            exists po', structures (cached h s f) !! q = Some po'
                        ∧ _parent (_props po') = _parent (_props po)).
  { intros q po Hq. destruct (decide (q = s)) as [->|Hne].
    - assert (po = o) as -> by congruence.
      eexists. split; [by apply cached_lookup|]. simpl. exact Hpar.
    - exists po. split; [|done]. by rewrite cached_lookup_ne. }
  intros s' o' Hs'. destruct (decide (s' = s)) as [->|Hne].
  - rewrite (cached_lookup h s f o Hs) in Hs'.
    assert (o' = withProps o (f (_props o))) as -> by congruence.
    destruct (Hwf _ _ Hs) as [_ Hp]. split.
    + exists us. simpl. rewrite ?cached_arrays. split; [done|].
      destruct (Hwf _ _ Hs) as [(us' & Hus' & Hsorted & _) _].
      split; [congruence|done].
    + simpl. rewrite Hpar. intros q Hq.
      destruct (Hp q Hq) as (po & Hpo & Hnone).
      destruct (Hkeep q po Hpo) as (po' & Hpo' & Heq).
      exists po'. split; [done|congruence].
  - rewrite cached_lookup_ne in Hs' by done.
    destruct (Hwf _ _ Hs') as [Harr Hp]. split; [done|].
    intros q Hq. destruct (Hp q Hq) as (po & Hpo & Hnone).
    destruct (Hkeep q po Hpo) as (po' & Hpo' & Heq).
    exists po'. split; [done|congruence].
Qed.

(** *** [hashCode] *)

Lemma hashOf_set us n : hashOf us n ≠ (-1)%Z.
Proof. unfold hashOf. case_decide; [done|]. done. Qed.

Lemma hashCode_spec h s o us :
  wf h -> structures h !! s = Some o -> arrays h !! units o = Some us ->
  hashCode s h
  = (Return (hashOf us (countElements us)),
     if decide (_hashCode (_props o) = (-1)%Z)
     then cached h s (set_hashCode (hashOf us (countElements us)))
     else h).
Proof.
  intros Hwf Hs Hus.
  destruct (Hwf _ _ Hs) as [(us' & Hus' & _ & Hc & Hh & _) _].
  assert (us' = us) as -> by congruence.
  unfold hashCode, computeHash, cached. run. rewrite Hs. simpl.
  destruct (decide (_hashCode (_props o) = (-1)%Z)) as [Heq|Hne].
  - rewrite decide_False by (by intros ?). simpl. rewrite Hs. simpl.
    rewrite Hus. simpl. by rewrite Hc.
  - rewrite decide_True by done. simpl. destruct Hh as [?|Hh]; [done|].
    by rewrite Hh, Hc.
Qed.

Lemma wf_hashCode h s : wf h -> wf (hashCode s h).2.
Proof.
  intros Hwf. destruct (structures h !! s) as [o|] eqn:Hs.
  - destruct (Hwf _ _ Hs) as [(us & Hus & Hsorted & Hagree) _].
    rewrite (hashCode_spec h s o us) by done. simpl.
    case_decide; [|done].
    apply (wf_cached h s o us); try done.
    destruct Hagree as (Hc & Hh & Hrest). unfold propsAgree; simpl.
    split; [done|]. split; [right; by rewrite Hc|done].
  - unfold hashCode. run. by rewrite Hs.
Qed.

(** *** [transformHash] *)

Lemma transformHash_spec h s o us :
  wf h -> structures h !! s = Some o -> arrays h !! units o = Some us ->
  transformHash s h
  = (Return (hashFnv32a (map Unit.id us)),
     if decide (_transformHash (_props o) = (-1)%Z)
     then cached h s (set_transformHash (hashFnv32a (map Unit.id us)))
     else h).
Proof.
  intros Hwf Hs Hus.
  destruct (Hwf _ _ Hs) as [(us' & Hus' & _ & _ & _ & Ht & _) _].
  assert (us' = us) as -> by congruence.
  unfold transformHash, cached. run. rewrite Hs. simpl.
  destruct (decide (_transformHash (_props o) = (-1)%Z)) as [Heq|Hne].
  - rewrite decide_False by (by intros ?). simpl. by rewrite Hus.
  - rewrite decide_True by done. simpl. destruct Ht as [?|Ht]; [done|].
    by rewrite Ht.
Qed.

Lemma wf_transformHash h s : wf h -> wf (transformHash s h).2.
Proof.
  intros Hwf. destruct (structures h !! s) as [o|] eqn:Hs.
  - destruct (Hwf _ _ Hs) as [(us & Hus & Hsorted & Hagree) _].
    rewrite (transformHash_spec h s o us) by done. simpl.
    case_decide; [|done].
    apply (wf_cached h s o us); try done.
    destruct Hagree as (Hc & Hh & Ht & Hrest). unfold propsAgree; simpl.
    split; [done|]. split; [done|]. split; [by right|done].
  - unfold transformHash. run. by rewrite Hs.
Qed.

(** *** [models] and [model] *)

Lemma models_spec h s o us :
  wf h -> structures h !! s = Some o -> arrays h !! units o = Some us ->
  models s h
  = (Return (getModels us),
     match _models (_props o) with
     | Some _ => h
     | None => cached h s (set_models (getModels us))
     end).
Proof.
  intros Hwf Hs Hus.
  destruct (Hwf _ _ Hs) as [(us' & Hus' & _ & _ & _ & _ & Hms & _) _].
  assert (us' = us) as -> by congruence.
  unfold models, cached. run. rewrite Hs. simpl.
  destruct (_models (_props o)) as [ms|] eqn:E; simpl.
  - by rewrite (Hms ms eq_refl).
  - by rewrite Hus.
Qed.

Lemma wf_models h s : wf h -> wf (models s h).2.
Proof.
  intros Hwf. destruct (structures h !! s) as [o|] eqn:Hs.
  - destruct (Hwf _ _ Hs) as [(us & Hus & Hsorted & Hagree) _].
    rewrite (models_spec h s o us) by done. simpl.
    destruct (_models (_props o)) eqn:E; [done|].
    apply (wf_cached h s o us); try done.
    destruct Hagree as (Hc & Hh & Ht & Hms & Hm). unfold propsAgree; simpl.
    split; [done|]. split; [done|]. split; [done|].
    split; [by intros ms [= <-]|exact Hm].
  - unfold models. run. by rewrite Hs.
Qed.

(** The heap after [models] has run on [s]: the same arrays, and the same
    instance but for its cache of models. *)
Lemma models_instance h s o us :
  wf h -> structures h !! s = Some o -> arrays h !! units o = Some us ->
  exists o1,
    structures (models s h).2 !! s = Some o1
    ∧ arrays (models s h).2 = arrays h
    ∧ units o1 = units o
    ∧ _parent (_props o1) = _parent (_props o)
    ∧ _model (_props o1) = _model (_props o)
    ∧ _representativeModel (_props o1) = _representativeModel (_props o)
    ∧ _masterModel (_props o1) = _masterModel (_props o).
Proof.
  intros Hwf Hs Hus. rewrite (models_spec h s o us) by done. simpl.
  destruct (_models (_props o)); [by exists o|].
  eexists. split; [by apply cached_lookup|]. by repeat split.
Qed.

Definition ambiguous : string :=
  "The structure is based on multiple models and has neither a master- nor a representative-model.".

(** [model] after its first read of the instance. *)
Definition resolveModels (s : SRef) : M (option Model.t) :=
  bind (models s) (fun ms =>
    if 1 <? length ms then throw ambiguous
    else bind (writeProps s (set_model (head ms))) (fun _ => ret (head ms))).

Lemma model_unfold h s o :
  structures h !! s = Some o ->
  model s h
  = match _model (_props o), _representativeModel (_props o),
          _masterModel (_props o) with
    | Some m, _, _ => (Return (Some m), h)
    | None, Some m, _ => (Return (Some m), h)
    | None, None, Some m => (Return (Some m), h)
    | None, None, None => resolveModels s h
    end.
Proof.
  intros Hs. unfold model. unfold bind at 1. unfold readStructure at 1.
  rewrite Hs.
  by destruct (_model (_props o)), (_representativeModel (_props o)),
    (_masterModel (_props o)).
Qed.

Lemma resolveModels_spec h s o us :
  wf h -> structures h !! s = Some o -> arrays h !! units o = Some us ->
  (resolveModels s h).1
  = if 1 <? length (getModels us) then Throw ambiguous
    else Return (head (getModels us)).
Proof.
  intros Hwf Hs Hus. unfold resolveModels. unfold bind at 1.
  rewrite (models_spec h s o us) by done.
  by destruct (1 <? length (getModels us)).
Qed.

Lemma model_spec h s o us :
  wf h -> structures h !! s = Some o -> arrays h !! units o = Some us ->
  match _representativeModel (_props o), _masterModel (_props o) with
  | Some m, _ => model s h = (Return (Some m), h)
  | None, Some m => model s h = (Return (Some m), h)
  | None, None =>
      (model s h).1
      = if 1 <? length (getModels us) then Throw ambiguous
        else Return (head (getModels us))
  end.
Proof.
  intros Hwf Hs Hus. rewrite (model_unfold h s o Hs).
  destruct (Hwf _ _ Hs) as [(us' & Hus' & _ & _ & _ & _ & _ & Hm) _].
  assert (us' = us) as -> by congruence.
  destruct (_model (_props o)) as [m|] eqn:Em.
  - destruct (Hm m eq_refl) as (-> & -> & Hone). by rewrite Hone.
  - destruct (_representativeModel (_props o)) as [r|]; [done|].
    destruct (_masterModel (_props o)) as [r|]; [done|].
    by apply (resolveModels_spec h s o us).
Qed.

Lemma wf_model h s : wf h -> wf (model s h).2.
Proof.
  intros Hwf. destruct (structures h !! s) as [o|] eqn:Hs.
  - rewrite (model_unfold h s o Hs).
    destruct (Hwf _ _ Hs) as [(us & Hus & Hsorted & Hagree) _].
    pose proof (wf_models h s Hwf) as Hwf1.
    destruct (models_instance h s o us Hwf Hs Hus)
      as (o1 & Hs1 & Harr & Hu & _ & Hm1 & Hr1 & Hma1).
    destruct (_model (_props o)) as [m|] eqn:Em; [done|].
    destruct (_representativeModel (_props o)) as [r|] eqn:Er; [done|].
    destruct (_masterModel (_props o)) as [r|] eqn:Ema; [done|].
    unfold resolveModels. unfold bind at 1.
    destruct (models s h) as [[ms|msg] h1] eqn:Emodels; simpl in *; [|done].
    assert (ms = getModels us) as ->.
    { rewrite (models_spec h s o us) in Emodels by done. congruence. }
    destruct (Nat.ltb_spec 1 (length (getModels us))) as [|Hle]; [done|].
    change (wf (cached h1 s (set_model (head (getModels us))))).
    apply (wf_cached h1 s o1 us); try done; [congruence|].
    destruct (Hwf1 _ _ Hs1) as [(us1 & Hus1 & _ & Hagree1) _].
    assert (us1 = us) as -> by congruence.
    destruct Hagree1 as (Hc & Hh & Ht & Hms & Hm). unfold propsAgree; simpl.
    split; [done|]. split; [done|]. split; [done|]. split; [done|].
    intros m Hhead. split; [congruence|]. split; [congruence|].
    destruct (getModels us) as [|m0 [|m1 ms]]; simpl in *; [done| |lia].
    congruence.
  - unfold model. run. by rewrite Hs.
Qed.

(** *** [transform] *)

Lemma bind_readStructure {A} h s o (k : Instance_ -> M A) :
  structures h !! s = Some o -> bind (readStructure s) k h = k o h.
Proof. intros Hs. unfold bind, readStructure. by rewrite Hs. Qed.

Lemma bind_readArray {A} h a us (k : list Unit.t -> M A) :
  arrays h !! a = Some us -> bind (readArray a) k h = k us h.
Proof. intros Ha. unfold bind, readArray. by rewrite Ha. Qed.

Lemma bind_newArray {A} h us (k : ARef -> M A) :
  bind (newArray us) k h = k (length (arrays h)) (newArray us h).2.
Proof. reflexivity. Qed.

Lemma bind_getCoordinateSystem {A} h s o (k : SymmetryOperator.t -> M A) :
  structures h !! s = Some o ->
  bind (getCoordinateSystem s) k h = k (_coordinateSystem (_props o)) h.
Proof.
  intros Hs. unfold getCoordinateSystem, bind, readStructure, ret.
  by rewrite Hs.
Qed.

(** The units that [transform] pushes: each unit of [s] under its own id,
    with the operator built from the matrix. *)
Definition moved (m : Mat4) (us : list Unit.t) : list Unit.t :=
  map (fun u =>
         let old := Unit.operator u in
         Unit.applyOperator u (Unit.id u)
           (SymmetryOperator.create (SymmetryOperator.name old) m
              (SymmetryOperator.assembly old) (SymmetryOperator.ncsId old)
              (SymmetryOperator.hkl old)))
      us.

(** The properties [transform] constructs the result with. *)
Definition movedProps (s : SRef) (m : Mat4) (cs : SymmetryOperator.t) : Props :=
  {| parent := Some s;
     coordinateSystem :=
       Some (SymmetryOperator_compose
               (SymmetryOperator.create (SymmetryOperator.name cs) m
                  (SymmetryOperator.assembly cs) (SymmetryOperator.ncsId cs)
                  (SymmetryOperator.hkl cs))
               cs);
     label := None; masterModel := None; representativeModel := None |}.

Lemma transform_unfold h s o us m :
  structures h !! s = Some o -> arrays h !! units o = Some us ->
  Mat4_isIdentity m = false -> Mat4_isRotationAndTranslation m = true ->
  transform s m h
  = new_Structure (length (arrays h))
      (movedProps s m (_coordinateSystem (_props o)))
      (newArray (moved m us) h).2.
Proof.
  intros Hs Hus Hid Hrot. unfold transform. rewrite Hid, Hrot. cbn [negb].
  rewrite (bind_readStructure h s o) by done.
  rewrite (bind_readArray h (units o) us) by done.
  rewrite bind_newArray.
  by rewrite (bind_getCoordinateSystem _ s o) by done.
Qed.

Lemma moved_ids m us : map Unit.id (moved m us) = map Unit.id us.
Proof. unfold moved. rewrite map_map. by apply map_ext. Qed.

Lemma moved_elements m us : map Unit.elements (moved m us) = map Unit.elements us.
Proof. unfold moved. rewrite map_map. by apply map_ext. Qed.

Lemma Sorted_byId_ids (us us' : list Unit.t) :
  map Unit.id us = map Unit.id us' -> Sorted byId us -> Sorted byId us'.
Proof.
  intros Hids Hs. revert us' Hids.
  induction Hs as [|u us Hs IH Hhd]; intros [|u' us'] Hids;
    try done; try (by constructor).
  injection Hids as Hid Hids. constructor; [by apply IH|].
  destruct Hhd as [|v vs Huv]; destruct us' as [|v' vs']; try done;
    constructor.
  injection Hids as Hv _. unfold byId in *. congruence.
Qed.

Lemma moved_isSorted m us : isSorted us = true -> isSorted (moved m us) = true.
Proof.
  rewrite !isSorted_Sorted. apply Sorted_byId_ids. by rewrite moved_ids.
Qed.

Lemma transform_returns h s o us m :
  wf h -> structures h !! s = Some o -> arrays h !! units o = Some us ->
  Mat4_isIdentity m = false -> Mat4_isRotationAndTranslation m = true ->
  exists o',
    transform s m h
    = (Return (length (structures h)),
       {| arrays := arrays h ++ [moved m us]; structures := structures h ++ [o'] |})
    ∧ units o' = length (arrays h)
    ∧ _parent (_props o') = Some (default s (_parent (_props o)))
    ∧ _hashCode (_props o') = (-1)%Z ∧ _transformHash (_props o') = (-1)%Z.
Proof.
  intros Hwf Hs Hus Hid Hrot.
  destruct (Hwf _ _ Hs) as [(us' & Hus' & Hsorted & _) _].
  assert (us' = us) as -> by congruence.
  rewrite (transform_unfold h s o us) by done.
  set (h1 := (newArray (moved m us) h).2).
  assert (Ha : arrays h1 !! length (arrays h) = Some (moved m us)).
  { subst h1. simpl. rewrite lookup_app_r by done. by rewrite Nat.sub_diag. }
  destruct (new_Structure_returns h1 (length (arrays h)) (moved m us)
              (movedProps s m (_coordinateSystem (_props o))) Ha)
    as (o' & Hnew & Hu & Hp & _ & _ & Hh & Ht & _).
  { intros p [= <-]. subst h1. simpl. by eexists. }
  exists o'. rewrite Hnew. unfold afterInit.
  rewrite (moved_isSorted m us Hsorted). subst h1. simpl.
  split; [done|]. split; [done|]. split; [|done].
  rewrite Hp. unfold fromParent. simpl. by rewrite Hs.
Qed.

Lemma wf_transform h s m : wf h -> wf (transform s m h).2.
Proof.
  intros Hwf.
  destruct (Mat4_isIdentity m) eqn:Hid;
    [unfold transform; by rewrite Hid|].
  destruct (Mat4_isRotationAndTranslation m) eqn:Hrot;
    [|unfold transform; by rewrite Hid, Hrot].
  destruct (structures h !! s) as [o|] eqn:Hs.
  - destruct (Hwf _ _ Hs) as [(us & Hus & _) _].
    rewrite (transform_unfold h s o us) by done.
    by apply wf_new, wf_newArray.
  - unfold transform. rewrite Hid, Hrot. run. by rewrite Hs.
Qed.

Create HintDb heap discriminated.

#[local] Hint Resolve wf_empty wf_newArray wf_new wf_hashCode wf_transformHash
  wf_models wf_model wf_transform : heap.

Lemma reachable_wf h : reachable h -> wf h.
Proof. induction 1; eauto with heap. Qed.

Lemma reachable_instance h s :
  reachable h -> s < length (structures h) ->
  exists o us, structures h !! s = Some o ∧ arrays h !! units o = Some us
               ∧ isSorted us = true.
Proof.
  intros Hr Hlt. destruct (lookup_lt_is_Some_2 _ _ Hlt) as [o Hs].
  destruct (reachable_wf h Hr _ _ Hs) as [(us & Hus & Hsorted & _) _].
  by exists o, us.
Qed.

(** *** The hash code *)

(** The ordered (unit id, index-set content) pairs of a unit sequence. *)
Definition pairsOf (us : list Unit.t) : list (Z * list Z) :=
  map (fun u => (Unit.id u, Unit.elements u)) us.

(** The hash as a function of the pairs alone: the total element count is
    the sum of the sizes of the index sets. *)
Definition structureHash (pairs : list (Z * list Z)) : Z :=
  let hash :=
    foldl (fun hash p =>
             toInt32 (31 * toInt32 (31 * hash + p.1) + SortedArray_hashCode p.2))
          23%Z pairs in
  let total := foldl (fun n p => (n + Z.of_nat (length p.2))%Z) 0%Z pairs in
  let hash := hash1 (toInt32 (31 * hash + total)) in
  if decide (hash = -1)%Z then 0%Z else hash.

Lemma hashOf_structureHash us :
  hashOf us (countElements us) = structureHash (pairsOf us).
Proof.
  unfold hashOf, structureHash, countElements, pairsOf.
  by rewrite !foldl_fmap.
Qed.

(** C1.  For an instance of any reachable heap, that is whatever has been
    cached so far, [hashCode] returns [structureHash] of the ordered
    (unit id, index-set content) pairs of its units; a second call returns
    the same value; no array changes.  Hence two instances, in the same or
    in different heaps, whose units have the same ids in the same order and
    the same index-set contents have equal hash codes. *)
Theorem hashCode_pure h s h' s' :
  reachable h -> s < length (structures h) ->
  reachable h' -> s' < length (structures h') ->
  exists o us o' us',
    structures h !! s = Some o ∧ arrays h !! units o = Some us
    ∧ structures h' !! s' = Some o' ∧ arrays h' !! units o' = Some us'
    ∧ (exists h1,
         hashCode s h = (Return (structureHash (pairsOf us)), h1)
         ∧ hashCode s h1 = (Return (structureHash (pairsOf us)), h1)
         ∧ arrays h1 = arrays h)
    ∧ (pairsOf us = pairsOf us' -> (hashCode s h).1 = (hashCode s' h').1).
Proof.
  intros Hr Hlt Hr' Hlt'.
  destruct (reachable_instance h s Hr Hlt) as (o & us & Hs & Hus & _).
  destruct (reachable_instance h' s' Hr' Hlt') as (o' & us' & Hs' & Hus' & _).
  exists o, us, o', us'. do 4 (split; [done|]).
  pose proof (reachable_wf h Hr) as Hwf.
  pose proof (reachable_wf h' Hr') as Hwf'.
  pose proof (hashCode_spec h s o us Hwf Hs Hus) as Hcall.
  rewrite hashOf_structureHash in Hcall.
  split.
  - eexists. split; [exact Hcall|].
    pose proof (reachable_wf _ (reachable_hashCode h s Hr)) as Hwf1.
    rewrite Hcall in Hwf1. simpl in Hwf1.
    destruct (decide (_hashCode (_props o) = (-1)%Z)) as [Hunset|Hset].
    + split; [|done].
      pose proof (cached_lookup h s (set_hashCode (structureHash (pairsOf us))) o Hs)
        as Hs1.
      rewrite (hashCode_spec _ s _ us Hwf1 Hs1) by done.
      rewrite hashOf_structureHash. simpl.
      rewrite decide_False; [done|].
      rewrite <- hashOf_structureHash. apply hashOf_set.
    + split; [exact Hcall|done].
  - intros Hpairs. rewrite Hcall.
    rewrite (hashCode_spec h' s' o' us' Hwf' Hs' Hus'), hashOf_structureHash.
    simpl. by rewrite Hpairs.
Qed.

(** *** Element count and equality of units and indices *)

Lemma countElements_concat us :
  countElements us = Z.of_nat (length (concat (map Unit.elements us))).
Proof.
  induction us as [|u us IH]; [done|].
  rewrite countElements_cons, IH. simpl. rewrite length_app. lia.
Qed.

Lemma countElements_pairs us us' :
  pairsOf us = pairsOf us' -> countElements us = countElements us'.
Proof.
  intros Hp. rewrite !countElements_concat. do 3 f_equal.
  apply (f_equal (map snd)) in Hp. unfold pairsOf in Hp.
  rewrite !map_map in Hp. exact Hp.
Qed.

(** X2.  The element count of an instance is the sum of the sizes of the
    index sets of its units. *)
Theorem elementCount_is_sum h s :
  reachable h -> s < length (structures h) ->
  exists o us,
    structures h !! s = Some o ∧ arrays h !! units o = Some us
    ∧ elementCount s h
      = (Return (Z.of_nat (length (concat (map Unit.elements us)))), h).
Proof.
  intros Hr Hlt.
  destruct (reachable_instance h s Hr Hlt) as (o & us & Hs & Hus & _).
  exists o, us. do 2 (split; [done|]).
  destruct (reachable_wf h Hr _ _ Hs) as [(us' & Hus' & _ & Hc & _) _].
  assert (us' = us) as -> by congruence.
  unfold elementCount, bind, readStructure, ret. rewrite Hs.
  by rewrite Hc, countElements_concat.
Qed.

Lemma pairs_decide (ua ub : list Unit.t) :
  length ua = length ub ->
  pairsOf ua = pairsOf ub ↔ sameIds ua ub = true ∧ sameIndices ua ub = true.
Proof.
  revert ub. induction ua as [|x ua IH]; intros [|y ub] Hlen; try done.
  injection Hlen as Hlen. specialize (IH ub Hlen).
  unfold sameIds, sameIndices, SortedArray_areEqual in *. simpl.
  rewrite !andb_true_iff, !bool_decide_eq_true. split.
  - intros [= Hid Hel Hrest]. apply IH in Hrest. tauto.
  - intros [[Hid Hids] [Hel Hels]]. f_equal; [congruence|]. apply IH. tauto.
Qed.

(** X3.  [areUnitAndIndicesEqual] decides whether two structures have the
    same unit ids in the same order with the same index-set contents; it is
    reflexive, and structures it holds of have equal hash codes. *)
Theorem areUnitAndIndicesEqual_decides h a b :
  reachable h -> a < length (structures h) -> b < length (structures h) ->
  exists oa ua ob ub,
    structures h !! a = Some oa ∧ arrays h !! units oa = Some ua
    ∧ structures h !! b = Some ob ∧ arrays h !! units ob = Some ub
    ∧ areUnitAndIndicesEqual a b h
      = (Return (bool_decide (pairsOf ua = pairsOf ub)), h)
    ∧ areUnitAndIndicesEqual a a h = (Return true, h)
    ∧ ((areUnitAndIndicesEqual a b h).1 = Return true ->
       (hashCode a h).1 = (hashCode b h).1).
Proof.
  intros Hr Ha Hb.
  destruct (reachable_instance h a Hr Ha) as (oa & ua & Hoa & Hua & _).
  destruct (reachable_instance h b Hr Hb) as (ob & ub & Hob & Hub & _).
  exists oa, ua, ob, ub. do 4 (split; [done|]).
  pose proof (reachable_wf h Hr) as Hwf.
  assert (Hcount : forall s o us,
            structures h !! s = Some o -> arrays h !! units o = Some us ->
            elementCount s h = (Return (countElements us), h)).
  { intros s o us Hs Hus.
    destruct (Hwf _ _ Hs) as [(us' & Hus' & _ & Hc & _) _].
    assert (us' = us) as -> by congruence.
    unfold elementCount, bind, readStructure, ret. by rewrite Hs, Hc. }
  assert (Hdec : forall x ox ux y oy uy,
            structures h !! x = Some ox -> arrays h !! units ox = Some ux ->
            structures h !! y = Some oy -> arrays h !! units oy = Some uy ->
            areUnitAndIndicesEqual x y h
            = (Return (bool_decide (pairsOf ux = pairsOf uy)), h)).
  { intros x ox ux y oy uy Hx Hux Hy Huy. unfold areUnitAndIndicesEqual.
    unfold bind at 1. rewrite (Hcount x ox ux) by done.
    unfold bind at 1. rewrite (Hcount y oy uy) by done.
    destruct (decide (countElements ux ≠ countElements uy)) as [Hne|Heq].
    { rewrite bool_decide_eq_false_2; [done|].
      intros Hp. by apply countElements_pairs in Hp. }
    rewrite (bind_readStructure h x ox) by done.
    rewrite (bind_readArray h _ ux) by done.
    rewrite (bind_readStructure h y oy) by done.
    rewrite (bind_readArray h _ uy) by done.
    destruct (decide (length ux ≠ length uy)) as [Hne|Hlen].
    { rewrite bool_decide_eq_false_2; [done|].
      intros Hp. apply (f_equal length) in Hp. unfold pairsOf in Hp.
      by rewrite !length_map in Hp. }
    apply dec_stable in Hlen. pose proof (pairs_decide ux uy Hlen) as Hiff.
    destruct (sameIds ux uy), (sameIndices ux uy); simpl;
      unfold ret; f_equal; f_equal; symmetry;
      try (apply bool_decide_eq_false_2; intros Hp; apply Hiff in Hp;
           by destruct Hp);
      apply bool_decide_eq_true_2; by apply Hiff. }
  split; [by apply (Hdec a oa ua b ob ub)|].
  split; [by rewrite (Hdec a oa ua a oa ua), bool_decide_eq_true_2|].
  rewrite (Hdec a oa ua b ob ub) by done. simpl.
  intros [= Hp%bool_decide_eq_true].
  rewrite (hashCode_spec h a oa ua), (hashCode_spec h b ob ub) by done.
  simpl. by rewrite !hashOf_structureHash, Hp.
Qed.

(** *** [transform]: identity and rejected matrices *)

(** C9.  For a matrix that [Mat4.isIdentity] recognizes, [transform] returns
    the reference it was given and leaves the heap as it is: no instance
    and no array is allocated. *)
Theorem transform_identity h s m :
  Mat4_isIdentity m = true -> transform s m h = (Return s, h).
Proof. intros Hid. unfold transform. by rewrite Hid. Qed.


(** *** The constructor and the units array *)

(** C10.  The constructor keeps the reference to the caller's array:
    [units] of the new instance is the argument itself.  When the array is
    not sorted by ascending unit id ([isSorted] is false exactly then), the
    array behind that reference is overwritten by its sorted rearrangement;
    otherwise it is left as it is.  No other array changes. *)
Theorem constructor_owns_array h a us props :
  arrays h !! a = Some us ->
  (forall p, parent props = Some p -> is_Some (structures h !! p)) ->
  exists s h1 o,
    new_Structure a props h = (Return s, h1)
    ∧ structures h1 !! s = Some o
    ∧ units o = a
    ∧ (isSorted us = true ↔ Sorted byId us)
    ∧ arrays h1 !! a = Some (if isSorted us then us else sort _ cmpUnits us)
    ∧ (isSorted us = false ->
         Sorted byId (sort _ cmpUnits us) ∧ sort _ cmpUnits us ≡ₚ us)
    ∧ (forall a', a' ≠ a -> arrays h1 !! a' = arrays h !! a').
Proof.
  intros Ha Hp.
  destruct (new_Structure_returns h a us props Ha Hp) as (o & Hnew & Hu & _).
  eexists _, _, o. split; [exact Hnew|]. simpl.
  split; [by rewrite lookup_app_r, Nat.sub_diag|]. split; [done|].
  split; [apply isSorted_Sorted|].
  split; [by apply afterInit_array|].
  split.
  - intros _. split; [apply (sort_Sorted _ Unit.id)|apply sort_Permutation].
  - intros a' Hne. by apply afterInit_other.
Qed.

(** *** Model resolution *)

(** C5, as the code has it.  A designated representative model is
    returned, else a designated master model, whatever models the units
    reference.  With neither designated: more than one referenced model
    throws, exactly one referenced model is returned. *)
Theorem model_resolution h s :
  reachable h -> s < length (structures h) ->
  exists o us,
    structures h !! s = Some o ∧ arrays h !! units o = Some us
    ∧ match _representativeModel (_props o), _masterModel (_props o) with
      | Some m, _ => model s h = (Return (Some m), h)
      | None, Some m => model s h = (Return (Some m), h)
      | None, None =>
          (1 < length (getModels us) -> (model s h).1 = Throw ambiguous)
          ∧ (forall m, getModels us = [m] -> (model s h).1 = Return (Some m))
      end.
Proof.
  intros Hr Hlt.
  destruct (reachable_instance h s Hr Hlt) as (o & us & Hs & Hus & _).
  exists o, us. do 2 (split; [done|]).
  pose proof (model_spec h s o us (reachable_wf h Hr) Hs Hus) as Hm.
  destruct (_representativeModel (_props o)); [done|].
  destruct (_masterModel (_props o)); [done|].
  rewrite Hm. split.
  - intros Hmany. apply Nat.ltb_lt in Hmany. by rewrite Hmany.
  - intros m ->. done.
Qed.

(** *** The transform hash *)

(** C7, as the code has it.  [transformHash] is the hash of the ordered
    unit ids and of nothing else.  [transform] with a rotation plus
    translation that is not the identity succeeds and gives a new instance
    whose units carry the ids of the original's, so its [transformHash] is
    the original's. *)
Theorem transformHash_of_ids h s m :
  reachable h -> s < length (structures h) ->
  Mat4_isIdentity m = false -> Mat4_isRotationAndTranslation m = true ->
  exists o us s' h1,
    structures h !! s = Some o ∧ arrays h !! units o = Some us
    ∧ (transformHash s h).1 = Return (hashFnv32a (map Unit.id us))
    ∧ transform s m h = (Return s', h1) ∧ s' ≠ s
    ∧ (transformHash s' h1).1 = Return (hashFnv32a (map Unit.id us)).
Proof.
  intros Hr Hlt Hid Hrot.
  destruct (reachable_instance h s Hr Hlt) as (o & us & Hs & Hus & _).
  pose proof (reachable_wf h Hr) as Hwf.
  destruct (transform_returns h s o us m Hwf Hs Hus Hid Hrot)
    as (o' & Htr & Hu & _).
  eexists o, us, _, _. do 2 (split; [done|]).
  split; [by rewrite (transformHash_spec h s o us)|].
  split; [exact Htr|]. split; [lia|].
  pose proof (reachable_wf _ (reachable_transform h s m Hr)) as Hwf1.
  rewrite Htr in Hwf1. simpl in Hwf1.
  rewrite (transformHash_spec _ _ o' (moved m us) Hwf1); simpl.
  - by rewrite moved_ids.
  - by rewrite lookup_app_r, Nat.sub_diag.
  - rewrite Hu. by rewrite lookup_app_r, Nat.sub_diag.
Qed.

(** *** Provenance *)

(** [y] is the stored parent of [x]. *)
Definition parentOf (h : Heap) (x y : SRef) : Prop :=
  exists o, structures h !! x = Some o ∧ _parent (_props o) = Some y.

Lemma root_spec h s o :
  structures h !! s = Some o ->
  root s h = (Return (default s (_parent (_props o))), h).
Proof. intros Hs. unfold root, bind, readStructure, ret. by rewrite Hs. Qed.

Lemma getParent_spec h s o :
  structures h !! s = Some o -> getParent s h = (Return (_parent (_props o)), h).
Proof. intros Hs. unfold getParent, bind, readStructure, ret. by rewrite Hs. Qed.

(** C8.  An instance constructed with a parent stores the parent's own
    parent when there is one and the parent otherwise.  The stored parent
    has no parent; [root] returns it, and it is the only ancestor without a
    parent.  The parent of what [transform] returns (for a rotation plus
    translation that is not the identity) is the root of its argument. *)
Theorem parent_is_root h a p props :
  reachable h -> a < length (arrays h) -> p < length (structures h) ->
  parent props = Some p ->
  exists s h1 o po r,
    new_Structure a props h = (Return s, h1)
    ∧ structures h !! p = Some po
    ∧ structures h1 !! s = Some o
    ∧ r = default p (_parent (_props po))
    ∧ _parent (_props o) = Some r
    ∧ root p h = (Return r, h)
    ∧ root s h1 = (Return r, h1)
    ∧ getParent r h1 = (Return None, h1)
    ∧ (forall r', rtc (parentOf h1) s r' ->
                  (forall r'', ¬ parentOf h1 r' r'') -> r' = r)
    ∧ (forall s0 m, s0 < length (structures h) ->
         Mat4_isIdentity m = false -> Mat4_isRotationAndTranslation m = true ->
         exists s' h2 r0,
           transform s0 m h = (Return s', h2)
           ∧ root s0 h = (Return r0, h)
           ∧ getParent s' h2 = (Return (Some r0), h2)).
Proof.
  intros Hr Ha Hp Hprops.
  pose proof (reachable_wf h Hr) as Hwf.
  destruct (lookup_lt_is_Some_2 _ _ Ha) as [us Hus].
  destruct (lookup_lt_is_Some_2 _ _ Hp) as [po Hpo].
  destruct (new_Structure_returns h a us props Hus) as (o & Hnew & _ & Hpar & _).
  { intros p' Hp'. assert (p' = p) as -> by congruence. by eexists. }
  pose proof (reachable_wf _ (reachable_new h a props Hr)) as Hwf1.
  rewrite Hnew in Hwf1. simpl in Hwf1.
  set (h1 := {| arrays := arrays (afterInit h a us);
                structures := structures h ++ [o] |}) in *.
  assert (Hs1 : structures h1 !! length (structures h) = Some o).
  { subst h1. simpl. by rewrite lookup_app_r, Nat.sub_diag. }
  assert (Hpar' : _parent (_props o) = Some (default p (_parent (_props po)))).
  { rewrite Hpar. unfold fromParent. rewrite Hprops. simpl. by rewrite Hpo. }
  destruct (Hwf1 _ _ Hs1) as [_ Hflat].
  destruct (Hflat _ Hpar') as (ro & Hro & Hnone).
  exists (length (structures h)), h1, o, po, (default p (_parent (_props po))).
  split; [exact Hnew|]. split; [done|]. split; [done|]. split; [done|].
  split; [done|]. split; [by apply root_spec|].
  split; [by rewrite (root_spec h1 _ o Hs1), Hpar'|].
  split; [by rewrite (getParent_spec h1 _ ro Hro), Hnone|].
  split.
  - intros r' Hrtc Hlast.
    inversion Hrtc as [|? y ? Hsy Hyr]; subst.
    + destruct (Hlast (default p (_parent (_props po)))). by exists o.
    + destruct Hsy as (o2 & Ho2 & Hy).
      assert (o2 = o) as -> by congruence.
      assert (y = default p (_parent (_props po))) as -> by congruence.
      inversion Hyr as [|? z ? Hrz _]; subst; [done|].
      destruct Hrz as (ro2 & Hro2 & Hz). congruence.
  - intros s0 m Hs0 Hid Hrot.
    destruct (reachable_instance h s0 Hr Hs0) as (o0 & us0 & Ho0 & Hus0 & _).
    destruct (transform_returns h s0 o0 us0 m Hwf Ho0 Hus0 Hid Hrot)
      as (o' & Htr & _ & Hpar0 & _).
    eexists _, _, _. split; [exact Htr|]. split; [by apply root_spec|].
    rewrite (getParent_spec _ _ o'); [by rewrite Hpar0|].
    simpl. by rewrite lookup_app_r, Nat.sub_diag.
Qed.

(** X4.  A structure and its moved copy have one root:
    [areRootsEqual(transform(s, m), s)] holds. *)
Theorem moved_copy_shares_root h s m :
  reachable h -> s < length (structures h) ->
  Mat4_isIdentity m = false -> Mat4_isRotationAndTranslation m = true ->
  exists s' h1,
    transform s m h = (Return s', h1)
    ∧ areRootsEqual s' s h1 = (Return true, h1).
Proof.
  intros Hr Hlt Hid Hrot.
  destruct (reachable_instance h s Hr Hlt) as (o & us & Hs & Hus & _).
  destruct (transform_returns h s o us m (reachable_wf h Hr) Hs Hus Hid Hrot)
    as (o' & Htr & _ & Hpar & _).
  eexists _, _. split; [exact Htr|].
  unfold areRootsEqual. unfold bind at 1.
  rewrite (root_spec _ _ o') by (simpl; by rewrite lookup_app_r, Nat.sub_diag).
  unfold bind at 1.
  rewrite (root_spec _ _ o) by (simpl; by apply lookup_app_l_Some).
  unfold ret. rewrite Hpar. simpl. by rewrite bool_decide_eq_true_2.
Qed.

(** *** The spatial partitioners *)

(** The index sets of the units a builder holds. *)
Definition emitted (b : StructureBuilder) : list (list Z) :=
  map Unit.elements (b_units b).

Lemma emitted_addUnit b kind model op set traits :
  emitted (addUnit b kind model op set traits) = emitted b ++ [set].
Proof. unfold emitted, addUnit. simpl. by rewrite map_app. Qed.

Lemma emitted_fold (setOf : nat -> nat -> list Z) kind model op traits
    (l : list (nat * nat)) :
  forall b,
    emitted (foldl (fun b '(i, start) =>
                      addUnit b kind model op (setOf i start) traits) b l)
    = emitted b ++ map (fun '(i, start) => setOf i start) l.
Proof.
  induction l as [|[i start] l IH]; intros b; simpl; [by rewrite app_nil_r|].
  by rewrite IH, emitted_addUnit, <- app_assoc.
Qed.

(** A chain of two residues of three atoms each (two water molecules with
    their hydrogens): atoms 0..2 and atoms 3..5. *)
Definition twoResidues : IntData.Segmentation :=
  {| IntData.getSegment := fun a => (a / 3)%Z |}.

Definition twoResiduesAtoms : list Z := [0; 1; 2; 3; 4; 5]%Z.

Lemma twoResidues_segments :
  IntData.transientSegments twoResidues twoResiduesAtoms
  = [ {| IntData.index := 0; IntData.start := 0; IntData.end_ := 3 |};
      {| IntData.index := 1; IntData.start := 3; IntData.end_ := 6 |} ].
Proof. reflexivity. Qed.

Lemma residueRange_twoResidues (k : option nat) :
  Forall (fun e => 0 <= e < 3)%Z
    (residueRange (k ≫= fun k => [0; 3]%Z !! k)
                  (k ≫= fun k => mjoin ([Some 3%Z; None] !! k))).
Proof.
  destruct k as [[|[|k]]|]; simpl; try by constructor.
  change (Z.to_nat (3 - 0)) with 3. simpl.
  repeat (apply Forall_cons; split; [lia|]). constructor.
Qed.

Lemma residue_partition_first_residue_only
    (model : Model.t) (props : Props) (multiChain : bool) :
  Model.residueAtomSegments model = twoResidues ->
  Forall (Forall (fun e => 0 <= e < 3)%Z)
    (emitted (partitionAtomicUnitByResidue model twoResiduesAtoms
                (Builder props) multiChain)).
Proof.
  intros Hseg. unfold partitionAtomicUnitByResidue.
  rewrite Hseg, twoResidues_segments. cbn [map IntData.start IntData.end_].
  change (IntData.getAt twoResiduesAtoms 0) with 0%Z.
  change (IntData.getAt twoResiduesAtoms 3) with 3%Z.
  change (twoResiduesAtoms !! 3) with (Some 3%Z).
  change (twoResiduesAtoms !! 6) with (@None Z).
  set (buckets := GridLookup3D _ _ _).
  set (traits := partitionTraits multiChain buckets).
  cbv zeta.
  change (emitted (endChainGroup ?b)) with (emitted b).
  rewrite (emitted_fold
             (fun i start =>
                flat_map (fun j =>
                   residueRange
                     (array buckets !! (start + j) ≫= fun k => [0; 3]%Z !! k)
                     (array buckets !! (start + j)
                      ≫= fun k => mjoin ([Some 3%Z; None] !! k)))
                  (seq 0 (default 0 (count buckets !! i))))).
  simpl. apply Forall_fmap, Forall_forall. intros [i start] _.
  simpl. apply Forall_flat_map, Forall_forall. intros j _.
  apply residueRange_twoResidues.
Qed.

(** C2, the residue partitioner on a chain as [ofModel] passes it: the atoms
    0..5 of a chain of two residues.  [endIndices] of the last residue is
    [indices[6]], which is [undefined], so the loop over its atoms never
    runs: whatever buckets the grid lookup returns, every emitted unit holds
    atoms of the first residue only, so the emitted sets together are not
    the input set (atoms 3, 4 and 5 are in none). *)
Theorem residue_partition_drops_last_residue
    (modelId modelLabel : string) (conformation : Conformation)
    (props : Props) (multiChain : bool) :
  let model :=
    {| Model.id := modelId; Model.label := modelLabel;
       Model.atomicConformation := conformation;
       Model.residueAtomSegments := twoResidues |} in
  let sets :=
    emitted (partitionAtomicUnitByResidue model twoResiduesAtoms
               (Builder props) multiChain) in
  Forall (Forall (fun e => 0 <= e < 3)%Z) sets
  ∧ ¬ (concat sets ≡ₚ twoResiduesAtoms).
Proof.
  intros model sets.
  assert (Hsets : Forall (Forall (fun e => 0 <= e < 3)%Z) sets)
    by (by apply residue_partition_first_residue_only).
  split; [exact Hsets|]. intros Hperm.
  assert (Hin : 3%Z ∈ concat sets).
  { rewrite Hperm. unfold twoResiduesAtoms. set_solver. }
  apply list_elem_of_In, in_concat in Hin as (set & Hset & Hin).
  apply list_elem_of_In in Hset, Hin.
  rewrite Forall_forall in Hsets. specialize (Hsets set Hset).
  rewrite Forall_forall in Hsets. specialize (Hsets 3%Z Hin). lia.
Qed.

(** The call contract of the grid lookup: the buckets are slices of [array]
    that together hold each position of the input exactly once. *)
Definition slice (b : Buckets) (o c : nat) : list nat := take c (drop o (array b)).

Definition validBuckets (b : Buckets) (n : nat) : Prop :=
  Forall2 (fun o c => o + c <= length (array b)) (offset b) (count b)
  ∧ concat (zip_with (slice b) (offset b) (count b)) ≡ₚ seq 0 n.

Lemma slice_lookups (arr : list nat) o c :
  o + c <= length arr ->
  map (fun j => arr !! (o + j)) (seq 0 c) = map Some (take c (drop o arr)).
Proof.
  intros Hle. apply list_eq. intros j. rewrite !list_lookup_fmap.
  destruct (decide (j < c)) as [Hlt|Hge].
  - rewrite lookup_seq_lt by done. simpl.
    rewrite lookup_take_lt by done. rewrite lookup_drop.
    destruct (lookup_lt_is_Some_2 arr (o + j)) as [x Hx]; [lia|].
    by rewrite Hx.
  - rewrite lookup_seq_ge by lia. simpl.
    rewrite lookup_take_ge by lia. done.
Qed.

Lemma atom_sets (b : Buckets) (indices : list Z) :
  forall os cs pre,
    Forall2 (fun o c => o + c <= length (array b)) os cs ->
    count b = pre ++ cs ->
    map (fun '(i, start) =>
           map (fun j => default 0%Z (array b !! (start + j) ≫= fun p => indices !! p))
               (seq 0 (default 0 (count b !! i))))
        (zip (seq (length pre) (length os)) os)
    = zip_with (fun o c => map (IntData.getAt indices) (slice b o c)) os cs.
Proof.
  intros os cs pre Hall. revert pre.
  induction Hall as [|o c os cs Hoc Hall IH]; intros pre Hcount; [done|].
  simpl. f_equal.
  - rewrite Hcount, lookup_app_r, Nat.sub_diag by done. simpl.
    unfold slice. rewrite <- (map_map (fun j => array b !! (o + j))
      (fun k => default 0%Z (k ≫= fun p => indices !! p))).
    rewrite slice_lookups by done. by rewrite map_map.
  - specialize (IH (pre ++ [c])). rewrite length_app in IH. simpl in IH.
    rewrite Nat.add_1_r in IH. apply IH. by rewrite <- app_assoc.
Qed.

(** X1.  The per-atom partitioner emits, under the lookup's contract, every
    input index exactly once. *)
Theorem atom_partition_exact (model : Model.t) (indices : list Z)
    (props : Props) (multiChain : bool) :
  validBuckets
    (GridLookup3D (Model.atomicConformation model) indices (Some 8192%Z))
    (length indices) ->
  concat (emitted (partitionAtomicUnitByAtom model indices (Builder props) multiChain))
  ≡ₚ indices.
Proof.
  intros [Hall Hperm]. unfold partitionAtomicUnitByAtom. cbv zeta.
  set (buckets := GridLookup3D _ _ _) in *.
  change (emitted (endChainGroup ?b)) with (emitted b).
  rewrite (emitted_fold
             (fun i start =>
                map (fun j =>
                       default 0%Z
                         (array buckets !! (start + j) ≫= fun p => indices !! p))
                    (seq 0 (default 0 (count buckets !! i))))).
  simpl.
  pose proof (atom_sets buckets indices _ _ [] Hall eq_refl) as Hsets.
  simpl in Hsets. rewrite Hsets.
  transitivity (map (IntData.getAt indices)
                  (concat (zip_with (slice buckets) (offset buckets) (count buckets)))).
  - clear. generalize (count buckets).
    induction (offset buckets) as [|o os IH]; intros [|c cs]; simpl; try done.
    by rewrite map_app, IH.
  - rewrite Hperm. by rewrite QueryFacts.getAt_all.
Qed.

End Facts.

End StructFacts.

(** ** Part IV, continued: properties of the further members *)

Module ViewFacts.

Import Struct StructFacts StructViews.

Section Facts.
Context `{Collaborators}.

Ltac run :=
  unfold bind, ret, throw, readArray, readStructure, writeProps, writeArray,
    newInstance, newArray in *; simpl in *.

(** *** What [transform] keeps *)

Lemma elementCount_spec h s o us :
  wf h -> structures h !! s = Some o -> arrays h !! units o = Some us ->
  elementCount s h = (Return (countElements us), h).
Proof.
  intros Hwf Hs Hus.
  destruct (Hwf _ _ Hs) as [(us' & Hus' & _ & Hc & _) _].
  assert (us' = us) as -> by congruence.
  unfold elementCount, bind, readStructure, ret. by rewrite Hs, Hc.
Qed.

Lemma areUnitAndIndicesEqual_spec h x ox ux y oy uy :
  wf h ->
  structures h !! x = Some ox -> arrays h !! units ox = Some ux ->
  structures h !! y = Some oy -> arrays h !! units oy = Some uy ->
  areUnitAndIndicesEqual x y h
  = (Return (bool_decide (pairsOf ux = pairsOf uy)), h).
Proof.
  intros Hwf Hx Hux Hy Huy. unfold areUnitAndIndicesEqual.
  unfold bind at 1. rewrite (elementCount_spec h x ox ux) by done.
  unfold bind at 1. rewrite (elementCount_spec h y oy uy) by done.
  destruct (decide (countElements ux ≠ countElements uy)) as [Hne|Heq].
  { rewrite bool_decide_eq_false_2; [done|].
    intros Hp. by apply countElements_pairs in Hp. }
  rewrite (bind_readStructure h x ox) by done.
  rewrite (bind_readArray h _ ux) by done.
  rewrite (bind_readStructure h y oy) by done.
  rewrite (bind_readArray h _ uy) by done.
  destruct (decide (length ux ≠ length uy)) as [Hne|Hlen].
  { rewrite bool_decide_eq_false_2; [done|].
    intros Hp. apply (f_equal length) in Hp. unfold pairsOf in Hp.
    by rewrite !length_map in Hp. }
  apply dec_stable in Hlen. pose proof (pairs_decide ux uy Hlen) as Hiff.
  destruct (sameIds ux uy), (sameIndices ux uy); simpl;
    unfold ret; f_equal; f_equal; symmetry;
    try (apply bool_decide_eq_false_2; intros Hp; apply Hiff in Hp;
         by destruct Hp);
    apply bool_decide_eq_true_2; by apply Hiff.
Qed.

Lemma pairsOf_moved m us : pairsOf (moved m us) = pairsOf us.
Proof. unfold pairsOf, moved. rewrite map_map. by apply map_ext. Qed.

Lemma getModels_models us us' :
  map Unit.model us = map Unit.model us' -> getModels us = getModels us'.
Proof.
  intros Hm.
  assert (Hf : forall l, getModels l = foldl UniqueArray_add [] (map Unit.model l)).
  { intros l. unfold getModels. by rewrite foldl_fmap. }
  by rewrite !Hf, Hm.
Qed.

Lemma getModels_moved m us : getModels (moved m us) = getModels us.
Proof.
  apply getModels_models. unfold moved. rewrite map_map. by apply map_ext.
Qed.

(** The heap after [transform]: the original as it was, and the new
    instance with what it inherits. *)
Lemma transform_result h s m :
  reachable h -> s < length (structures h) ->
  Mat4_isIdentity m = false -> Mat4_isRotationAndTranslation m = true ->
  exists o us o' h1,
    structures h !! s = Some o ∧ arrays h !! units o = Some us
    ∧ transform s m h = (Return (length (structures h)), h1)
    ∧ wf h1
    ∧ structures h1 !! s = Some o ∧ arrays h1 !! units o = Some us
    ∧ structures h1 !! length (structures h) = Some o'
    ∧ arrays h1 !! units o' = Some (moved m us)
    ∧ _representativeModel (_props o') = _representativeModel (_props o)
    ∧ _masterModel (_props o') = _masterModel (_props o).
Proof.
  intros Hr Hlt Hid Hrot.
  destruct (reachable_instance h s Hr Hlt) as (o & us & Hs & Hus & Hsorted).
  pose proof (reachable_wf h Hr) as Hwf.
  pose proof (reachable_wf _ (reachable_transform h s m Hr)) as Hwf1.
  rewrite (transform_unfold h s o us) in * by done.
  set (h0 := (newArray (moved m us) h).2) in *.
  assert (Ha : arrays h0 !! length (arrays h) = Some (moved m us)).
  { subst h0. simpl. rewrite lookup_app_r by done. by rewrite Nat.sub_diag. }
  destruct (new_Structure_returns h0 (length (arrays h)) (moved m us)
              (movedProps s m (_coordinateSystem (_props o))) Ha)
    as (o' & Hnew & Hu & _ & _ & _ & _ & _ & _ & Hrep & Hmas).
  { intros p [= <-]. subst h0. simpl. by eexists. }
  rewrite Hnew in Hwf1. simpl in Hwf1.
  unfold afterInit in *. rewrite (moved_isSorted m us Hsorted) in *.
  subst h0. simpl in *.
  eexists o, us, o', _. split; [done|]. split; [done|].
  split; [exact Hnew|]. split; [exact Hwf1|]. simpl.
  split; [by apply lookup_app_l_Some|].
  split; [by apply lookup_app_l_Some|].
  split; [by rewrite lookup_app_r, Nat.sub_diag|].
  split; [by rewrite Hu, lookup_app_r, Nat.sub_diag|].
  unfold fromParent, orInherited in Hrep, Hmas. simpl in Hrep, Hmas.
  rewrite Hs in Hrep, Hmas. done.
Qed.

Lemma moved_kinds m us : map Unit.kind (moved m us) = map Unit.kind us.
Proof. unfold moved. rewrite map_map. by apply map_ext. Qed.

Lemma forallb_kinds (f : Unit.Kind -> bool) (us : list Unit.t) :
  forall us', map Unit.kind us = map Unit.kind us' ->
    forallb (fun u => f (Unit.kind u)) us = forallb (fun u => f (Unit.kind u)) us'.
Proof.
  induction us as [|u us IH]; intros [|u' us'] Hk; try done.
  injection Hk as Hu Hus. simpl. by rewrite Hu, (IH us').
Qed.

(** X5.  A moved copy is a new instance, another one than the original
    and none that existed before the call, and it has the units and
    indices of the original: the two are [areUnitAndIndicesEqual], they
    have one [hashCode] and one [elementCount], and they are empty, and
    atomic, together. *)
Theorem moved_copy_same_content h s m :
  reachable h -> s < length (structures h) ->
  Mat4_isIdentity m = false -> Mat4_isRotationAndTranslation m = true ->
  exists s' h1,
    transform s m h = (Return s', h1)
    ∧ s' ≠ s ∧ structures h !! s' = None ∧ is_Some (structures h1 !! s')
    ∧ areUnitAndIndicesEqual s' s h1 = (Return true, h1)
    ∧ (hashCode s' h1).1 = (hashCode s h).1
    ∧ (elementCount s' h1).1 = (elementCount s h).1
    ∧ (isEmpty s' h1).1 = (isEmpty s h).1
    ∧ (isAtomic s' h1).1 = (isAtomic s h).1.
Proof.
  intros Hr Hlt Hid Hrot.
  destruct (transform_result h s m Hr Hlt Hid Hrot)
    as (o & us & o' & h1 & Hs & Hus & Htr & Hwf1 & Hs1 & Hus1 & Hs' & Hus' & _).
  pose proof (reachable_wf h Hr) as Hwf.
  exists (length (structures h)), h1. split; [exact Htr|].
  split; [lia|]. split; [by apply lookup_ge_None_2|]. split; [by eexists|].
  split.
  { rewrite (areUnitAndIndicesEqual_spec h1 _ o' (moved m us) s o us) by done.
    by rewrite pairsOf_moved, bool_decide_eq_true_2. }
  split.
  { rewrite (hashCode_spec h1 _ o' (moved m us)) by done.
    rewrite (hashCode_spec h s o us) by done. simpl.
    by rewrite !hashOf_structureHash, pairsOf_moved. }
  split.
  { rewrite (elementCount_spec h1 _ o' (moved m us)) by done.
    rewrite (elementCount_spec h s o us) by done. simpl.
    f_equal. apply countElements_pairs, pairsOf_moved. }
  unfold isEmpty, isAtomic.
  rewrite !(bind_readStructure h1 _ o') by done.
  rewrite !(bind_readArray h1 _ (moved m us)) by done.
  rewrite !(bind_readStructure h s o) by done.
  rewrite !(bind_readArray h _ us) by done.
  unfold ret. simpl. split.
  - unfold moved. by rewrite length_map.
  - f_equal.
    apply (forallb_kinds
             (fun k => match k with Unit.Atomic => true | _ => false end)).
    apply moved_kinds.
Qed.

(** X6.  A moved copy resolves to the model of the original: [model] gives the
    same outcome, the same model or the same throw, on both; so does
    [models]. *)
Theorem moved_copy_same_model h s m :
  reachable h -> s < length (structures h) ->
  Mat4_isIdentity m = false -> Mat4_isRotationAndTranslation m = true ->
  exists s' h1,
    transform s m h = (Return s', h1)
    ∧ (models s' h1).1 = (models s h).1
    ∧ (model s' h1).1 = (model s h).1.
Proof.
  intros Hr Hlt Hid Hrot.
  destruct (transform_result h s m Hr Hlt Hid Hrot)
    as (o & us & o' & h1 & Hs & Hus & Htr & Hwf1 & Hs1 & Hus1 & Hs' & Hus'
        & Hrep & Hmas).
  pose proof (reachable_wf h Hr) as Hwf.
  exists (length (structures h)), h1. split; [exact Htr|].
  split.
  { rewrite (models_spec h1 _ o' (moved m us)) by done.
    rewrite (models_spec h s o us) by done. simpl.
    by rewrite getModels_moved. }
  pose proof (model_spec h1 _ o' (moved m us) Hwf1 Hs' Hus') as Hm'.
  pose proof (model_spec h s o us Hwf Hs Hus) as Hm.
  rewrite Hrep, Hmas, getModels_moved in Hm'.
  destruct (_representativeModel (_props o)); [by rewrite Hm', Hm|].
  destruct (_masterModel (_props o)); [by rewrite Hm', Hm|].
  by rewrite Hm', Hm.
Qed.

(** *** The models of a structure *)

Lemma getModels_snoc us u :
  getModels (us ++ [u]) = UniqueArray_add (getModels us) (Unit.model u).
Proof. unfold getModels. by rewrite foldl_app. Qed.

Lemma getModels_facts us :
  NoDup (map Model.id (getModels us))
  ∧ (forall u, u ∈ us -> Model.id (Unit.model u) ∈ map Model.id (getModels us))
  ∧ getModels us `sublist_of` map Unit.model us.
Proof.
  induction us as [|u us (Hnd & Hall & Hsub)] using rev_ind.
  - split; [constructor|]. split; [by intros ? ?%elem_of_nil|done].
  - rewrite getModels_snoc, map_app. unfold UniqueArray_add.
    destruct (decide (Model.id (Unit.model u) ∈ map Model.id (getModels us)))
      as [Hin|Hnin].
    + split; [done|]. split.
      * intros u' [Hu'| ->%list_elem_of_singleton]%elem_of_app; auto.
      * by apply sublist_inserts_r.
    + split.
      { rewrite map_app. apply NoDup_app. split; [done|]. split.
        - intros x Hx ->%list_elem_of_singleton. done.
        - simpl. apply NoDup_singleton. }
      split.
      * intros u' Hu'. rewrite map_app, elem_of_app.
        apply elem_of_app in Hu' as [Hu'| ->%list_elem_of_singleton]; [auto|].
        right. simpl. by left.
      * by apply sublist_app.
Qed.

(** The unit at position [k] is the first unit that references the model
    [m]: its model is [m], and no unit before it has a model of that id. *)
Definition firstReference (us : list Unit.t) (k : nat) (m : Model.t) : Prop :=
  exists u,
    us !! k = Some u ∧ Unit.model u = m
    ∧ forall k' u', k' < k -> us !! k' = Some u' ->
        Model.id (Unit.model u') ≠ Model.id m.

Lemma firstReference_snoc us u k m :
  firstReference us k m -> firstReference (us ++ [u]) k m.
Proof.
  intros (v & Hv & Hm & Hfirst). exists v.
  split; [by apply lookup_app_l_Some|]. split; [done|].
  intros k' u' Hk' Hu'. apply (Hfirst k' u' Hk').
  apply lookup_lt_Some in Hv. by rewrite lookup_app_l in Hu' by lia.
Qed.

(** [getModels] lists the models at the first-reference positions, in
    ascending order of position. *)
Lemma getModels_order us :
  exists ks, StronglySorted lt ks ∧ Forall2 (firstReference us) ks (getModels us).
Proof.
  induction us as [|u us (ks & Hsorted & Hks)] using rev_ind.
  - exists []. split; constructor.
  - destruct (getModels_facts us) as (_ & Hall & _).
    rewrite getModels_snoc. unfold UniqueArray_add.
    assert (Hks' : Forall2 (firstReference (us ++ [u])) ks (getModels us)).
    { eapply Forall2_impl; [exact Hks|].
      intros k m Hk. by apply firstReference_snoc. }
    destruct (decide (Model.id (Unit.model u) ∈ map Model.id (getModels us)))
      as [Hin|Hnin].
    + by exists ks.
    + exists (ks ++ [length us]). split.
      * apply StronglySorted_app_2; [|done|repeat constructor].
        intros k n Hk ->%list_elem_of_singleton.
        apply list_elem_of_lookup_1 in Hk as [i Hi].
        destruct (Forall2_lookup_l _ _ _ _ _ Hks Hi) as (m & _ & v & Hv & _).
        by apply lookup_lt_Some in Hv.
      * apply Forall2_app; [done|]. constructor; [|constructor].
        exists u. split; [by rewrite list_lookup_middle|]. split; [done|].
        intros k' u' Hk' Hu' Heq.
        rewrite lookup_app_l in Hu' by done.
        apply Hnin. rewrite <- Heq. apply Hall.
        by eapply list_elem_of_lookup_2.
Qed.

(** X7.  [models] lists the models that the units reference, each model id
    once, in the order in which the units first reference them: the list
    holds, in ascending order of position, the model of every unit that no
    unit with a model of the same id precedes.  The list is cached, so that
    a second call returns it without a write. *)
Theorem models_unique h s :
  reachable h -> s < length (structures h) ->
  exists o us ms h1,
    structures h !! s = Some o ∧ arrays h !! units o = Some us
    ∧ models s h = (Return ms, h1)
    ∧ models s h1 = (Return ms, h1)
    ∧ NoDup (map Model.id ms)
    ∧ (forall u, u ∈ us -> Model.id (Unit.model u) ∈ map Model.id ms)
    ∧ ms `sublist_of` map Unit.model us
    ∧ exists ks, StronglySorted lt ks ∧ Forall2 (firstReference us) ks ms.
Proof.
  intros Hr Hlt.
  destruct (reachable_instance h s Hr Hlt) as (o & us & Hs & Hus & _).
  pose proof (reachable_wf h Hr) as Hwf.
  pose proof (reachable_wf _ (reachable_models h s Hr)) as Hwf1.
  destruct (getModels_facts us) as (Hnd & Hall & Hsub).
  pose proof (getModels_order us) as Horder.
  rewrite (models_spec h s o us) in Hwf1 by done. simpl in Hwf1.
  eexists o, us, (getModels us), _. split; [done|]. split; [done|].
  split; [by apply models_spec|].
  split; [|done].
  destruct (_models (_props o)) as [ms|] eqn:Ems.
  - by rewrite (models_spec h s o us), Ems.
  - rewrite (models_spec _ s _ us Hwf1 (cached_lookup h s _ o Hs)) by done.
    done.
Qed.

(** *** [StructureBuilder] *)

(** The builders that arise from [new StructureBuilder(props)]. *)
Inductive built : StructureBuilder -> Prop :=
| built_new props : built (Builder props)
| built_beginChainGroup b : built b -> built (beginChainGroup b)
| built_endChainGroup b : built b -> built (endChainGroup b)
| built_addUnit b kind model operator elements traits :
    built b -> built (addUnit b kind model operator elements traits)
| built_addWithOperator b unit operator :
    built b -> built (addWithOperator b unit operator).

(** Unit ids that are the positions [k], [k + 1], ... *)
Definition idsFrom (k : nat) (us : list Unit.t) : Prop :=
  map Unit.id us = map Z.of_nat (seq k (length us)).

Lemma idsFrom_snoc us u :
  idsFrom 0 us -> Unit.id u = Z.of_nat (length us) -> idsFrom 0 (us ++ [u]).
Proof.
  unfold idsFrom. intros Hus Hu.
  rewrite map_app, length_app, Nat.add_1_r, seq_S, map_app, Hus. simpl.
  by rewrite Hu.
Qed.

Lemma built_ids b : built b -> idsFrom 0 (b_units b).
Proof.
  induction 1; simpl; try done; by apply idsFrom_snoc.
Qed.

Lemma idsFrom_Sorted us : forall k, idsFrom k us -> Sorted byId us.
Proof.
  induction us as [|u us IH]; intros k Hids; [constructor|].
  unfold idsFrom in *. simpl in Hids. injection Hids as Hu Hus.
  constructor; [by apply (IH (S k))|].
  destruct us as [|v vs]; constructor. simpl in Hus. injection Hus as Hv _.
  unfold byId. lia.
Qed.

Lemma getStructure_returns b h :
  idsFrom 0 (b_units b) ->
  (forall p, parent (b_props b) = Some p -> is_Some (structures h !! p)) ->
  exists o,
    getStructure b h
    = (Return (length (structures h)),
       {| arrays := arrays h ++ [b_units b]; structures := structures h ++ [o] |})
    ∧ units o = length (arrays h)
    ∧ _model (_props o) = None
    ∧ _representativeModel (_props o)
      = orInherited (representativeModel (b_props b))
          (fromParent h (b_props b) _representativeModel)
    ∧ _masterModel (_props o)
      = orInherited (masterModel (b_props b))
          (fromParent h (b_props b) _masterModel).
Proof.
  intros Hids Hp.
  unfold getStructure, create. rewrite bind_newArray.
  set (h0 := (newArray (b_units b) h).2).
  assert (Ha : arrays h0 !! length (arrays h) = Some (b_units b)).
  { subst h0. simpl. by rewrite lookup_app_r, Nat.sub_diag. }
  destruct (new_Structure_returns h0 _ _ (b_props b) Ha)
    as (o & Hnew & Hu & _ & _ & Hm & _ & _ & _ & Hrep & Hmas).
  { subst h0. simpl. exact Hp. }
  assert (Hsorted : isSorted (b_units b) = true).
  { apply isSorted_Sorted. by eapply idsFrom_Sorted. }
  unfold afterInit in Hnew. rewrite Hsorted in Hnew. subst h0. simpl in *.
  exists o. split; [exact Hnew|]. done.
Qed.

(** X9.  A structure obtained from a builder holds the builder's units in the
    order in which they were added, and the unit at position [i] has id
    [i]: the array is in ascending id order as it is, the constructor does
    not rearrange it, and no two units share an id. *)
Theorem builder_ids_are_positions b h :
  built b ->
  (forall p, parent (b_props b) = Some p -> is_Some (structures h !! p)) ->
  map Unit.id (b_units b) = map Z.of_nat (seq 0 (length (b_units b)))
  ∧ NoDup (map Unit.id (b_units b))
  ∧ exists s h1 o,
      getStructure b h = (Return s, h1)
      ∧ structures h1 !! s = Some o
      ∧ arrays h1 !! units o = Some (b_units b)
      ∧ forall a, a < length (arrays h) -> arrays h1 !! a = arrays h !! a.
Proof.
  intros Hb Hp. pose proof (built_ids b Hb) as Hids.
  split; [exact Hids|]. split.
  { rewrite Hids. apply (NoDup_fmap_2 _), NoDup_seq. }
  destruct (getStructure_returns b h Hids Hp) as (o & Hget & Hu & _).
  eexists _, _, o. split; [exact Hget|]. simpl.
  split; [by rewrite lookup_app_r, Nat.sub_diag|].
  split; [by rewrite Hu, lookup_app_r, Nat.sub_diag|].
  intros a Ha'. by rewrite lookup_app_l.
Qed.

(** *** The chain group of a partitioned chain *)

Lemma addUnit_grouped b kind model op set traits :
  b_inChainGroup b = true ->
  let b' := addUnit b kind model op set traits in
  b_inChainGroup b' = true ∧ b_chainGroupId b' = b_chainGroupId b
  ∧ exists u, b_units b' = b_units b ++ [u]
              ∧ Unit.chainGroupId u = b_chainGroupId b
              ∧ Unit.kind u = kind ∧ Unit.model u = model
              ∧ Unit.traits u = traits.
Proof.
  intros Hin. unfold addUnit. simpl. rewrite Hin.
  split; [done|]. split; [done|]. eexists. split; [done|]. done.
Qed.

Lemma addUnit_in_group (setOf : nat -> nat -> list Z) kind model op traits
    (l : list (nat * nat)) :
  forall b, b_inChainGroup b = true ->
    let b' := foldl (fun b '(i, start) =>
                       addUnit b kind model op (setOf i start) traits) b l in
    b_inChainGroup b' = true ∧ b_chainGroupId b' = b_chainGroupId b
    ∧ exists new,
        b_units b' = b_units b ++ new ∧ length new = length l
        ∧ Forall (fun u => Unit.chainGroupId u = b_chainGroupId b
                           ∧ Unit.kind u = kind ∧ Unit.model u = model
                           ∧ Unit.traits u = traits) new.
Proof.
  induction l as [|[i start] l IH]; intros b Hin; simpl.
  - split; [done|]. split; [done|]. exists []. by rewrite app_nil_r.
  - destruct (addUnit_grouped b kind model op (setOf i start) traits Hin)
      as (Hin1 & Hid1 & u & Hunits1 & Hu).
    destruct (IH _ Hin1) as (Hin' & Hid & new & Hunits & Hlen & Hall).
    rewrite Hid1 in Hid, Hall. rewrite Hunits1 in Hunits.
    split; [done|]. split; [done|].
    exists (u :: new). rewrite Hunits, <- app_assoc. simpl.
    split; [done|]. split; [by rewrite Hlen|].
    by constructor.
Qed.

Lemma partitionTraits_bits multiChain buckets :
  Z.testbit (partitionTraits multiChain buckets) 0 = multiChain
  ∧ Z.testbit (partitionTraits multiChain buckets) 1
    = (1 <? length (offset buckets)).
Proof.
  unfold partitionTraits.
  destruct multiChain, (1 <? length (offset buckets)); split; reflexivity.
Qed.

(** What one call of a partitioner adds to a builder: units of one chain
    group. *)
Definition oneChainGroup (model : Model.t) (multiChain : bool)
    (b b' : StructureBuilder) : Prop :=
  exists new,
    b_units b' = b_units b ++ new
    ∧ Forall (fun u => Unit.chainGroupId u = (b_chainGroupId b + 1)%Z
                       ∧ Unit.kind u = Unit.Atomic ∧ Unit.model u = model
                       ∧ Z.testbit (Unit.traits u) 0 = multiChain
                       ∧ Z.testbit (Unit.traits u) 1 = (1 <? length new)) new
    ∧ b_chainGroupId b' = (b_chainGroupId b + 1)%Z
    ∧ b_inChainGroup b' = false.

Lemma partitionByAtom_group (model : Model.t) (indices : list Z)
    (b : StructureBuilder) (multiChain : bool) :
  oneChainGroup model multiChain b
    (partitionAtomicUnitByAtom model indices b multiChain).
Proof.
  unfold partitionAtomicUnitByAtom. cbv zeta.
  set (buckets := GridLookup3D _ _ _).
  destruct (partitionTraits_bits multiChain buckets) as [Hb0 Hb1].
  match goal with |- oneChainGroup _ _ _ (endChainGroup (foldl _ _ ?l)) =>
    destruct (addUnit_in_group
                (fun i start =>
                   map (fun j =>
                          default 0%Z
                            (array buckets !! (start + j) ≫= fun p => indices !! p))
                       (seq 0 (default 0 (count buckets !! i))))
                Unit.Atomic model SymmetryOperator_Default
                (partitionTraits multiChain buckets) l (beginChainGroup b))
      as (_ & Hid & new & Hunits & Hlen & Hall); [done|]
  end.
  exists new. simpl in *. split; [exact Hunits|]. split; [|done].
  rewrite length_zip, length_seq, Nat.min_id in Hlen.
  eapply Forall_impl; [exact Hall|]. simpl.
  intros u (-> & -> & -> & ->). by rewrite Hlen.
Qed.

Lemma partitionByResidue_group (model : Model.t) (indices : list Z)
    (b : StructureBuilder) (multiChain : bool) :
  oneChainGroup model multiChain b
    (partitionAtomicUnitByResidue model indices b multiChain).
Proof.
  unfold partitionAtomicUnitByResidue. cbv zeta.
  set (startIndices := map _ _). set (endIndices := map _ _).
  set (buckets := GridLookup3D _ _ _).
  destruct (partitionTraits_bits multiChain buckets) as [Hb0 Hb1].
  match goal with |- oneChainGroup _ _ _ (endChainGroup (foldl _ _ ?l)) =>
    destruct (addUnit_in_group
                (fun i start =>
                   flat_map (fun j =>
                      let k := array buckets !! (start + j) in
                      residueRange (k ≫= fun k => startIndices !! k)
                                   (k ≫= fun k => mjoin (endIndices !! k)))
                     (seq 0 (default 0 (count buckets !! i))))
                Unit.Atomic model SymmetryOperator_Default
                (partitionTraits multiChain buckets) l (beginChainGroup b))
      as (_ & Hid & new & Hunits & Hlen & Hall); [done|]
  end.
  exists new. simpl in *. split; [exact Hunits|]. split; [|done].
  rewrite length_zip, length_seq, Nat.min_id in Hlen.
  eapply Forall_impl; [exact Hall|]. simpl.
  intros u (-> & -> & -> & ->). by rewrite Hlen.
Qed.

(** X10.  The units that a partitioner emits for one chain share one chain group
    id, the one after the builder's last; they are atomic units of the
    model, flagged multi-chain exactly when the caller said so and flagged
    partitioned exactly when more than one unit was emitted.  The builder
    is left outside a chain group. *)
Theorem partition_shares_chain_group (model : Model.t) (indices : list Z)
    (b : StructureBuilder) (multiChain : bool) :
  oneChainGroup model multiChain b
    (partitionAtomicUnitByAtom model indices b multiChain)
  ∧ oneChainGroup model multiChain b
      (partitionAtomicUnitByResidue model indices b multiChain).
Proof.
  split; [apply partitionByAtom_group|apply partitionByResidue_group].
Qed.

(** *** What the constructor inherits *)

Lemma new_Structure_inherits h a us props p po :
  arrays h !! a = Some us ->
  parent props = Some p -> structures h !! p = Some po ->
  exists o,
    new_Structure a props h
    = (Return (length (structures h)),
       {| arrays := arrays (afterInit h a us); structures := structures h ++ [o] |})
    ∧ _label (_props o)
      = default (_label (_props po)) (truthyString (label props))
    ∧ _coordinateSystem (_props o)
      = default (_coordinateSystem (_props po)) (coordinateSystem props)
    ∧ _masterModel (_props o)
      = orInherited (masterModel props) (_masterModel (_props po))
    ∧ _representativeModel (_props o)
      = orInherited (representativeModel props) (_representativeModel (_props po)).
Proof.
  intros Ha Hp Hpo.
  destruct (initUnits_returns h a us Ha) as (um & uim & Hinit).
  unfold new_Structure. unfold bind at 1. rewrite Hinit, Hp. run.
  rewrite afterInit_structures, Hpo. simpl. rewrite !afterInit_structures.
  eexists. split; [reflexivity|]. simpl. unfold orInherited.
  by destruct (truthyString (label props)), (coordinateSystem props),
    (masterModel props), (representativeModel props).
Qed.

(** X8.  A structure constructed with a parent in its properties takes its
    label, coordinate system, master model and representative model from
    the properties when they give one (a label only when it is not the
    empty string), and otherwise from the parent that was passed, which
    need not be the root that the new structure stores as its parent. *)
Theorem constructor_inherits h a us props p po :
  arrays h !! a = Some us ->
  parent props = Some p -> structures h !! p = Some po ->
  exists s h1,
    new_Structure a props h = (Return s, h1)
    ∧ getLabel s h1
      = (Return (default (_label (_props po)) (truthyString (label props))), h1)
    ∧ getCoordinateSystem s h1
      = (Return (default (_coordinateSystem (_props po)) (coordinateSystem props)),
         h1)
    ∧ getMasterModel s h1
      = (Return (orInherited (masterModel props) (_masterModel (_props po))), h1)
    ∧ getRepresentativeModel s h1
      = (Return (orInherited (representativeModel props)
                   (_representativeModel (_props po))), h1)
    ∧ getParent s h1 = (Return (Some (default p (_parent (_props po)))), h1).
Proof.
  intros Ha Hp Hpo.
  destruct (new_Structure_inherits h a us props p po Ha Hp Hpo)
    as (o & Hnew & Hl & Hcs & Hmas & Hrep).
  destruct (new_Structure_returns h a us props Ha) as (o' & Hnew' & _ & Hpar & _).
  { intros p' Hp'. assert (p' = p) as -> by congruence. by eexists. }
  assert (o' = o) as ->.
  { rewrite Hnew in Hnew'. injection Hnew' as Heq.
    by apply app_inv_head in Heq as [= ->]. }
  eexists _, _. split; [exact Hnew|].
  assert (Hs : forall {A} (k : Instance_ -> M A) h1,
            structures h1 = structures h ++ [o] ->
            bind (readStructure (length (structures h))) k h1 = k o h1).
  { intros A k h1 Hh1. apply bind_readStructure.
    by rewrite Hh1, lookup_app_r, Nat.sub_diag. }
  unfold getLabel, getCoordinateSystem, getMasterModel, getRepresentativeModel,
    getParent.
  rewrite !Hs by done. unfold ret. rewrite Hl, Hcs, Hmas, Hrep, Hpar.
  unfold fromParent. rewrite Hp. simpl. rewrite Hpo. simpl. done.
Qed.

(** *** The id maps of an instance *)

(** The maps that [initUnits] fills: [unitMap] in its first loop, over the
    array as it was passed, and [unitIndexMap] in its last loop, over the
    array as it is left. *)
Definition unitMapOf (us : list Unit.t) : gmap Z Unit.t :=
  foldl (fun m u => <[Unit.id u := u]> m) ∅ us.

Definition unitIndexMapOf (us : list Unit.t) : gmap Z nat :=
  foldl (fun m '(i, u) => <[Unit.id u := i]> m) ∅ (zip (seq 0 (length us)) us).

Lemma initUnits_exact h a us :
  arrays h !! a = Some us ->
  initUnits a h
  = (Return (unitMapOf us, unitIndexMapOf (sortedArray us), countElements us),
     afterInit h a us).
Proof.
  intros Ha. unfold initUnits, afterInit, sortedArray. run. rewrite Ha.
  destruct (isSorted us) eqn:E; simpl.
  - by rewrite Ha.
  - by rewrite list_lookup_insert_eq by (by eapply lookup_lt_Some).
Qed.

Lemma new_Structure_maps h a us props :
  arrays h !! a = Some us ->
  (forall p, parent props = Some p -> is_Some (structures h !! p)) ->
  exists o,
    new_Structure a props h
    = (Return (length (structures h)),
       {| arrays := arrays (afterInit h a us); structures := structures h ++ [o] |})
    ∧ units o = a
    ∧ unitMap o = unitMapOf us
    ∧ unitIndexMap o = unitIndexMapOf (sortedArray us).
Proof.
  intros Ha Hp.
  unfold new_Structure. unfold bind at 1. rewrite (initUnits_exact h a us Ha).
  destruct (parent props) as [p|] eqn:Ep; simpl.
  - destruct (Hp p eq_refl) as [po Hpo]. run.
    rewrite afterInit_structures, Hpo. simpl. rewrite !afterInit_structures.
    eexists. split; [reflexivity|]. done.
  - run. rewrite !afterInit_structures. eexists. split; [reflexivity|]. done.
Qed.

(** An instance holds the maps that the constructor made of its array. *)
Definition constructed (us : list Unit.t) (o : Instance_) : Prop :=
  exists us0, us = sortedArray us0 ∧ unitMap o = unitMapOf us0
              ∧ unitIndexMap o = unitIndexMapOf us.

Definition mapsInv (h : Heap) : Prop :=
  forall s o us, structures h !! s = Some o -> arrays h !! units o = Some us ->
                 constructed us o.

Lemma mapsInv_newArray h us : wf h -> mapsInv h -> mapsInv (newArray us h).2.
Proof.
  intros Hwf Hinv s o us' Hs Hus'. simpl in *.
  destruct (Hwf _ _ Hs) as [(us'' & Hus'' & _) _].
  rewrite (lookup_app_l_Some _ _ _ _ Hus'') in Hus'.
  assert (us'' = us') as -> by congruence. by eapply Hinv.
Qed.

Lemma mapsInv_afterInit h a us :
  wf h -> mapsInv h -> arrays h !! a = Some us -> mapsInv (afterInit h a us).
Proof.
  intros Hwf Hinv Ha s o us' Hs Hus'.
  rewrite afterInit_structures in Hs.
  destruct (isSorted us) eqn:E.
  - unfold afterInit in Hus'. rewrite E in Hus'. by eapply Hinv.
  - rewrite afterInit_other in Hus' by (by eapply unsorted_unowned).
    by eapply Hinv.
Qed.

Lemma mapsInv_new h a props :
  wf h -> mapsInv h -> mapsInv (new_Structure a props h).2.
Proof.
  intros Hwf Hinv.
  destruct (new_Structure_throws h a props)
    as [[msg ->]|[(us & msg & Ha & ->)|(us & Ha & Hp)]]; simpl; [done| |].
  { by apply mapsInv_afterInit. }
  destruct (new_Structure_maps h a us props Ha Hp) as (o & -> & Hu & Hum & Huim).
  simpl. pose proof (mapsInv_afterInit h a us Hwf Hinv Ha) as Hinv'.
  intros s o' us' Hs Hus'. simpl in *.
  destruct (decide (s < length (structures h))) as [Hlt|Hge].
  - rewrite lookup_app_l in Hs by done.
    apply (Hinv' s o' us'); [by rewrite afterInit_structures|done].
  - rewrite lookup_app_r in Hs by lia.
    destruct (s - length (structures h)) as [|n]; simpl in Hs;
      [|by rewrite lookup_nil in Hs].
    assert (o' = o) as -> by congruence.
    rewrite Hu, (afterInit_array h a us Ha) in Hus'.
    assert (us' = sortedArray us) as -> by congruence.
    by exists us.
Qed.

Lemma mapsInv_cached h s f : mapsInv h -> mapsInv (cached h s f).
Proof.
  intros Hinv s' o' us Hs' Hus. rewrite cached_arrays in Hus.
  destruct (decide (s' = s)) as [->|Hne].
  - destruct (structures h !! s) as [o|] eqn:Hs.
    + rewrite (cached_lookup h s f o Hs) in Hs'.
      assert (o' = withProps o (f (_props o))) as -> by congruence.
      simpl in *. destruct (Hinv s o us Hs Hus) as (us0 & ? & ? & ?).
      by exists us0.
    + unfold cached, writeProps in Hs'. cbn [snd structures] in Hs'.
      rewrite list_lookup_alter_eq, Hs in Hs'. done.
  - rewrite cached_lookup_ne in Hs' by done. by eapply Hinv.
Qed.

Lemma mapsInv_hashCode h s : wf h -> mapsInv h -> mapsInv (hashCode s h).2.
Proof.
  intros Hwf Hinv. destruct (structures h !! s) as [o|] eqn:Hs.
  - destruct (Hwf _ _ Hs) as [(us & Hus & _) _].
    rewrite (hashCode_spec h s o us) by done. simpl.
    case_decide; [by apply mapsInv_cached|done].
  - unfold hashCode. run. by rewrite Hs.
Qed.

Lemma mapsInv_transformHash h s :
  wf h -> mapsInv h -> mapsInv (transformHash s h).2.
Proof.
  intros Hwf Hinv. destruct (structures h !! s) as [o|] eqn:Hs.
  - destruct (Hwf _ _ Hs) as [(us & Hus & _) _].
    rewrite (transformHash_spec h s o us) by done. simpl.
    case_decide; [by apply mapsInv_cached|done].
  - unfold transformHash. run. by rewrite Hs.
Qed.

Lemma mapsInv_models h s : wf h -> mapsInv h -> mapsInv (models s h).2.
Proof.
  intros Hwf Hinv. destruct (structures h !! s) as [o|] eqn:Hs.
  - destruct (Hwf _ _ Hs) as [(us & Hus & _) _].
    rewrite (models_spec h s o us) by done. simpl.
    destruct (_models (_props o)); [done|by apply mapsInv_cached].
  - unfold models. run. by rewrite Hs.
Qed.

Lemma mapsInv_model h s : wf h -> mapsInv h -> mapsInv (model s h).2.
Proof.
  intros Hwf Hinv. destruct (structures h !! s) as [o|] eqn:Hs.
  - rewrite (model_unfold h s o Hs).
    destruct (_model (_props o)); [done|].
    destruct (_representativeModel (_props o)); [done|].
    destruct (_masterModel (_props o)); [done|].
    pose proof (mapsInv_models h s Hwf Hinv) as Hinv1.
    unfold resolveModels. unfold bind at 1.
    destruct (models s h) as [[ms|msg] h1]; simpl in *; [|done].
    destruct (1 <? length ms); [done|].
    change (mapsInv (cached h1 s (set_model (head ms)))).
    by apply mapsInv_cached.
  - unfold model. run. by rewrite Hs.
Qed.

Lemma mapsInv_transform h s m : wf h -> mapsInv h -> mapsInv (transform s m h).2.
Proof.
  intros Hwf Hinv.
  destruct (Mat4_isIdentity m) eqn:Hid;
    [unfold transform; by rewrite Hid|].
  destruct (Mat4_isRotationAndTranslation m) eqn:Hrot;
    [|unfold transform; by rewrite Hid, Hrot].
  destruct (structures h !! s) as [o|] eqn:Hs.
  - destruct (Hwf _ _ Hs) as [(us & Hus & _) _].
    rewrite (transform_unfold h s o us) by done.
    apply mapsInv_new; [by apply wf_newArray|by apply mapsInv_newArray].
  - unfold transform. rewrite Hid, Hrot. run. by rewrite Hs.
Qed.

Lemma reachable_mapsInv h : reachable h -> mapsInv h.
Proof.
  induction 1 as [|h us Hr IH|h a props Hr IH|h s Hr IH|h s Hr IH|h s Hr IH
                  |h s Hr IH|h s m Hr IH];
    pose proof (fun h Hr => reachable_wf h Hr) as Hwf.
  - intros s o us Hs. simpl in Hs. by rewrite lookup_nil in Hs.
  - apply mapsInv_newArray; auto.
  - apply mapsInv_new; auto.
  - apply mapsInv_hashCode; auto.
  - apply mapsInv_transformHash; auto.
  - apply mapsInv_models; auto.
  - apply mapsInv_model; auto.
  - apply mapsInv_transform; auto.
Qed.

Lemma unitMapOf_snoc us u :
  unitMapOf (us ++ [u]) = <[Unit.id u := u]> (unitMapOf us).
Proof. unfold unitMapOf. by rewrite foldl_app. Qed.

Lemma unitMapOf_lookup us k u :
  unitMapOf us !! k = Some u -> u ∈ us ∧ Unit.id u = k.
Proof.
  induction us as [|v us IH] using rev_ind;
    [unfold unitMapOf; simpl; by rewrite lookup_empty|].
  rewrite unitMapOf_snoc. destruct (decide (Unit.id v = k)) as [<-|Hne].
  - rewrite lookup_insert_eq. intros [= <-]. split; [|done].
    apply elem_of_app. right. by left.
  - rewrite lookup_insert_ne by done. intros [Hin Hid]%IH.
    split; [|done]. apply elem_of_app. by left.
Qed.

Lemma unitMapOf_is_Some us u : u ∈ us -> is_Some (unitMapOf us !! Unit.id u).
Proof.
  induction us as [|v us IH] using rev_ind; [by intros ?%elem_of_nil|].
  rewrite unitMapOf_snoc. intros Hin.
  destruct (decide (Unit.id v = Unit.id u)) as [Heq|Hne].
  - rewrite Heq, lookup_insert_eq. by eexists.
  - rewrite lookup_insert_ne by done.
    apply elem_of_app in Hin as [Hin| ->%list_elem_of_singleton]; [auto|done].
Qed.

Lemma unitIndexMapOf_snoc us u :
  unitIndexMapOf (us ++ [u]) = <[Unit.id u := length us]> (unitIndexMapOf us).
Proof.
  unfold unitIndexMapOf.
  rewrite length_app, Nat.add_1_r, seq_S. simpl.
  rewrite zip_with_app by (by rewrite length_seq).
  by rewrite foldl_app.
Qed.

Lemma unitIndexMapOf_lookup us k i :
  unitIndexMapOf us !! k = Some i -> exists u, us !! i = Some u ∧ Unit.id u = k.
Proof.
  induction us as [|v us IH] using rev_ind;
    [unfold unitIndexMapOf; simpl; by rewrite lookup_empty|].
  rewrite unitIndexMapOf_snoc. destruct (decide (Unit.id v = k)) as [<-|Hne].
  - rewrite lookup_insert_eq. intros [= <-]. exists v. split; [|done].
    by rewrite lookup_app_r, Nat.sub_diag.
  - rewrite lookup_insert_ne by done. intros (u & Hu & Hid)%IH.
    exists u. split; [|done]. by apply lookup_app_l_Some.
Qed.

Lemma unitIndexMapOf_is_Some us u :
  u ∈ us -> is_Some (unitIndexMapOf us !! Unit.id u).
Proof.
  induction us as [|v us IH] using rev_ind; [by intros ?%elem_of_nil|].
  rewrite unitIndexMapOf_snoc. intros Hin.
  destruct (decide (Unit.id v = Unit.id u)) as [Heq|Hne].
  - rewrite Heq, lookup_insert_eq. by eexists.
  - rewrite lookup_insert_ne by done.
    apply elem_of_app in Hin as [Hin| ->%list_elem_of_singleton]; [auto|done].
Qed.

Lemma NoDup_ids_eq (us : list Unit.t) u v :
  NoDup (map Unit.id us) -> u ∈ us -> v ∈ us -> Unit.id u = Unit.id v -> u = v.
Proof.
  intros Hnd [i Hi]%list_elem_of_lookup_1 [j Hj]%list_elem_of_lookup_1 Hid.
  assert (i = j) as ->; [|congruence].
  apply (NoDup_lookup (map Unit.id us) i j (Unit.id u)); [done| |];
    rewrite list_lookup_fmap; [by rewrite Hi|by rewrite Hj, Hid].
Qed.

(** X11.  The two maps of an instance agree with its units array: a key of
    [unitMap] is the id of the unit it maps to, a unit of the array; a key
    of [unitIndexMap] is the id of the unit at the position it maps to;
    the id of every unit of the array is a key of both.  When no two units
    share an id, [unitMap] sends the id of a unit to that unit and
    [unitIndexMap] sends it to the position of that unit. *)
Theorem unit_maps_agree h s :
  reachable h -> s < length (structures h) ->
  exists o us,
    structures h !! s = Some o ∧ arrays h !! units o = Some us
    ∧ (forall k u, unitMap o !! k = Some u -> u ∈ us ∧ Unit.id u = k)
    ∧ (forall k i, unitIndexMap o !! k = Some i ->
         exists u, us !! i = Some u ∧ Unit.id u = k)
    ∧ (forall u, u ∈ us ->
         is_Some (unitMap o !! Unit.id u) ∧ is_Some (unitIndexMap o !! Unit.id u))
    ∧ (NoDup (map Unit.id us) ->
       forall i u, us !! i = Some u ->
         unitMap o !! Unit.id u = Some u ∧ unitIndexMap o !! Unit.id u = Some i).
Proof.
  intros Hr Hlt.
  destruct (reachable_instance h s Hr Hlt) as (o & us & Hs & Hus & _).
  destruct (reachable_mapsInv h Hr s o us Hs Hus) as (us0 & Hsorted & Hum & Huim).
  pose proof (sortedArray_Permutation us0) as Hperm. rewrite <- Hsorted in Hperm.
  exists o, us. split; [done|]. split; [done|].
  assert (H1 : forall k u, unitMap o !! k = Some u -> u ∈ us ∧ Unit.id u = k).
  { intros k u. rewrite Hum. intros [Hin Hid]%unitMapOf_lookup.
    split; [by rewrite Hperm|done]. }
  assert (H2 : forall k i, unitIndexMap o !! k = Some i ->
                 exists u, us !! i = Some u ∧ Unit.id u = k).
  { intros k i. rewrite Huim. apply unitIndexMapOf_lookup. }
  assert (H3 : forall u, u ∈ us ->
                 is_Some (unitMap o !! Unit.id u)
                 ∧ is_Some (unitIndexMap o !! Unit.id u)).
  { intros u Hin. split.
    - rewrite Hum. apply unitMapOf_is_Some. by rewrite <- Hperm.
    - rewrite Huim. by apply unitIndexMapOf_is_Some. }
  split; [exact H1|]. split; [exact H2|]. split; [exact H3|].
  intros Hnd i u Hi.
  pose proof (list_elem_of_lookup_2 _ _ _ Hi) as Hin.
  destruct (H3 u Hin) as [[u' Hu'] [i' Hi']]. split.
  - destruct (H1 _ _ Hu') as [Hin' Hid].
    by rewrite Hu', (NoDup_ids_eq us u' u Hnd Hin' Hin Hid).
  - destruct (H2 _ _ Hi') as (v & Hv & Hid). rewrite Hi'. f_equal.
    apply (NoDup_lookup (map Unit.id us) i' i (Unit.id u)); [done| |];
      rewrite list_lookup_fmap; [rewrite Hv; simpl; by rewrite Hid|by rewrite Hi].
Qed.

(** X12.  [hasElement] reads the heap only.  When it holds of a location, some
    unit of the structure has the id of the location's unit and holds the
    location's element; the unit of the location need not be a unit of the
    structure.  When no two units of the structure share an id, it holds
    exactly of those locations. *)
Theorem hasElement_by_id h s e :
  reachable h -> s < length (structures h) ->
  exists o us b,
    structures h !! s = Some o ∧ arrays h !! units o = Some us
    ∧ hasElement s e h = (Return b, h)
    ∧ (b = true ->
       exists u, u ∈ us ∧ Unit.id u = Unit.id (unit e)
                 ∧ element e ∈ Unit.elements u)
    ∧ (NoDup (map Unit.id us) ->
       (exists u, u ∈ us ∧ Unit.id u = Unit.id (unit e)
                  ∧ element e ∈ Unit.elements u)
       -> b = true).
Proof.
  intros Hr Hlt.
  destruct (reachable_instance h s Hr Hlt) as (o & us & Hs & Hus & _).
  destruct (reachable_mapsInv h Hr s o us Hs Hus) as (us0 & Hsorted & Hum & _).
  pose proof (sortedArray_Permutation us0) as Hperm. rewrite <- Hsorted in Hperm.
  exists o, us. unfold hasElement. rewrite (bind_readStructure h s o) by done.
  destruct (unitMap o !! Unit.id (unit e)) as [u|] eqn:Hu.
  - eexists. split; [done|]. split; [done|]. split; [reflexivity|].
    rewrite Hum in Hu. pose proof Hu as [Hin Hid]%unitMapOf_lookup.
    rewrite <- Hperm in Hin. unfold SortedArray_has.
    rewrite bool_decide_eq_true. split.
    + intros He. by exists u.
    + intros Hnd (v & Hv & Hvid & He).
      by rewrite (NoDup_ids_eq us u v Hnd Hin Hv) by congruence.
  - exists false. split; [done|]. split; [done|]. split; [reflexivity|].
    split; [done|]. intros _ (v & Hv & Hvid & _).
    rewrite Hum in Hu. rewrite Hperm in Hv.
    destruct (unitMapOf_is_Some us0 v Hv) as [u' Hu'].
    rewrite Hvid in Hu'. congruence.
Qed.

(** *** The serial mapping *)

(** The elements of all units, in the order of the units. *)
Definition allElements (us : list Unit.t) : list Z := concat (map Unit.elements us).

Lemma setU32_middle A b B k v :
  length A = k -> setU32 (A ++ b :: B) k v = (A ++ [u32 v]) ++ B.
Proof.
  intros <-. unfold setU32. rewrite insert_app_r_alt by done.
  rewrite Nat.sub_diag. simpl. by rewrite <- app_assoc.
Qed.

Lemma inner_fold (i m : nat) (es : list Z) :
  forall j0 A A' B B',
    length A = m + j0 -> length A' = m + j0 ->
    length es <= length B -> length es <= length B' ->
    foldl (fun '(unitIndices, elementIndices) '(j, e) =>
             let mj := m + j in
             (setU32 unitIndices mj (Z.of_nat i), setU32 elementIndices mj e))
          (A ++ B, A' ++ B') (zip (seq j0 (length es)) es)
    = (A ++ replicate (length es) (u32 (Z.of_nat i)) ++ drop (length es) B,
       A' ++ map u32 es ++ drop (length es) B').
Proof.
  induction es as [|e es IH]; intros j0 A A' B B' HA HA' HB HB'; [done|].
  destruct B as [|b B]; [simpl in HB; lia|].
  destruct B' as [|b' B']; [simpl in HB'; lia|].
  cbn [length seq zip_with foldl].
  rewrite !setU32_middle by done.
  etrans; [apply (IH (S j0)); rewrite ?length_app; simpl in *; lia|].
  by rewrite <- !app_assoc.
Qed.

(** [unitElementCount] and [unitIndices] of units that begin at serial
    index [m] and at position [i] of the array. *)
Fixpoint offsetsFrom (m : nat) (us : list Unit.t) : list Z :=
  match us with
  | [] => []
  | u :: us => u32 (Z.of_nat m) :: offsetsFrom (m + length (Unit.elements u)) us
  end.

Fixpoint unitIndicesFrom (i : nat) (us : list Unit.t) : list Z :=
  match us with
  | [] => []
  | u :: us =>
      replicate (length (Unit.elements u)) (u32 (Z.of_nat i))
      ++ unitIndicesFrom (S i) us
  end.

Lemma outer_fold (us : list Unit.t) :
  forall i0 m U T A A' B B',
    length U = i0 -> length A = m -> length A' = m ->
    length us <= length T ->
    length (allElements us) <= length B -> length (allElements us) <= length B' ->
    foldl (fun '(unitElementCount, unitIndices, elementIndices, m) '(i, u) =>
             let unitElementCount := setU32 unitElementCount i (Z.of_nat m) in
             let elements := Unit.elements u in
             let '(unitIndices, elementIndices) :=
               foldl (fun '(unitIndices, elementIndices) '(j, e) =>
                        let mj := m + j in
                        (setU32 unitIndices mj (Z.of_nat i),
                         setU32 elementIndices mj e))
                     (unitIndices, elementIndices)
                     (zip (seq 0 (length elements)) elements) in
             (unitElementCount, unitIndices, elementIndices, m + length elements))
          (U ++ T, A ++ B, A' ++ B', m) (zip (seq i0 (length us)) us)
    = (U ++ offsetsFrom m us ++ drop (length us) T,
       A ++ unitIndicesFrom i0 us ++ drop (length (allElements us)) B,
       A' ++ map u32 (allElements us) ++ drop (length (allElements us)) B',
       m + length (allElements us)).
Proof.
  induction us as [|u us IH]; intros i0 m U T A A' B B' HU HA HA' HT HB HB'.
  { simpl. by rewrite Nat.add_0_r. }
  destruct T as [|t T]; [simpl in HT; lia|].
  unfold allElements in *. cbn [map concat] in *. rewrite length_app in *.
  pose proof (inner_fold i0 m (Unit.elements u) 0 A A' B B') as Hin.
  cbv zeta in Hin. cbn [length seq zip_with foldl].
  rewrite Hin by lia.
  rewrite setU32_middle by done.
  rewrite (app_assoc A), (app_assoc A').
  etrans;
    [apply (IH (S i0) (m + length (Unit.elements u))
              (U ++ [u32 (Z.of_nat m)]) T
              (A ++ replicate (length (Unit.elements u)) (u32 (Z.of_nat i0)))
              (A' ++ map u32 (Unit.elements u))
              (drop (length (Unit.elements u)) B)
              (drop (length (Unit.elements u)) B'));
     rewrite ?length_app, ?length_replicate, ?length_map, ?length_drop;
     simpl in *; lia|].
  rewrite <- !app_assoc, !drop_drop, map_app, <- !app_assoc. simpl.
  rewrite <- !app_assoc. by rewrite (Nat.add_assoc m).
Qed.

Lemma serial_lookup (us : list Unit.t) :
  forall i0 m0 i u j e,
    us !! i = Some u -> Unit.elements u !! j = Some e ->
    let m := length (allElements (take i us)) in
    offsetsFrom m0 us !! i = Some (u32 (Z.of_nat (m0 + m)))
    ∧ unitIndicesFrom i0 us !! (m + j) = Some (u32 (Z.of_nat (i0 + i)))
    ∧ map u32 (allElements us) !! (m + j) = Some (u32 e).
Proof.
  induction us as [|a us IH]; intros i0 m0 i u j e Hi Hj; [done|].
  pose proof (lookup_lt_Some _ _ _ Hj) as Hlt.
  destruct i as [|i]; simpl in Hi.
  - injection Hi as ->. simpl. rewrite !Nat.add_0_r. split; [done|].
    unfold allElements. simpl. rewrite map_app. split.
    + rewrite lookup_app_l by (by rewrite length_replicate).
      by rewrite lookup_replicate_2.
    + rewrite lookup_app_l by (by rewrite length_map).
      by rewrite list_lookup_fmap, Hj.
  - destruct (IH (S i0) (m0 + length (Unit.elements a)) i u j e Hi Hj)
      as (H1 & H2 & H3).
    unfold allElements in *. cbn [take map concat offsetsFrom unitIndicesFrom].
    rewrite length_app, map_app. cbv zeta in *. split; [|split].
    + simpl. rewrite H1. do 3 f_equal. lia.
    + rewrite lookup_app_r by (rewrite length_replicate; lia).
      rewrite length_replicate.
      replace (length (Unit.elements a)
               + length (concat (map Unit.elements (take i us))) + j
               - length (Unit.elements a))
        with (length (concat (map Unit.elements (take i us))) + j) by lia.
      rewrite H2. do 3 f_equal. lia.
    + rewrite lookup_app_r by (rewrite length_map; lia).
      rewrite length_map.
      replace (length (Unit.elements a)
               + length (concat (map Unit.elements (take i us))) + j
               - length (Unit.elements a))
        with (length (concat (map Unit.elements (take i us))) + j) by lia.
      exact H3.
Qed.

Lemma length_offsetsFrom us : forall m, length (offsetsFrom m us) = length us.
Proof. induction us as [|u us IH]; intros m; simpl; [done|by rewrite IH]. Qed.

Lemma length_unitIndicesFrom us :
  forall i, length (unitIndicesFrom i us) = length (allElements us).
Proof.
  unfold allElements.
  induction us as [|u us IH]; intros i; simpl; [done|].
  by rewrite !length_app, length_replicate, IH.
Qed.

(** X13.  The serial mapping numbers the elements of the structure unit by unit:
    the three arrays have one entry per unit, per element and per element;
    for the unit at position [i], whose elements begin at serial index [m]
    (the number of elements of the units before it), [unitElementCount[i]]
    is [m], and for its element at position [j], [unitIndices[m + j]] is
    [i] and [elementIndices[m + j]] is that element (all as unsigned 32-bit
    values).  The heap is only read. *)
Theorem serial_mapping_round_trip h s :
  reachable h -> s < length (structures h) ->
  exists o us sm,
    structures h !! s = Some o ∧ arrays h !! units o = Some us
    ∧ getSerialMapping s h = (Return sm, h)
    ∧ length (unitElementCount sm) = length us
    ∧ length (unitIndices sm) = length (allElements us)
    ∧ length (elementIndices sm) = length (allElements us)
    ∧ forall i u j e,
        us !! i = Some u -> Unit.elements u !! j = Some e ->
        let m := length (allElements (take i us)) in
        unitElementCount sm !! i = Some (u32 (Z.of_nat m))
        ∧ unitIndices sm !! (m + j) = Some (u32 (Z.of_nat i))
        ∧ elementIndices sm !! (m + j) = Some (u32 e).
Proof.
  intros Hr Hlt.
  destruct (reachable_instance h s Hr Hlt) as (o & us & Hs & Hus & _).
  pose proof (reachable_wf h Hr) as Hwf.
  exists o, us,
    {| unitElementCount := offsetsFrom 0 us;
       unitIndices := unitIndicesFrom 0 us;
       elementIndices := map u32 (allElements us) |}.
  split; [done|]. split; [done|]. split.
  - unfold getSerialMapping.
    rewrite (bind_readStructure h s o) by done.
    rewrite (bind_readArray h _ us) by done.
    unfold bind at 1. rewrite (elementCount_spec h s o us) by done.
    rewrite countElements_concat. fold (allElements us).
    destruct (Z.ltb_spec (Z.of_nat (length (allElements us))) 0) as [?|_]; [lia|].
    rewrite Nat2Z.id.
    pose proof (outer_fold us 0 0 [] (replicate (length us) 0%Z) [] []
                  (replicate (length (allElements us)) 0%Z)
                  (replicate (length (allElements us)) 0%Z)) as Hf.
    cbn [app] in Hf. cbv zeta in Hf. cbv zeta.
    rewrite Hf by (rewrite ?length_replicate; done).
    rewrite !drop_replicate, !Nat.sub_diag. cbn [replicate].
    by rewrite !app_nil_r.
  - cbn [unitElementCount unitIndices elementIndices].
    split; [apply length_offsetsFrom|].
    split; [apply length_unitIndicesFrom|].
    split; [apply length_map|].
    intros i u j e Hi Hj. apply (serial_lookup us 0 0 i u j e Hi Hj).
Qed.

(** *** The element location iterator *)

Notation "'let!' x := m 'in' k" := (bind m (fun x => k))
  (at level 10, x pattern, m at level 100, k at level 200).

(** What a client sees that walks the iterator,
    [while (it.hasNext) { const l = it.move(); ... l.unit, l.element ... }]:
    the unit and the element of the location at each round.  [None]: the
    loop has not ended after [fuel] rounds. *)
Fixpoint drain (fuel : nat) (it : ElementLocationIterator)
    : M (option (list (option Unit.t * option Z))) :=
  match fuel with
  | O => ret None
  | S fuel =>
      if hasNext it then
        let! it := move it in
        let! rest := drain fuel it in
        ret (cons (current_unit it, current_element it) <$> rest)
      else ret (Some [])
  end.

(** The locations of a structure: every element of every unit, unit by
    unit. *)
Definition locationsOf (us : list Unit.t) : list (option Unit.t * option Z) :=
  flat_map (fun u => map (fun e => (Some u, Some e)) (Unit.elements u)) us.

Lemma length_locationsOf us : length (locationsOf us) = length (allElements us).
Proof.
  unfold locationsOf, allElements.
  induction us as [|u us IH]; simpl; [done|].
  by rewrite !length_app, length_map, IH.
Qed.

(** The iterator that stands in unit [u], at position [i] of the array,
    on the element at position [j] of the unit. *)
Definition standing (s : SRef) (ce : option Z) (i : nat) (u : Unit.t) (j : Z)
    (hn : bool) : ElementLocationIterator :=
  {| structure := s; current_unit := Some u; current_element := ce;
     unitIndex := i; elements := Some (Unit.elements u);
     maxIdx := (Z.of_nat (length (Unit.elements u)) - 1)%Z; idx := j;
     hasNext := hn |}.

Section Walk.
Variables (h : Heap) (s : SRef) (o : Instance_) (us : list Unit.t).
Hypothesis Hs : structures h !! s = Some o.
Hypothesis Hus : arrays h !! units o = Some us.

Lemma move_next_element ce i u j hn :
  (-1 <= j < Z.of_nat (length (Unit.elements u)) - 1)%Z ->
  move (standing s ce i u j hn) h
  = (Return (standing s (Unit.elements u !! Z.to_nat (j + 1)) i u (j + 1)
               (if (j + 1 =? Z.of_nat (length (Unit.elements u)) - 1)%Z
                then bool_decide (i + 1 < length us) else hn)), h).
Proof.
  intros Hj. unfold move, advance, standing. cbn [idx maxIdx].
  rewrite (proj2 (Z.ltb_lt _ _)) by lia.
  destruct (Z.eqb_spec (j + 1) (Z.of_nat (length (Unit.elements u)) - 1)).
  - run. rewrite Hs. simpl. rewrite Hus. simpl.
    by rewrite (proj2 (Z.ltb_ge _ _)) by lia.
  - run. by rewrite (proj2 (Z.ltb_ge _ _)) by lia.
Qed.

Lemma move_next_unit ce i u j hn u' :
  (Z.of_nat (length (Unit.elements u)) - 1 <= j)%Z ->
  us !! (i + 1) = Some u' ->
  move (standing s ce i u j hn) h
  = (Return (standing s (Unit.elements u' !! 0) (i + 1) u' 0 hn), h).
Proof.
  intros Hj Hu'. unfold move, advance, standing. cbn [idx maxIdx].
  rewrite (proj2 (Z.ltb_ge _ _)) by lia.
  run. rewrite Hs. simpl. rewrite Hus. simpl. by rewrite Hu'.
Qed.

Lemma move_past_end ce i u j hn :
  (Z.of_nat (length (Unit.elements u)) - 1 <= j)%Z ->
  us !! (i + 1) = None ->
  move (standing s ce i u j hn) h
  = (Return (standing s (Unit.elements u !! 0) (i + 1) u 0 false), h).
Proof.
  intros Hj Hu'. unfold move, advance, standing. cbn [idx maxIdx].
  rewrite (proj2 (Z.ltb_ge _ _)) by lia.
  run. rewrite Hs. simpl. rewrite Hus. simpl. by rewrite Hu'.
Qed.

Lemma drain_step fuel it it' l :
  hasNext it = true -> move it h = (Return it', h) ->
  drain fuel it' h = (Return (Some l), h) ->
  drain (S fuel) it h
  = (Return (Some ((current_unit it', current_element it') :: l)), h).
Proof.
  intros Hn Hm Hd. simpl. rewrite Hn. unfold bind at 1. rewrite Hm.
  unfold bind at 1. by rewrite Hd.
Qed.

Lemma drain_done fuel it :
  hasNext it = false -> drain (S fuel) it h = (Return (Some []), h).
Proof. intros Hn. simpl. by rewrite Hn. Qed.

(** The locations that remain when the iterator stands on element [j] of
    the unit at position [i]. *)
Definition remaining (i : nat) (u : Unit.t) (j : Z)
    : list (option Unit.t * option Z) :=
  map (fun e => (Some u, Some e)) (drop (Z.to_nat (j + 1)) (Unit.elements u))
  ++ locationsOf (drop (S i) us).

Lemma remaining_next_element i u j :
  (-1 <= j < Z.of_nat (length (Unit.elements u)) - 1)%Z ->
  remaining i u j
  = (Some u, Unit.elements u !! Z.to_nat (j + 1)) :: remaining i u (j + 1).
Proof.
  intros Hj. unfold remaining.
  destruct (lookup_lt_is_Some_2 (Unit.elements u) (Z.to_nat (j + 1)))
    as [e He]; [lia|].
  rewrite (drop_S _ _ _ He), He. simpl.
  by replace (Z.to_nat (j + 1 + 1)) with (S (Z.to_nat (j + 1))) by lia.
Qed.

Lemma remaining_next_unit i u j u' :
  (Z.of_nat (length (Unit.elements u)) - 1 <= j)%Z ->
  us !! (i + 1) = Some u' -> Unit.elements u' ≠ [] ->
  remaining i u j = (Some u', Unit.elements u' !! 0) :: remaining (i + 1) u' 0.
Proof.
  intros Hj Hu' Hne. unfold remaining.
  rewrite drop_ge by lia. simpl.
  rewrite Nat.add_1_r in *. rewrite (drop_S _ _ _ Hu').
  unfold locationsOf. simpl.
  destruct (Unit.elements u') as [|e es]; [done|]. simpl. by rewrite drop_0.
Qed.

Lemma remaining_past_end i u j :
  (Z.of_nat (length (Unit.elements u)) - 1 <= j)%Z ->
  us !! (i + 1) = None -> remaining i u j = [].
Proof.
  intros Hj Hu'. unfold remaining.
  rewrite drop_ge by lia. simpl.
  apply lookup_ge_None in Hu'. by rewrite drop_ge by lia.
Qed.

(** Every unit after the first has an element. *)
Definition laterUnitsFilled : Prop :=
  forall i u, us !! S i = Some u -> Unit.elements u ≠ [].

Lemma walk_enumerates :
  laterUnitsFilled ->
  (forall u, 2 <= length us -> last us = Some u -> 2 <= length (Unit.elements u)) ->
  forall r ce i u j fuel,
    us !! i = Some u ->
    (-1 <= j <= Z.of_nat (length (Unit.elements u)) - 1)%Z ->
    length (remaining i u j) = r -> r < fuel ->
    drain fuel
      (standing s ce i u j
         (if (j <? Z.of_nat (length (Unit.elements u)) - 1)%Z then true
          else bool_decide (i + 1 < length us))) h
    = (Return (Some (remaining i u j)), h).
Proof.
  intros Hmid Hlast. induction r as [|r IH]; intros ce i u j fuel Hi Hj Hr Hfuel;
    (destruct fuel as [|fuel]; [lia|]).
  - (* nothing remains *)
    apply nil_length_inv in Hr as Hnil. rewrite Hnil.
    destruct (Z.ltb_spec j (Z.of_nat (length (Unit.elements u)) - 1)) as [Hlt|Hge].
    { rewrite remaining_next_element in Hnil by lia. done. }
    destruct (us !! (i + 1)) as [u'|] eqn:Hu'.
    { rewrite (remaining_next_unit i u j u') in Hnil; try done.
      apply (Hmid i). by rewrite <- Nat.add_1_r. }
    apply drain_done. simpl. apply bool_decide_eq_false_2.
    apply lookup_ge_None in Hu'. lia.
  - destruct (Z.ltb_spec j (Z.of_nat (length (Unit.elements u)) - 1)) as [Hlt|Hge].
    + rewrite remaining_next_element in * by lia. simpl in Hr.
      erewrite drain_step; [| done | by apply move_next_element; lia | ].
      * reflexivity.
      * destruct (Z.eqb_spec (j + 1) (Z.of_nat (length (Unit.elements u)) - 1))
          as [Heq|Hne].
        -- specialize (IH (Unit.elements u !! Z.to_nat (j + 1)) i u (j + 1)%Z fuel).
           rewrite (proj2 (Z.ltb_ge _ _)) in IH by lia.
           apply IH; [done|lia|lia|lia].
        -- specialize (IH (Unit.elements u !! Z.to_nat (j + 1)) i u (j + 1)%Z fuel).
           rewrite (proj2 (Z.ltb_lt _ _)) in IH by lia.
           apply IH; [done|lia|lia|lia].
    + destruct (us !! (i + 1)) as [u'|] eqn:Hu'.
      2:{ rewrite remaining_past_end in Hr by done. done. }
      assert (Hne : Unit.elements u' ≠ []).
      { apply (Hmid i). by rewrite <- Nat.add_1_r. }
      rewrite (remaining_next_unit i u j u') in * by done. simpl in Hr.
      pose proof (lookup_lt_Some _ _ _ Hu') as Hlt.
      rewrite bool_decide_eq_true_2 by done.
      erewrite drain_step; [| done | by apply move_next_unit | ].
      * reflexivity.
      * specialize (IH (Unit.elements u' !! 0) (i + 1) u' 0%Z fuel).
        assert (Hflag : (if (0 <? Z.of_nat (length (Unit.elements u')) - 1)%Z
                         then true else bool_decide (i + 1 + 1 < length us))
                        = true).
        { destruct (Z.ltb_spec 0 (Z.of_nat (length (Unit.elements u')) - 1))
            as [|Hone]; [done|].
          apply bool_decide_eq_true_2.
          destruct (decide (i + 1 + 1 < length us)) as [|Hend]; [done|].
          assert (Hl : last us = Some u').
          { rewrite last_lookup. rewrite <- Hu'. f_equal. lia. }
          specialize (Hlast u' ltac:(lia) Hl). lia. }
        rewrite Hflag in IH. apply IH; [done| |lia|lia].
        destruct (Unit.elements u'); [done|]. simpl. lia.
Qed.

(** The last unit, which is not the first, has exactly one element. *)
Lemma walk_repeats_last u1 e1 :
  laterUnitsFilled ->
  2 <= length us -> last us = Some u1 -> Unit.elements u1 = [e1] ->
  forall r ce i u j fuel,
    us !! i = Some u ->
    (-1 <= j <= Z.of_nat (length (Unit.elements u)) - 1)%Z ->
    (0 <= j)%Z ∨ i = 0 ->
    length (remaining i u j) = r -> r + 1 < fuel ->
    drain fuel (standing s ce i u j true) h
    = (Return (Some (remaining i u j ++ [(Some u1, Some e1)])), h).
Proof.
  intros Hmid Hlen Hlast1 He1.
  induction r as [|r IH]; intros ce i u j fuel Hi Hj Hj0 Hr Hfuel;
    (destruct fuel as [|fuel]; [lia|]).
  - apply nil_length_inv in Hr as Hnil. rewrite Hnil.
    destruct (Z.ltb_spec j (Z.of_nat (length (Unit.elements u)) - 1)) as [Hlt|Hge].
    { rewrite remaining_next_element in Hnil by lia. done. }
    destruct (us !! (i + 1)) as [u'|] eqn:Hu'.
    { rewrite (remaining_next_unit i u j u') in Hnil; try done.
      apply (Hmid i). by rewrite <- Nat.add_1_r. }
    assert (u = u1) as ->.
    { rewrite last_lookup in Hlast1. apply lookup_ge_None in Hu'.
      replace (pred (length us)) with i in Hlast1; [congruence|].
      apply lookup_lt_Some in Hi. lia. }
    destruct fuel as [|fuel]; [lia|].
    erewrite drain_step; [| done | by apply move_past_end | by apply drain_done].
    simpl. by rewrite He1.
  - destruct (Z.ltb_spec j (Z.of_nat (length (Unit.elements u)) - 1)) as [Hlt|Hge].
    + rewrite remaining_next_element in * by lia. simpl in Hr.
      assert (Hnotlast : i + 1 < length us).
      { destruct (decide (i + 1 < length us)) as [|Hend]; [done|].
        assert (u = u1) as ->.
        { rewrite last_lookup in Hlast1.
          replace (pred (length us)) with i in Hlast1; [congruence|].
          apply lookup_lt_Some in Hi. lia. }
        rewrite He1 in Hlt. simpl in Hlt.
        apply lookup_lt_Some in Hi. lia. }
      erewrite drain_step; [| done | by apply move_next_element; lia | ].
      * reflexivity.
      * rewrite bool_decide_eq_true_2 by done.
        replace (if (j + 1 =? Z.of_nat (length (Unit.elements u)) - 1)%Z
                 then true else true) with true by (by case_match).
        apply IH; [done|lia|lia|lia|lia].
    + destruct (us !! (i + 1)) as [u'|] eqn:Hu'.
      2:{ rewrite remaining_past_end in Hr by done. done. }
      assert (Hne : Unit.elements u' ≠ []).
      { apply (Hmid i). by rewrite <- Nat.add_1_r. }
      rewrite (remaining_next_unit i u j u') in * by done. simpl in Hr.
      erewrite drain_step; [| done | by apply move_next_unit | ].
      * reflexivity.
      * apply IH; [done| |lia|lia|lia].
        destruct (Unit.elements u'); [done|]. simpl. lia.
Qed.

End Walk.

Lemma allElements_nil_locations us :
  length (allElements us) = 0 -> locationsOf us = [].
Proof.
  rewrite <- length_locationsOf. apply nil_length_inv.
Qed.

Lemma elementLocations_spec h s o us :
  wf h -> structures h !! s = Some o -> arrays h !! units o = Some us ->
  elementLocations s h
  = (Return
       (match us !! 0 with
        | Some u =>
            if bool_decide (0 < length (allElements us))
            then standing s None 0 u (-1) true
            else {| structure := s; current_unit := None; current_element := None;
                    unitIndex := 0; elements := None; maxIdx := 0; idx := -1;
                    hasNext := false |}
        | None =>
            {| structure := s; current_unit := None; current_element := None;
               unitIndex := 0; elements := None; maxIdx := 0; idx := -1;
               hasNext := false |}
        end), h).
Proof.
  intros Hwf Hs Hus. unfold elementLocations, new_ElementLocationIterator.
  unfold bind at 1. rewrite (elementCount_spec h s o us) by done.
  rewrite countElements_concat. fold (allElements us).
  destruct (Z.ltb_spec 0 (Z.of_nat (length (allElements us)))) as [Hpos|Hzero].
  - rewrite (bind_readStructure h s o) by done.
    rewrite (bind_readArray h _ us) by done.
    destruct us as [|u us']; [simpl in Hpos; lia|]. simpl.
    rewrite bool_decide_eq_true_2 by lia. done.
  - destruct (us !! 0); [|done].
    by rewrite bool_decide_eq_false_2 by lia.
Qed.

(** X14.  Walking the iterator of a structure, [while (it.hasNext) it.move()],
    ends and visits every element of every unit exactly once, unit by
    unit in array order, when every unit after the first has an element
    and the last unit, if it is not the first, has at least two.  The
    heap is only read. *)
Theorem iterator_enumerates h s o us :
  reachable h -> structures h !! s = Some o -> arrays h !! units o = Some us ->
  (forall i u, us !! S i = Some u -> Unit.elements u ≠ []) ->
  (forall u, 2 <= length us -> last us = Some u -> 2 <= length (Unit.elements u)) ->
  exists it,
    elementLocations s h = (Return it, h)
    ∧ forall fuel, length (allElements us) < fuel ->
        drain fuel it h = (Return (Some (locationsOf us)), h).
Proof.
  intros Hr Hs Hus Hmid Hlast. pose proof (reachable_wf h Hr) as Hwf.
  eexists. split; [by apply (elementLocations_spec h s o us)|].
  intros fuel Hfuel.
  destruct us as [|u us'] eqn:Eus.
  { destruct fuel; [lia|]. by apply drain_done. }
  cbn [lookup list_lookup]. rewrite <- Eus in *.
  assert (Hu : us !! 0 = Some u) by (by rewrite Eus).
  case_bool_decide as Hpos.
  - pose proof (walk_enumerates h s o us Hs Hus Hmid Hlast
                  (length (locationsOf us)) None 0 u (-1)%Z fuel Hu) as Hw.
    assert (Hrem : remaining us 0 u (-1) = locationsOf us).
    { unfold remaining. rewrite Eus. simpl. by rewrite drop_0. }
    rewrite Hrem in Hw.
    assert (Hflag : (if (-1 <? Z.of_nat (length (Unit.elements u)) - 1)%Z
                     then true else bool_decide (0 + 1 < length us)) = true).
    { destruct (Z.ltb_spec (-1) (Z.of_nat (length (Unit.elements u)) - 1))
        as [|Hempty]; [done|].
      apply bool_decide_eq_true_2.
      rewrite Eus in *. unfold allElements in Hpos. simpl in *.
      destruct (Unit.elements u); [|simpl in *; lia].
      destruct us'; simpl in *; lia. }
    rewrite Hflag in Hw. apply Hw; [lia|done|by rewrite length_locationsOf].
  - rewrite allElements_nil_locations by lia.
    destruct fuel; [lia|]. by apply drain_done.
Qed.

(** X15.  When the last unit of a structure is not the first and has exactly one
    element (and every unit after the first has an element), walking the
    iterator visits every element once and then the last element a second
    time: [hasNext] is not updated when [advance] enters a unit, so it is
    still true when the walk stands on the only element of the last
    unit. *)
Theorem iterator_repeats_last h s o us u e :
  reachable h -> structures h !! s = Some o -> arrays h !! units o = Some us ->
  (forall i v, us !! S i = Some v -> Unit.elements v ≠ []) ->
  2 <= length us -> last us = Some u -> Unit.elements u = [e] ->
  exists it,
    elementLocations s h = (Return it, h)
    ∧ forall fuel, length (allElements us) + 1 < fuel ->
        drain fuel it h
        = (Return (Some (locationsOf us ++ [(Some u, Some e)])), h).
Proof.
  intros Hr Hs Hus Hmid Hlen Hlast He. pose proof (reachable_wf h Hr) as Hwf.
  eexists. split; [by apply (elementLocations_spec h s o us)|].
  intros fuel Hfuel.
  destruct us as [|u0 us'] eqn:Eus; [simpl in Hlen; lia|].
  cbn [lookup list_lookup]. rewrite <- Eus in *.
  assert (Hu : us !! 0 = Some u0) by (by rewrite Eus).
  assert (Hpos : 0 < length (allElements us)).
  { assert (Hin : u ∈ us).
    { rewrite last_lookup in Hlast. by eapply list_elem_of_lookup_2. }
    unfold allElements.
    apply list_elem_of_In, in_split in Hin as (l1 & l2 & ->).
    rewrite map_app, concat_app, length_app. simpl. rewrite He. simpl. lia. }
  rewrite bool_decide_eq_true_2 by done.
  pose proof (walk_repeats_last h s o us Hs Hus u e Hmid Hlen Hlast He
                (length (locationsOf us)) None 0 u0 (-1)%Z fuel Hu) as Hw.
  assert (Hrem : remaining us 0 u0 (-1) = locationsOf us).
  { unfold remaining. rewrite Eus. simpl. by rewrite drop_0. }
  rewrite Hrem in Hw. apply Hw; [lia|by right|done|by rewrite length_locationsOf].
Qed.

(** *** Polymer counts *)

Lemma polymer_folds (polymerElements : Unit.t -> list Z) (us : list Unit.t) :
  forall r n, (0 <= n <= r)%Z ->
    let r' := foldl (fun polymerResidueCount u =>
                       (polymerResidueCount
                        + Z.of_nat (length (polymerElements u)))%Z) r us in
    let n' := foldl (fun polymerUnitCount u =>
                       if 0 <? length (polymerElements u)
                       then (polymerUnitCount + 1)%Z else polymerUnitCount) n us in
    (n <= n' <= r')%Z ∧ (n' <= n + Z.of_nat (length us))%Z ∧ (r <= r')%Z
    ∧ (r' = r <-> n' = n).
Proof.
  induction us as [|u us IH]; intros r n Hn; simpl; [lia|].
  destruct (Nat.ltb_spec 0 (length (polymerElements u))) as [Hpos|Hzero].
  - destruct (IH (r + Z.of_nat (length (polymerElements u)))%Z (n + 1)%Z)
      as (H1 & H2 & H3 & H4); [lia|]. cbv zeta in *. lia.
  - destruct (IH (r + Z.of_nat (length (polymerElements u)))%Z n)
      as (H1 & H2 & H3 & H4); [lia|]. cbv zeta in *.
    replace (Z.of_nat (length (polymerElements u))) with 0%Z in * by lia.
    rewrite Z.add_0_r in *. lia.
Qed.

(** X16.  The number of units that have a polymer element is at most the number
    of polymer elements of all units and at most the number of units, and
    the two counts are zero together.  Both functions only read the
    heap. *)
Theorem polymer_counts (polymerElements : Unit.t -> list Z) h s :
  reachable h -> s < length (structures h) ->
  exists o us r n,
    structures h !! s = Some o ∧ arrays h !! units o = Some us
    ∧ getPolymerResidueCount polymerElements s h = (Return r, h)
    ∧ getPolymerUnitCount polymerElements s h = (Return n, h)
    ∧ (0 <= n <= r)%Z ∧ (n <= Z.of_nat (length us))%Z
    ∧ (r = 0%Z <-> n = 0%Z).
Proof.
  intros Hr Hlt.
  destruct (reachable_instance h s Hr Hlt) as (o & us & Hs & Hus & _).
  unfold getPolymerResidueCount, getPolymerUnitCount.
  rewrite !(bind_readStructure h s o) by done.
  rewrite !(bind_readArray h _ us) by done.
  eexists o, us, _, _. split; [done|]. split; [done|].
  split; [reflexivity|]. split; [reflexivity|].
  destruct (polymer_folds polymerElements us 0 0 ltac:(lia))
    as (H1 & H2 & H3 & H4). cbv zeta in *. lia.
Qed.

End Facts.
End ViewFacts.

(** ** Part IV, continued: properties of [ofModel] and [ofTrajectory] *)

Module BuildFacts.

Import Struct StructFacts StructViews ViewFacts StructBuild.

Section Facts.
Context `{Collaborators}.

(** *** The loops end by their own condition *)

Lemma mergeChains_S (m : FullModel) fuel c sa mc :
  mergeChains (S fuel) m c sa mc
  = if bool_decide (c + 1 < seg_count (chainAtomSegments m))
       && (seg_offsets (chainAtomSegments m) (c + 1)%nat
           - seg_offsets (chainAtomSegments m) c =? 1)%Z
       && (seg_offsets (chainAtomSegments m) (c + 2)%nat
           - seg_offsets (chainAtomSegments m) (c + 1)%nat =? 1)%Z
    then
      if bool_decide (getEntityFromChain m c ≠ getEntityFromChain m (c + 1))
      then (c, true, mc)
      else if bool_decide (auth_asym_id m c ≠ auth_asym_id m (c + 1))
           then (c, true, mc)
           else mergeChains fuel m (c + 1) true true
    else (c, sa, mc).
Proof. reflexivity. Qed.

Lemma mergeChains_fuel (m : FullModel) :
  forall fuel c singleAtomResidues multiChain,
    seg_count (chainAtomSegments m) - c <= fuel ->
    mergeChains (S fuel) m c singleAtomResidues multiChain
    = mergeChains fuel m c singleAtomResidues multiChain.
Proof.
  induction fuel as [|fuel IH]; intros c sa mc Hfuel.
  - rewrite mergeChains_S. rewrite bool_decide_eq_false_2 by lia. done.
  - rewrite (mergeChains_S m (S fuel) c sa mc), (mergeChains_S m fuel c sa mc).
    by rewrite IH by lia.
Qed.

Lemma mergeChains_spec (m : FullModel) :
  forall fuel c sa mc c' sa' mc',
    mergeChains fuel m c sa mc = (c', sa', mc') ->
    c <= c'
    ∧ (c < seg_count (chainAtomSegments m) -> c' < seg_count (chainAtomSegments m))
    ∧ (sa' = false -> c' = c ∧ sa = false ∧ mc' = mc).
Proof.
  induction fuel as [|fuel IH]; intros c sa mc c' sa' mc' Heq; simpl in Heq.
  - injection Heq as <- <- <-. auto.
  - destruct (bool_decide (c + 1 < seg_count (chainAtomSegments m))) eqn:Hc;
      simpl in Heq; [|injection Heq as <- <- <-; auto].
    apply bool_decide_eq_true in Hc.
    repeat case_match; try (injection Heq as <- <- <-; by auto).
    apply IH in Heq as (Hle & Hlt & Hsa).
    split; [lia|]. split; [intros _; apply Hlt; lia|].
    intros Hf. by destruct (Hsa Hf) as (_ & ? & _).
Qed.

Lemma chainLoop_fuel (m : FullModel) :
  forall fuel c builder,
    seg_count (chainAtomSegments m) - c <= fuel ->
    chainLoop (S fuel) m c builder = chainLoop fuel m c builder.
Proof.
  induction fuel as [|fuel IH]; intros c builder Hfuel.
  - cbn [chainLoop]. rewrite bool_decide_eq_false_2 by lia. done.
  - cbn [chainLoop].
    destruct (bool_decide (c < seg_count (chainAtomSegments m))); [|done].
    destruct (mergeChains _ m c _ false) as [[c' sa'] mc'] eqn:Hmerge.
    apply mergeChains_spec in Hmerge as (Hle & _).
    cbv zeta. rewrite <- IH by lia. reflexivity.
Qed.

(** *** The builder of [ofModel] *)

Lemma built_addUnits (setOf : nat -> nat -> list Z) kind model op traits
    (l : list (nat * nat)) :
  forall b, built b ->
    built (foldl (fun b '(i, start) =>
                    addUnit b kind model op (setOf i start) traits) b l).
Proof.
  induction l as [|[i start] l IH]; intros b Hb; simpl; [done|].
  apply IH. by constructor.
Qed.

Lemma built_partitionByAtom model indices b multiChain :
  built b -> built (partitionAtomicUnitByAtom model indices b multiChain).
Proof.
  intros Hb. unfold partitionAtomicUnitByAtom. cbv zeta.
  constructor. apply built_addUnits. by constructor.
Qed.

Lemma built_partitionByResidue model indices b multiChain :
  built b -> built (partitionAtomicUnitByResidue model indices b multiChain).
Proof.
  intros Hb. unfold partitionAtomicUnitByResidue. cbv zeta.
  constructor. apply built_addUnits. by constructor.
Qed.

Lemma built_chainLoop m : forall fuel c b, built b -> built (chainLoop fuel m c b).
Proof.
  induction fuel as [|fuel IH]; intros c b Hb; cbn [chainLoop]; [done|].
  destruct (bool_decide (c < seg_count (chainAtomSegments m))); [|done].
  destruct (mergeChains _ m c _ false) as [[c' sa'] mc']. cbv zeta.
  apply IH. destruct sa'; [by apply built_partitionByAtom|].
  destruct (_ || _); [by apply built_partitionByResidue|by constructor].
Qed.

Lemma built_addCoarseUnits b model elements kind :
  built b -> built (addCoarseUnits b model elements kind).
Proof.
  unfold addCoarseUnits. cbv zeta.
  generalize (seq 0 (seg_count (chainElementSegments elements))).
  intros l. revert b. induction l as [|cI l IH]; intros b Hb; simpl; [done|].
  apply IH. by constructor.
Qed.

Lemma built_modelBuilder m : built (modelBuilder m).
Proof.
  unfold modelBuilder. cbv zeta.
  repeat case_match; repeat apply built_addCoarseUnits;
    apply built_chainLoop; constructor.
Qed.

(** *** [ofModel] puts every atom in one unit *)

Lemma ofBounds_app (a b c : Z) :
  (a <= b <= c)%Z ->
  SortedArray_ofBounds a b ++ SortedArray_ofBounds b c = SortedArray_ofBounds a c.
Proof.
  intros Habc. unfold SortedArray_ofBounds.
  replace (Z.to_nat (c - a)) with (Z.to_nat (b - a) + Z.to_nat (c - b)) by lia.
  rewrite seq_app, map_app. f_equal.
  replace (0 + Z.to_nat (b - a)) with (Z.to_nat (b - a) + 0) by lia.
  rewrite <- fmap_add_seq, <- list_fmap_compose.
  apply map_ext. intros i. simpl. lia.
Qed.

Lemma length_ofBounds (a b : Z) :
  length (SortedArray_ofBounds a b) = Z.to_nat (b - a).
Proof. unfold SortedArray_ofBounds. by rewrite length_map, length_seq. Qed.

Lemma offsets_mono (seg : SegmentOffsets) :
  (forall c, c < seg_count seg -> (seg_offsets seg c <= seg_offsets seg (c + 1))%Z) ->
  forall a b, a <= b <= seg_count seg -> (seg_offsets seg a <= seg_offsets seg b)%Z.
Proof.
  intros Hstep a b. induction b as [|b IH]; intros Hab.
  - by replace a with 0 by lia.
  - destruct (decide (a = S b)) as [->|Hne]; [done|].
    specialize (Hstep b ltac:(lia)). rewrite Nat.add_1_r in Hstep.
    specialize (IH ltac:(lia)). lia.
Qed.

Lemma allElements_app us us' :
  allElements (us ++ us') = allElements us ++ allElements us'.
Proof. unfold allElements. by rewrite map_app, concat_app. Qed.

(** The units a step adds to a builder: atomic units of the model that
    hold, together, each of the given elements once. *)
Definition addsAtoms (model : Model.t) (elements : list Z)
    (b b' : StructureBuilder) : Prop :=
  exists new,
    b_units b' = b_units b ++ new
    ∧ Forall (fun u => Unit.kind u = Unit.Atomic ∧ Unit.model u = model) new
    ∧ allElements new ≡ₚ elements.

Lemma emitted_units b b' new :
  b_units b' = b_units b ++ new -> emitted b' = emitted b ++ map Unit.elements new.
Proof. unfold emitted. intros ->. by rewrite map_app. Qed.

Lemma partitionByAtom_adds (model : Model.t) (indices : list Z)
    (b : StructureBuilder) (multiChain : bool) :
  validBuckets
    (GridLookup3D (Model.atomicConformation model) indices (Some 8192%Z))
    (length indices) ->
  addsAtoms model indices b (partitionAtomicUnitByAtom model indices b multiChain).
Proof.
  intros [Hall Hperm].
  destruct (partitionByAtom_group model indices b multiChain)
    as (new & Hunits & Hnew & _).
  exists new. split; [exact Hunits|]. split.
  { eapply Forall_impl; [exact Hnew|]. simpl. tauto. }
  pose proof (emitted_units _ _ _ Hunits) as Hem.
  unfold partitionAtomicUnitByAtom in Hem. cbv zeta in Hem.
  set (buckets := GridLookup3D _ _ _) in *.
  change (emitted (endChainGroup ?b)) with (emitted b) in Hem.
  rewrite (emitted_fold
             (fun i start =>
                map (fun j =>
                       default 0%Z
                         (array buckets !! (start + j) ≫= fun p => indices !! p))
                    (seq 0 (default 0 (count buckets !! i))))) in Hem.
  change (emitted (beginChainGroup b)) with (emitted b) in Hem.
  apply app_inv_head in Hem.
  pose proof (atom_sets buckets indices _ _ [] Hall eq_refl) as Hsets.
  simpl in Hsets. rewrite Hsets in Hem.
  unfold allElements. rewrite <- Hem.
  transitivity (map (IntData.getAt indices)
                  (concat (zip_with (slice buckets) (offset buckets) (count buckets)))).
  - clear. generalize (count buckets).
    induction (offset buckets) as [|o os IH]; intros [|c cs]; simpl; try done.
    by rewrite map_app, IH.
  - rewrite Hperm. by rewrite QueryFacts.getAt_all.
Qed.

Lemma addUnit_adds b (model : Model.t) op elements traits :
  addsAtoms model elements b (addUnit b Unit.Atomic model op elements traits).
Proof.
  eexists [_]. split; [reflexivity|]. split.
  - by repeat constructor.
  - unfold allElements. simpl. by rewrite app_nil_r.
Qed.

Section Chains.
Variable m : FullModel.

Let chains := chainAtomSegments m.
Let size (c : nat) : Z := (seg_offsets chains (c + 1) - seg_offsets chains c)%Z.

(** The grid lookup keeps its contract on every index set it is given. *)
Hypothesis lookup_valid : forall indices,
  validBuckets
    (GridLookup3D (Model.atomicConformation (core m)) indices (Some 8192%Z))
    (length indices).

(** The chain offsets ascend. *)
Hypothesis offsets_ascend : forall c,
  c < seg_count chains -> (seg_offsets chains c <= seg_offsets chains (c + 1))%Z.

(** No chain goes to the residue partitioner: a chain is made of
    single-atom residues, or it is not a water chain and has at most
    200000 atoms. *)
Hypothesis not_by_residue : forall c,
  c < seg_count chains ->
  chainResidueCount m c = size c
  ∨ ((size c <= 200000)%Z ∧ isWaterChain m c = false).

Lemma chainLoop_covers :
  forall fuel c b,
    c <= seg_count chains -> seg_count chains - c <= fuel ->
    addsAtoms (core m)
      (SortedArray_ofBounds (seg_offsets chains c)
         (seg_offsets chains (seg_count chains)))
      b (chainLoop fuel m c b).
Proof.
  induction fuel as [|fuel IH]; intros c b Hc Hfuel.
  { assert (c = seg_count chains) as -> by lia.
    exists []. simpl. rewrite app_nil_r. split; [done|]. split; [done|].
    unfold SortedArray_ofBounds. by rewrite Z.sub_diag. }
  cbn [chainLoop]. fold chains.
  destruct (decide (c < seg_count chains)) as [Hlt|Hge].
  2:{ rewrite bool_decide_eq_false_2 by done.
      assert (c = seg_count chains) as -> by lia.
      exists []. simpl. rewrite app_nil_r. split; [done|]. split; [done|].
      unfold SortedArray_ofBounds. by rewrite Z.sub_diag. }
  rewrite bool_decide_eq_true_2 by done.
  destruct (mergeChains _ m c _ false) as [[c' sa'] mc'] eqn:Hmerge.
  apply mergeChains_spec in Hmerge as (Hle & Hlt' & Hsa).
  specialize (Hlt' Hlt). fold chains in Hlt'. cbv zeta.
  set (elements := SortedArray_ofBounds (seg_offsets chains c)
                     (seg_offsets chains (c' + 1))).
  set (b1 := if sa' then _ else _).
  assert (Hb1 : addsAtoms (core m) elements b b1).
  { subst b1. destruct sa'; [by apply partitionByAtom_adds|].
    destruct (Hsa eq_refl) as (-> & Hsa0 & ->).
    apply Z.eqb_neq in Hsa0.
    destruct (not_by_residue c Hlt) as [Heq|[Hsize ->]]; [done|].
    rewrite orb_false_r.
    assert (Hsmall : (200000 <? Z.of_nat (length elements))%Z = false).
    { apply Z.ltb_ge. subst elements. rewrite length_ofBounds.
      unfold size in Hsize. lia. }
    rewrite Hsmall. apply addUnit_adds. }
  destruct Hb1 as (new1 & Hunits1 & Hall1 & Hperm1).
  destruct (IH (c' + 1) b1 ltac:(lia) ltac:(lia))
    as (new2 & Hunits2 & Hall2 & Hperm2).
  exists (new1 ++ new2). rewrite Hunits2, Hunits1, <- app_assoc.
  split; [done|]. split; [by apply Forall_app|].
  rewrite allElements_app, Hperm1, Hperm2. subst elements.
  rewrite ofBounds_app; [done|].
  split; apply (offsets_mono chains offsets_ascend); lia.
Qed.

End Chains.

Lemma addCoarseUnits_units b model elements kind :
  exists new,
    b_units (addCoarseUnits b model elements kind) = b_units b ++ new
    ∧ Forall (fun u => Unit.kind u = kind ∧ Unit.model u = model) new.
Proof.
  unfold addCoarseUnits. cbv zeta.
  generalize (seq 0 (seg_count (chainElementSegments elements))).
  intros l. revert b. induction l as [|cI l IH]; intros b; simpl.
  - exists []. by rewrite app_nil_r.
  - destruct (IH (addUnit b kind model SymmetryOperator_Default
                    (SortedArray_ofBounds
                       (seg_offsets (chainElementSegments elements) cI)
                       (seg_offsets (chainElementSegments elements) (cI + 1)))
                    Unit.Trait_None)) as (new & -> & Hall).
    eexists (_ :: new). simpl. rewrite <- app_assoc. split; [done|].
    constructor; [done|exact Hall].
Qed.

(** [Unit.isAtomic]. *)
Definition isAtomicUnit (u : Unit.t) : bool :=
  match Unit.kind u with Unit.Atomic => true | _ => false end.

Lemma filter_atomic_app (atomic coarse : list Unit.t) :
  Forall (fun u => Unit.kind u = Unit.Atomic) atomic ->
  Forall (fun u => Unit.kind u ≠ Unit.Atomic) coarse ->
  List.filter isAtomicUnit (atomic ++ coarse) = atomic.
Proof.
  intros Ha Hc. rewrite List.filter_app.
  replace (List.filter isAtomicUnit coarse) with (@nil Unit.t).
  - rewrite app_nil_r. induction Ha as [|u us Hu _ IH]; [done|].
    simpl. unfold isAtomicUnit at 1. rewrite Hu. by rewrite IH.
  - induction Hc as [|u us Hu _ IH]; [done|].
    simpl. unfold isAtomicUnit at 1. by destruct (Unit.kind u).
Qed.

Lemma modelBuilder_units (m : FullModel) :
  (forall indices,
     validBuckets
       (GridLookup3D (Model.atomicConformation (core m)) indices (Some 8192%Z))
       (length indices)) ->
  (forall c, c < seg_count (chainAtomSegments m) ->
     (seg_offsets (chainAtomSegments m) c
      <= seg_offsets (chainAtomSegments m) (c + 1))%Z) ->
  (forall c, c < seg_count (chainAtomSegments m) ->
     chainResidueCount m c
     = (seg_offsets (chainAtomSegments m) (c + 1)
        - seg_offsets (chainAtomSegments m) c)%Z
     ∨ ((seg_offsets (chainAtomSegments m) (c + 1)
         - seg_offsets (chainAtomSegments m) c <= 200000)%Z
        ∧ isWaterChain m c = false)) ->
  allElements (List.filter isAtomicUnit (b_units (modelBuilder m)))
  ≡ₚ SortedArray_ofBounds (seg_offsets (chainAtomSegments m) 0)
       (seg_offsets (chainAtomSegments m) (seg_count (chainAtomSegments m)))
  ∧ Forall (fun u => Unit.model u = core m) (b_units (modelBuilder m)).
Proof.
  intros Hvalid Hasc Hroute.
  set (b0 := Builder {| parent := None; coordinateSystem := None;
                        label := Some (Model.label (core m));
                        masterModel := None; representativeModel := None |}).
  destruct (chainLoop_covers m Hvalid Hasc Hroute
              (seg_count (chainAtomSegments m)) 0 b0 ltac:(lia) ltac:(lia))
    as (atomic & Hunits & Hall & Hperm).
  simpl in Hunits.
  assert (Hshape : exists coarse,
            b_units (modelBuilder m) = atomic ++ coarse
            ∧ Forall (fun u => Unit.kind u ≠ Unit.Atomic
                               ∧ Unit.model u = core m) coarse).
  { unfold modelBuilder. cbv zeta. fold b0.
    set (b1 := chainLoop _ m 0 b0) in *.
    destruct (coarse_isDefined m);
      [|exists []; by rewrite app_nil_r].
    destruct (addCoarseUnits_units b1 (core m) (spheres m) Unit.Spheres)
      as (sp & Hsp & Hspall).
    set (b2 := if (0 <? coarse_count (spheres m))%Z then _ else b1).
    assert (Hb2 : exists new, b_units b2 = atomic ++ new
                   ∧ Forall (fun u => Unit.kind u ≠ Unit.Atomic
                                      ∧ Unit.model u = core m) new).
    { subst b2. destruct (0 <? coarse_count (spheres m))%Z.
      - exists sp. rewrite Hsp, Hunits. split; [done|].
        eapply Forall_impl; [exact Hspall|]. simpl. by intros u [-> ->].
      - exists []. by rewrite app_nil_r. }
    destruct Hb2 as (new & Hb2 & Hnew).
    destruct (0 <? coarse_count (gaussians m))%Z; [|by exists new].
    destruct (addCoarseUnits_units b2 (core m) (gaussians m) Unit.Gaussians)
      as (ga & Hga & Hgaall).
    exists (new ++ ga). rewrite Hga, Hb2, <- app_assoc. split; [done|].
    apply Forall_app. split; [done|].
    eapply Forall_impl; [exact Hgaall|]. simpl. by intros u [-> ->]. }
  destruct Hshape as (coarse & -> & Hcoarse). split.
  - rewrite filter_atomic_app; [done| |].
    + eapply Forall_impl; [exact Hall|]. simpl. tauto.
    + eapply Forall_impl; [exact Hcoarse|]. simpl. tauto.
  - apply Forall_app. split.
    + eapply Forall_impl; [exact Hall|]. simpl. tauto.
    + eapply Forall_impl; [exact Hcoarse|]. simpl. tauto.
Qed.

Lemma props_foldl {X} (f : StructureBuilder -> X -> StructureBuilder) (l : list X) :
  (forall b x, b_props (f b x) = b_props b) ->
  forall b, b_props (foldl f b l) = b_props b.
Proof.
  intros Hf. induction l as [|x l IH]; intros b; simpl; [done|].
  by rewrite IH, Hf.
Qed.

Lemma props_chainLoop m : forall fuel c b, b_props (chainLoop fuel m c b) = b_props b.
Proof.
  induction fuel as [|fuel IH]; intros c b; cbn [chainLoop]; [done|].
  destruct (bool_decide _); [|done].
  destruct (mergeChains _ m c _ false) as [[c' sa'] mc']. cbv zeta.
  rewrite IH. destruct sa'; [|destruct (_ || _)]; [| |done].
  - unfold partitionAtomicUnitByAtom. cbv zeta. simpl.
    rewrite props_foldl; [done|]. by intros b0 [i start].
  - unfold partitionAtomicUnitByResidue. cbv zeta. simpl.
    rewrite props_foldl; [done|]. by intros b0 [i start].
Qed.

Lemma props_modelBuilder m : parent (b_props (modelBuilder m)) = None.
Proof.
  unfold modelBuilder, addCoarseUnits. cbv zeta.
  repeat case_match; rewrite ?props_foldl by done; by rewrite props_chainLoop.
Qed.

Lemma ofModel_returns (m : FullModel) h :
  exists o,
    ofModel m h
    = (Return (length (structures h)),
       {| arrays := arrays h ++ [b_units (modelBuilder m)];
          structures := structures h ++ [o] |})
    ∧ units o = length (arrays h).
Proof.
  unfold ofModel.
  destruct (getStructure_returns (modelBuilder m) h) as (o & Hget & Hu & _).
  - apply built_ids, built_modelBuilder.
  - intros p. by rewrite props_modelBuilder.
  - by exists o.
Qed.

Lemma ofModel_reachable (m : FullModel) h :
  reachable h -> reachable (ofModel m h).2.
Proof.
  intros Hr. unfold ofModel, getStructure, create. rewrite bind_newArray.
  apply reachable_new. by apply reachable_newArray.
Qed.

(** X17.  [ofModel] on a model whose chain offsets ascend, with a grid lookup
    that keeps its contract, when no chain goes to the residue
    partitioner: the structure has the units of the builder in the order
    in which they were emitted, unit [i] under the id [i]; its atomic
    units hold, together, every atom of the model from the first chain
    offset to the last exactly once; every unit references the model. *)
Theorem ofModel_partitions_atoms (m : FullModel) h :
  (forall indices,
     validBuckets
       (GridLookup3D (Model.atomicConformation (core m)) indices (Some 8192%Z))
       (length indices)) ->
  (forall c, c < seg_count (chainAtomSegments m) ->
     (seg_offsets (chainAtomSegments m) c
      <= seg_offsets (chainAtomSegments m) (c + 1))%Z) ->
  (forall c, c < seg_count (chainAtomSegments m) ->
     chainResidueCount m c
     = (seg_offsets (chainAtomSegments m) (c + 1)
        - seg_offsets (chainAtomSegments m) c)%Z
     ∨ ((seg_offsets (chainAtomSegments m) (c + 1)
         - seg_offsets (chainAtomSegments m) c <= 200000)%Z
        ∧ isWaterChain m c = false)) ->
  exists s h1 o us,
    ofModel m h = (Return s, h1)
    ∧ structures h1 !! s = Some o ∧ arrays h1 !! units o = Some us
    ∧ map Unit.id us = map Z.of_nat (seq 0 (length us))
    ∧ allElements (List.filter isAtomicUnit us)
      ≡ₚ SortedArray_ofBounds (seg_offsets (chainAtomSegments m) 0)
           (seg_offsets (chainAtomSegments m) (seg_count (chainAtomSegments m)))
    ∧ Forall (fun u => Unit.model u = core m) us.
Proof.
  intros Hvalid Hasc Hroute.
  destruct (ofModel_returns m h) as (o & Hof & Hu).
  destruct (modelBuilder_units m Hvalid Hasc Hroute) as [Hperm Hmodel].
  eexists _, _, o, (b_units (modelBuilder m)). split; [exact Hof|]. simpl.
  split; [by rewrite lookup_app_r, Nat.sub_diag|].
  split; [by rewrite Hu, lookup_app_r, Nat.sub_diag|].
  split; [apply built_ids, built_modelBuilder|]. done.
Qed.

(** *** What the residue partitioner emits *)

(** Segments that follow one another from position [st] to position [hi]. *)
Fixpoint chained (st : nat) (segs : list IntData.Segment) (hi : nat) : Prop :=
  match segs with
  | [] => st = hi
  | s :: segs =>
      IntData.start s = st ∧ st < IntData.end_ s
      ∧ chained (IntData.end_ s) segs hi
  end.

Lemma segmentsAcc_chained seg set n : forall pos idx st,
  st < pos -> chained st (IntData.segmentsAcc seg set n pos idx st) (pos + n).
Proof.
  induction n as [|n IH]; intros pos idx st Hlt; simpl.
  - split; [done|]. split; [done|]. lia.
  - case_decide.
    + replace (pos + S n) with (S pos + n) by lia. apply IH. lia.
    + simpl. split; [done|]. split; [done|].
      replace (pos + S n) with (S pos + n) by lia. apply IH. lia.
Qed.

Lemma transientSegments_chained seg set :
  chained 0 (IntData.transientSegments seg set) (length set).
Proof.
  unfold IntData.transientSegments, IntData.segmentsIn.
  rewrite Nat.sub_0_r. destruct (length set) as [|n] eqn:E; [done|].
  replace (S n) with (1 + n) by lia. apply segmentsAcc_chained. lia.
Qed.

Lemma ofBounds_lookup (a b : Z) (p : nat) :
  SortedArray_ofBounds a b !! p
  = if decide (p < Z.to_nat (b - a)) then Some (a + Z.of_nat p)%Z else None.
Proof.
  unfold SortedArray_ofBounds. rewrite list_lookup_fmap.
  case_decide.
  - by rewrite lookup_seq_lt.
  - by rewrite lookup_seq_ge by lia.
Qed.

Lemma chained_lt st s segs hi : chained st (s :: segs) hi -> st < hi.
Proof.
  revert st s. induction segs as [|s' segs IH]; intros st s (Hst & Hlt & Hrest).
  - simpl in Hrest. lia.
  - apply IH in Hrest. lia.
Qed.

Lemma chained_last st segs hi :
  chained st segs hi -> st <= default st (IntData.start <$> last segs).
Proof.
  revert st. induction segs as [|s segs IH]; intros st Hch; [done|].
  destruct Hch as (Hst & Hlt & Hrest). destruct segs as [|s' segs].
  - simpl. lia.
  - rewrite last_cons_cons. specialize (IH _ Hrest).
    destruct (last (s' :: segs)) as [sl|] eqn:El; simpl in *; [lia|].
    by apply last_None in El.
Qed.

(** The atoms the partitioner's loop collects for the residues of [segs]:
    those of every residue but the last. *)
Lemma chained_ranges (a b : Z) (segs : list IntData.Segment) : forall st,
  chained st segs (Z.to_nat (b - a)) ->
  flat_map (fun s =>
              residueRange
                (Some (IntData.getAt (SortedArray_ofBounds a b) (IntData.start s)))
                (SortedArray_ofBounds a b !! IntData.end_ s))
           segs
  = SortedArray_ofBounds (a + Z.of_nat st)
      (a + Z.of_nat (default st (IntData.start <$> last segs))).
Proof.
  induction segs as [|s segs IH]; intros st Hch.
  { simpl. unfold SortedArray_ofBounds. by rewrite Z.sub_diag. }
  destruct Hch as (Hst & Hlt & Hrest).
  cbn [flat_map].
  destruct segs as [|s' segs].
  - simpl in Hrest.
    rewrite (ofBounds_lookup a b (IntData.end_ s)), decide_False by lia.
    simpl. rewrite Hst.
    unfold SortedArray_ofBounds. by rewrite Z.sub_diag.
  - pose proof (chained_lt _ _ _ _ Hrest) as Hend.
    pose proof (chained_last _ _ _ Hrest) as Hmono.
    assert (Hstart : IntData.getAt (SortedArray_ofBounds a b) (IntData.start s)
                     = (a + Z.of_nat st)%Z).
    { unfold IntData.getAt. rewrite ofBounds_lookup, decide_True by lia.
      simpl. by rewrite Hst. }
    rewrite Hstart.
    rewrite (ofBounds_lookup a b (IntData.end_ s)), decide_True by lia.
    rewrite (IH _ Hrest).
    change (residueRange (Some (a + Z.of_nat st)%Z)
              (Some (a + Z.of_nat (IntData.end_ s))%Z))
      with (SortedArray_ofBounds (a + Z.of_nat st) (a + Z.of_nat (IntData.end_ s))).
    rewrite last_cons_cons in *.
    destruct (last (s' :: segs)) as [sl|] eqn:El;
      [|by apply last_None in El].
    simpl in *. rewrite ofBounds_app by lia. done.
Qed.

Lemma lookups_flat_map {A B} (G : option A -> list B) (l : list A) :
  flat_map (fun k => G (l !! k)) (seq 0 (length l)) = flat_map (fun x => G (Some x)) l.
Proof.
  induction l as [|x l IH] using rev_ind; [done|].
  rewrite length_app, Nat.add_1_r, seq_S, !flat_map_app. simpl.
  rewrite lookup_app_r, Nat.sub_diag by done. simpl. f_equal.
  rewrite <- IH. rewrite !flat_map_concat_map. f_equal.
  apply map_ext_in. intros k Hk%in_seq.
  by rewrite lookup_app_l by lia.
Qed.

Lemma bucket_sets {B} (F : option nat -> list B) (bk : Buckets) :
  forall os cs pre,
    Forall2 (fun o c => o + c <= length (array bk)) os cs ->
    count bk = pre ++ cs ->
    concat (map (fun '(i, start) =>
                   flat_map (fun j => F (array bk !! (start + j)))
                     (seq 0 (default 0 (count bk !! i))))
                (zip (seq (length pre) (length os)) os))
    = flat_map (fun k => F (Some k)) (concat (zip_with (slice bk) os cs)).
Proof.
  intros os cs pre Hall. revert pre.
  induction Hall as [|o c os cs Hoc Hall IH]; intros pre Hcount; [done|].
  simpl. rewrite flat_map_app. f_equal.
  - rewrite Hcount, lookup_app_r, Nat.sub_diag by done. simpl.
    unfold slice. rewrite !flat_map_concat_map. f_equal.
    rewrite <- (map_map (fun j => array bk !! (o + j)) F (seq 0 c)).
    rewrite slice_lookups by done. by rewrite map_map.
  - specialize (IH (pre ++ [c])). rewrite length_app in IH. simpl in IH.
    rewrite Nat.add_1_r in IH. apply IH. by rewrite <- app_assoc.
Qed.

Lemma partitionByResidue_sets (model : Model.t) (a b : Z)
    (builder : StructureBuilder) (multiChain : bool) :
  (forall startIndices cellCount,
     validBuckets
       (GridLookup3D (Model.atomicConformation model) startIndices cellCount)
       (length startIndices)) ->
  let indices := SortedArray_ofBounds a b in
  let residues :=
    IntData.transientSegments (Model.residueAtomSegments model) indices in
  exists sets,
    emitted (partitionAtomicUnitByResidue model indices builder multiChain)
    = emitted builder ++ sets
    ∧ concat sets
      ≡ₚ SortedArray_ofBounds a
           (a + Z.of_nat (default 0 (IntData.start <$> last residues))).
Proof.
  intros Hvalid indices residues.
  unfold partitionAtomicUnitByResidue. cbv zeta. fold indices. fold residues.
  set (startIndices := map _ residues). set (endIndices := map _ residues).
  set (cellCount := fmap _ _).
  destruct (Hvalid startIndices cellCount) as [Hall Hperm].
  set (buckets := GridLookup3D _ _ _) in *.
  change (emitted (endChainGroup ?b)) with (emitted b).
  rewrite (emitted_fold
             (fun i start =>
                flat_map (fun j =>
                   let k := array buckets !! (start + j) in
                   residueRange (k ≫= fun k => startIndices !! k)
                                (k ≫= fun k => mjoin (endIndices !! k)))
                  (seq 0 (default 0 (count buckets !! i))))).
  change (emitted (beginChainGroup builder)) with (emitted builder).
  eexists. split; [reflexivity|].
  pose proof (bucket_sets
                (fun k => residueRange (k ≫= fun k => startIndices !! k)
                                       (k ≫= fun k => mjoin (endIndices !! k)))
                buckets _ _ [] Hall eq_refl) as Hsets.
  simpl in Hsets. cbv zeta. rewrite Hsets. clear Hsets.
  rewrite Hperm. simpl.
  assert (Hlen : length startIndices = length residues)
    by (subst startIndices; by rewrite length_map).
  rewrite Hlen.
  assert (Heq :
    flat_map (fun k => residueRange (startIndices !! k) (mjoin (endIndices !! k)))
             (seq 0 (length residues))
    = flat_map (fun s =>
                  residueRange
                    (Some (IntData.getAt indices (IntData.start s)))
                    (indices !! IntData.end_ s))
               residues).
  { etrans;
      [|exact (lookups_flat_map
                 (fun os : option IntData.Segment =>
                    match os with
                    | Some s =>
                        residueRange
                          (Some (IntData.getAt indices (IntData.start s)))
                          (indices !! IntData.end_ s)
                    | None => []
                    end)
                 residues)].
    apply flat_map_ext. intros k.
    subst startIndices endIndices. rewrite !list_lookup_fmap.
    by destruct (residues !! k). }
  rewrite Heq.
  pose proof (transientSegments_chained (Model.residueAtomSegments model) indices)
    as Hch. fold residues in Hch.
  subst indices. rewrite length_ofBounds in Hch.
  rewrite (chained_ranges a b residues 0 Hch).
  by rewrite Z.add_0_r.
Qed.

(** X21.  The residue partitioner on the atoms [a], ..., [b - 1] of a chain, with
    a grid lookup that keeps its contract: the units it emits hold,
    together, each atom of every residue but the last exactly once, and no
    atom of the last residue of the chain ([endIndices] of the last residue
    is read after the end of the index set). *)
Theorem residue_partition_loses_last_residue (model : Model.t) (a b : Z)
    (builder : StructureBuilder) (multiChain : bool) :
  (forall startIndices cellCount,
     validBuckets
       (GridLookup3D (Model.atomicConformation model) startIndices cellCount)
       (length startIndices)) ->
  let indices := SortedArray_ofBounds a b in
  let residues :=
    IntData.transientSegments (Model.residueAtomSegments model) indices in
  exists sets,
    emitted (partitionAtomicUnitByResidue model indices builder multiChain)
    = emitted builder ++ sets
    ∧ concat sets
      ≡ₚ SortedArray_ofBounds a
           (a + Z.of_nat (default 0 (IntData.start <$> last residues))).
Proof. apply partitionByResidue_sets. Qed.

(** *** [ofTrajectory] *)

(** What [ofTrajectory] keeps of a unit when it renumbers it. *)
Definition frameOf (u : Unit.t) : Unit.Kind * Model.t * list Z :=
  (Unit.kind u, Unit.model u, Unit.elements u).

(** The inner loop of [ofTrajectory]. *)
Definition renumbered (units : list Unit.t) (count : Z) (us : list Unit.t)
    : list Unit.t :=
  foldl (fun units u =>
           units ++ [Unit.create (Z.of_nat (length units))
                       (Unit.invariantId u + count) (Unit.chainGroupId u + count)
                       (Unit.traits u) (Unit.kind u) (Unit.model u)
                       (Unit.operator u) (Unit.elements u)])
        units us.

Lemma renumbered_spec us : forall units count,
  idsFrom 0 units ->
  idsFrom 0 (renumbered units count us)
  ∧ map frameOf (renumbered units count us) = map frameOf units ++ map frameOf us.
Proof.
  induction us as [|u us IH]; intros units count Hids.
  - simpl. by rewrite app_nil_r.
  - set (u' := Unit.create (Z.of_nat (length units))
                 (Unit.invariantId u + count) (Unit.chainGroupId u + count)
                 (Unit.traits u) (Unit.kind u) (Unit.model u)
                 (Unit.operator u) (Unit.elements u)).
    change (renumbered units count (u :: us))
      with (renumbered (units ++ [u']) count us).
    destruct (IH (units ++ [u']) count) as [Hids' Hframes];
      [by apply idsFrom_snoc|].
    split; [exact Hids'|].
    rewrite Hframes, map_app, <- app_assoc. done.
Qed.

(** The units [ofTrajectory] collects. *)
Fixpoint trajectoryUnitsOf (trajectory : list FullModel) (units : list Unit.t)
    (count : Z) : list Unit.t :=
  match trajectory with
  | [] => units
  | m :: trajectory =>
      let units := renumbered units count (b_units (modelBuilder m)) in
      trajectoryUnitsOf trajectory units (Z.of_nat (length units))
  end.

Lemma trajectoryUnits_returns trajectory : forall units count h,
  exists h1,
    trajectoryUnits trajectory units count h
    = (Return (trajectoryUnitsOf trajectory units count), h1)
    ∧ (reachable h -> reachable h1).
Proof.
  induction trajectory as [|m trajectory IH]; intros units count h.
  - exists h. by split.
  - cbn [trajectoryUnits trajectoryUnitsOf].
    destruct (ofModel_returns m h) as (o & Hof & Hu).
    pose proof (ofModel_reachable m h) as Hreach. rewrite Hof in Hreach.
    unfold bind at 1. rewrite Hof.
    rewrite (bind_readStructure _ _ o)
      by (simpl; by rewrite lookup_app_r, Nat.sub_diag).
    rewrite (bind_readArray _ _ (b_units (modelBuilder m)))
      by (simpl; by rewrite Hu, lookup_app_r, Nat.sub_diag).
    fold (renumbered units count (b_units (modelBuilder m))).
    destruct (IH (renumbered units count (b_units (modelBuilder m)))
                (Z.of_nat (length (renumbered units count (b_units (modelBuilder m)))))
                {| arrays := arrays h ++ [b_units (modelBuilder m)];
                   structures := structures h ++ [o] |})
      as (h1 & Hrun & Hr1).
    exists h1. split; [exact Hrun|]. auto.
Qed.

Lemma trajectoryUnitsOf_spec trajectory : forall units count,
  idsFrom 0 units ->
  idsFrom 0 (trajectoryUnitsOf trajectory units count)
  ∧ map frameOf (trajectoryUnitsOf trajectory units count)
    = map frameOf units
      ++ flat_map (fun m => map frameOf (b_units (modelBuilder m))) trajectory.
Proof.
  induction trajectory as [|m trajectory IH]; intros units count Hids; simpl.
  - by rewrite app_nil_r.
  - destruct (renumbered_spec (b_units (modelBuilder m)) units count Hids)
      as [Hids1 Hframes1].
    destruct (IH _ (Z.of_nat (length (renumbered units count
                                        (b_units (modelBuilder m))))) Hids1)
      as [Hids2 Hframes2].
    split; [exact Hids2|]. by rewrite Hframes2, Hframes1, <- app_assoc.
Qed.

(** X18.  [ofTrajectory] of no model is [Structure.Empty] itself.  Of a
    trajectory with a first model, it is a new structure that holds, for
    every model in order, the units that [ofModel] builds for it (their
    kind, model and elements), unit [i] under the id [i]; its
    representative model is the first model, so [model] returns the first
    model however many models the units reference.  The heap it leaves is
    one that arises. *)
Theorem ofTrajectory_frames (Empty : SRef) (first : FullModel)
    (rest : list FullModel) h :
  ofTrajectory Empty [] h = (Return Empty, h)
  ∧ exists s h1 o us,
      ofTrajectory Empty (first :: rest) h = (Return s, h1)
      ∧ structures h1 !! s = Some o ∧ arrays h1 !! units o = Some us
      ∧ map Unit.id us = map Z.of_nat (seq 0 (length us))
      ∧ map frameOf us
        = flat_map (fun m => map frameOf (b_units (modelBuilder m))) (first :: rest)
      ∧ model s h1 = (Return (Some (core first)), h1)
      ∧ (reachable h -> reachable h1).
Proof.
  split; [done|].
  unfold ofTrajectory.
  destruct (trajectoryUnits_returns (first :: rest) [] 0 h) as (h0 & Hrun & Hr0).
  destruct (trajectoryUnitsOf_spec (first :: rest) [] 0) as [Hids Hframes];
    [done|].
  set (units := trajectoryUnitsOf (first :: rest) [] 0) in *.
  unfold bind at 1. rewrite Hrun. rewrite bind_newArray. unfold create.
  set (h0' := (newArray units h0).2).
  assert (Ha : arrays h0' !! length (arrays h0) = Some units).
  { subst h0'. simpl. by rewrite lookup_app_r, Nat.sub_diag. }
  match goal with |- context [new_Structure _ ?props _] =>
    destruct (new_Structure_returns h0' _ _ props Ha)
      as (o & Hnew & Hu & _ & _ & Hm & _ & _ & _ & Hrep & _); [done|];
    pose proof (reachable_new h0' (length (arrays h0)) props) as Hreach
  end.
  assert (Hsorted : isSorted units = true).
  { apply isSorted_Sorted. by eapply idsFrom_Sorted. }
  rewrite Hnew in Hreach.
  unfold afterInit in Hnew, Hreach. rewrite Hsorted in Hnew, Hreach.
  subst h0'. simpl in *.
  eexists _, _, o, units. split; [exact Hnew|]. simpl.
  assert (Hs : (structures h0 ++ [o]) !! length (structures h0) = Some o)
    by (by rewrite lookup_app_r, Nat.sub_diag).
  split; [exact Hs|].
  split; [by rewrite Hu, lookup_app_r, Nat.sub_diag|].
  split; [exact Hids|]. split; [exact Hframes|]. split.
  - rewrite (model_unfold _ _ o) by exact Hs. by rewrite Hm, Hrep.
  - intros Hr. apply Hreach. apply (reachable_newArray h0). auto.
Qed.

End Facts.
End BuildFacts.

(** ** Part V: the model run on concrete inputs

    All of this is computed with the reference collaborators. *)

Module Examples.

Import Struct StructFacts Reference.

Definition modelA : Model.t :=
  {| Model.id := "A"; Model.label := "model A"; Model.atomicConformation := ();
     Model.residueAtomSegments := twoResidues |}.

Definition modelB : Model.t :=
  {| Model.id := "B"; Model.label := "model B"; Model.atomicConformation := ();
     Model.residueAtomSegments := twoResidues |}.

Definition unitOf (id : Z) (model : Model.t) (elements : list Z) : Unit.t :=
  Unit.create id id id Unit.Trait_None Unit.Atomic model Default elements.

(** Translation by (1, 0, 0), and a scaling by 2. *)
Definition translation : Mat4 :=
  [1; 0; 0; 0;  0; 1; 0; 0;  0; 0; 1; 0;  1; 0; 0; 1]%Z.


(** One structure of two units of one model. *)
Definition twoUnits : list Unit.t :=
  [unitOf 0 modelA [0; 1; 2]%Z; unitOf 1 modelA [3; 4]%Z].

Definition heap1 : Heap :=
  (new_Structure 0 noProps (newArray twoUnits emptyHeap).2).2.

Lemma heap1_reachable : reachable heap1.
Proof. apply reachable_new, reachable_newArray, reachable_empty. Qed.

(** The same heap with both hashes cached. *)
Definition heap1_warm : Heap := (transformHash 0 (hashCode 0 heap1).2).2.

Lemma heap1_warm_reachable : reachable heap1_warm.
Proof. apply reachable_transformHash, reachable_hashCode, heap1_reachable. Qed.

(** The structure of [heap1] and a moved copy of it. *)
Definition heap2 : Heap := (transform 0 translation heap1).2.

Lemma heap2_reachable : reachable heap2.
Proof. apply reachable_transform, heap1_reachable. Qed.

(** An array that is not sorted by unit id. *)
Definition unsortedUnits : list Unit.t :=
  [unitOf 2 modelA [3; 4]%Z; unitOf 1 modelA [0; 1; 2]%Z].

Definition heap3 : Heap := (newArray unsortedUnits emptyHeap).2.

(** Units of two models, nothing designated. *)
Definition heap4 : Heap :=
  (new_Structure 0 noProps
     (newArray [unitOf 0 modelA [0; 1]%Z; unitOf 1 modelB [0; 1]%Z] emptyHeap).2).2.

Lemma heap4_reachable : reachable heap4.
Proof. apply reachable_new, reachable_newArray, reachable_empty. Qed.

(** Units of model B only, in a structure whose representative model is A. *)
Definition heap5 : Heap :=
  (new_Structure 0
     {| parent := None; coordinateSystem := None; label := None;
        masterModel := None; representativeModel := Some modelA |}
     (newArray [unitOf 0 modelB [0; 1]%Z] emptyHeap).2).2.

Lemma hashCode_pure_witness :
  exists o us o' us',
    structures heap1 !! 0 = Some o ∧ arrays heap1 !! units o = Some us
    ∧ structures heap1_warm !! 0 = Some o'
    ∧ arrays heap1_warm !! units o' = Some us'
    ∧ (exists h1,
         hashCode 0 heap1 = (Return (structureHash (pairsOf us)), h1)
         ∧ hashCode 0 h1 = (Return (structureHash (pairsOf us)), h1)
         ∧ arrays h1 = arrays heap1)
    ∧ (pairsOf us = pairsOf us' ->
       (hashCode 0 heap1).1 = (hashCode 0 heap1_warm).1).
Proof.
  apply (hashCode_pure heap1 0 heap1_warm 0).
  - apply heap1_reachable.
  - vm_compute. lia.
  - apply heap1_warm_reachable.
  - vm_compute. lia.
Defined.

Lemma transform_identity_witness :
  transform 0 identity4 heap1 = (Return 0, heap1).
Proof. apply (transform_identity heap1 0 identity4). reflexivity. Defined.



(** Every rotation plus translation passes the test of [transform]; what
    the test rejects is not expressible as one. *)
Lemma rotationPlusTranslation_accepted (m : Mat4) :
  rotationPlusTranslation m -> Mat4_isRotationAndTranslation m = true.
Proof.
  intros (H3 & H7 & H11 & H15 & _ & _ & _ & _ & _ & _ & Hdet).
  by apply bool_decide_eq_true_2.
Qed.


(** The constructor on the unsorted array of [heap3]: the caller's array
    itself now holds the units in ascending id order. *)
Example constructor_sorts_in_place :
  map (map Unit.id) (arrays heap3) = [[2; 1]%Z]
  ∧ map (map Unit.id) (arrays (new_Structure 0 noProps heap3).2) = [[1; 2]%Z].
Proof. split; reflexivity. Qed.

Lemma constructor_owns_array_witness :
  exists s h1 o,
    new_Structure 0 noProps heap3 = (Return s, h1)
    ∧ structures h1 !! s = Some o
    ∧ units o = 0
    ∧ (isSorted unsortedUnits = true ↔ Sorted byId unsortedUnits)
    ∧ arrays h1 !! 0
      = Some (if isSorted unsortedUnits then unsortedUnits
              else sort _ cmpUnits unsortedUnits)
    ∧ (isSorted unsortedUnits = false ->
         Sorted byId (sort _ cmpUnits unsortedUnits)
         ∧ sort _ cmpUnits unsortedUnits ≡ₚ unsortedUnits)
    ∧ (forall a', a' ≠ 0 -> arrays h1 !! a' = arrays heap3 !! a').
Proof.
  apply (constructor_owns_array heap3 0 unsortedUnits noProps).
  - reflexivity.
  - intros p Hp. discriminate Hp.
Defined.

(** A structure constructed with the moved copy (instance 1 of [heap2],
    whose parent is instance 0) as its parent. *)
Definition childProps : Props :=
  {| parent := Some 1; coordinateSystem := None; label := None;
     masterModel := None; representativeModel := None |}.

Lemma parent_is_root_witness :
  exists s h1 o po r,
    new_Structure 0 childProps heap2 = (Return s, h1)
    ∧ structures heap2 !! 1 = Some po
    ∧ structures h1 !! s = Some o
    ∧ r = default 1 (_parent (_props po))
    ∧ _parent (_props o) = Some r
    ∧ root 1 heap2 = (Return r, heap2)
    ∧ root s h1 = (Return r, h1)
    ∧ getParent r h1 = (Return None, h1)
    ∧ (forall r', rtc (parentOf h1) s r' ->
                  (forall r'', ¬ parentOf h1 r' r'') -> r' = r)
    ∧ (forall s0 m, s0 < length (structures heap2) ->
         Mat4_isIdentity m = false -> Mat4_isRotationAndTranslation m = true ->
         exists s' h2 r0,
           transform s0 m heap2 = (Return s', h2)
           ∧ root s0 heap2 = (Return r0, heap2)
           ∧ getParent s' h2 = (Return (Some r0), h2)).
Proof.
  apply (parent_is_root heap2 0 1 childProps).
  - apply heap2_reachable.
  - vm_compute. lia.
  - vm_compute. lia.
  - reflexivity.
Defined.

(** In [heap2] the moved copy's parent is the original; a structure built
    from the moved copy points to the original too. *)
Example provenance_is_flat :
  map (fun o => _parent (_props o))
      (structures (new_Structure 0 childProps heap2).2)
  = [None; Some 0; Some 0].
Proof. reflexivity. Qed.

Lemma model_resolution_witness :
  exists o us,
    structures heap4 !! 0 = Some o ∧ arrays heap4 !! units o = Some us
    ∧ match _representativeModel (_props o), _masterModel (_props o) with
      | Some m, _ => model 0 heap4 = (Return (Some m), heap4)
      | None, Some m => model 0 heap4 = (Return (Some m), heap4)
      | None, None =>
          (1 < length (getModels us) -> (model 0 heap4).1 = Throw ambiguous)
          ∧ (forall m, getModels us = [m] -> (model 0 heap4).1 = Return (Some m))
      end.
Proof.
  apply (model_resolution heap4 0).
  - apply heap4_reachable.
  - vm_compute. lia.
Defined.

(** Two models and nothing designated: [model] throws. *)
Example model_of_two_models_throws : (model 0 heap4).1 = Throw ambiguous.
Proof. reflexivity. Qed.

(** C5 as stated fails: the structure of [heap5] references exactly one
    model, B, and [model] returns another one, the representative model A. *)
Lemma single_model_not_returned :
  (models 0 heap5).1 = Return [modelB]
  ∧ (model 0 heap5).1 = Return (Some modelA)
  ∧ (model 0 heap5).1 ≠ Return (Some modelB).
Proof.
  assert (Hm : (model 0 heap5).1 = Return (Some modelA)) by reflexivity.
  split; [reflexivity|]. split; [exact Hm|].
  rewrite Hm. unfold modelA, modelB. discriminate.
Qed.

Lemma transformHash_of_ids_witness :
  exists o us s' h1,
    structures heap1 !! 0 = Some o ∧ arrays heap1 !! units o = Some us
    ∧ (transformHash 0 heap1).1 = Return (hashFnv32a (map Unit.id us))
    ∧ transform 0 translation heap1 = (Return s', h1) ∧ s' ≠ 0
    ∧ (transformHash s' h1).1 = Return (hashFnv32a (map Unit.id us)).
Proof.
  apply (transformHash_of_ids heap1 0 translation).
  - apply heap1_reachable.
  - vm_compute. lia.
  - reflexivity.
  - reflexivity.
Defined.

(** C7 as stated fails: the translation is a rotation plus translation and
    not the identity, [transform] returns the new instance 1, and its
    [transformHash] is that of the original, instance 0. *)
Lemma moved_copy_keeps_transformHash :
  Mat4_isIdentity translation = false
  ∧ Mat4_isRotationAndTranslation translation = true
  ∧ transform 0 translation heap1 = (Return 1, heap2)
  ∧ (transformHash 1 heap2).1 = (transformHash 0 heap2).1.
Proof. repeat split; reflexivity. Qed.

(** The residue partitioner on the two-residue chain with the one-bucket
    lookup: one unit, of the first residue only. *)
Example residue_partition_example :
  emitted (partitionAtomicUnitByResidue modelA twoResiduesAtoms (Builder noProps) false)
  = [[0; 1; 2]%Z]
  ∧ emitted (partitionAtomicUnitByAtom modelA twoResiduesAtoms (Builder noProps) false)
    = [[0; 1; 2; 3; 4; 5]%Z].
Proof. split; reflexivity. Qed.

Lemma elementCount_is_sum_witness :
  exists o us,
    structures heap1 !! 0 = Some o ∧ arrays heap1 !! units o = Some us
    ∧ elementCount 0 heap1
      = (Return (Z.of_nat (length (concat (map Unit.elements us)))), heap1).
Proof.
  apply (elementCount_is_sum heap1 0).
  - apply heap1_reachable.
  - vm_compute. lia.
Defined.

Lemma areUnitAndIndicesEqual_decides_witness :
  exists oa ua ob ub,
    structures heap2 !! 0 = Some oa ∧ arrays heap2 !! units oa = Some ua
    ∧ structures heap2 !! 1 = Some ob ∧ arrays heap2 !! units ob = Some ub
    ∧ areUnitAndIndicesEqual 0 1 heap2
      = (Return (bool_decide (pairsOf ua = pairsOf ub)), heap2)
    ∧ areUnitAndIndicesEqual 0 0 heap2 = (Return true, heap2)
    ∧ ((areUnitAndIndicesEqual 0 1 heap2).1 = Return true ->
       (hashCode 0 heap2).1 = (hashCode 1 heap2).1).
Proof.
  apply (areUnitAndIndicesEqual_decides heap2 0 1).
  - apply heap2_reachable.
  - vm_compute. lia.
  - vm_compute. lia.
Defined.

(** The moved copy has the units and indices of the original. *)
Example moved_copy_is_equal :
  (areUnitAndIndicesEqual 0 1 heap2).1 = Return true.
Proof. reflexivity. Qed.

Lemma atom_partition_exact_witness :
  concat (emitted (partitionAtomicUnitByAtom modelA twoResiduesAtoms
                     (Builder noProps) false))
  ≡ₚ twoResiduesAtoms.
Proof.
  apply (atom_partition_exact modelA twoResiduesAtoms noProps false).
  split.
  - repeat constructor.
  - reflexivity.
Defined.

Lemma moved_copy_shares_root_witness :
  exists s' h1,
    transform 0 translation heap1 = (Return s', h1)
    ∧ areRootsEqual s' 0 h1 = (Return true, h1).
Proof.
  apply (moved_copy_shares_root heap1 0 translation).
  - apply heap1_reachable.
  - vm_compute. lia.
  - reflexivity.
  - reflexivity.
Defined.

(** *** Queries *)

(** One unit of four atoms: atom 0 is residue 0, atoms 1..3 are residue 1,
    all of chain 0. *)
Definition residueOf : IntData.Segmentation :=
  {| IntData.getSegment := fun a => if decide (a = 0)%Z then 0%Z else 1%Z |}.

Definition oneChain : IntData.Segmentation :=
  {| IntData.getSegment := fun _ => 0%Z |}.

Definition queryUnit : Query.Unit :=
  {| Query.id := 0;
     Query.hierarchy :=
       {| Query.chainSegments := oneChain; Query.residueSegments := residueOf |} |}.

Definition queryStructure : Query.Structure :=
  {| Query.atoms := [(0%Z, [0; 1; 2; 3]%Z)]; Query.units := fun _ => queryUnit |}.

(** [P.residue.key] and an atom key. *)
Definition residueKey : Query.Property Z :=
  fun l => IntData.getSegment residueOf (Query.atom l).

Definition atomKey : Query.Property Z := fun l => Query.atom l.

(** A stand-in for [AtomSet.ofAtoms]. *)
Definition ofAtoms (atoms : list Query.Atom) (_ : list (Z * list Z))
    : list (Z * list Z) :=
  foldl (fun us a => Query.Builder.addAtom us (Query.atomUnit a) (Query.atomIndex a))
        [] atoms.

Definition groupedBy (key : Query.Property Z) : Query.AtomQueryParams :=
  {| Query.p_entityTest := None; Query.p_chainTest := None;
     Query.p_residueTest := None; Query.p_atomTest := None;
     Query.p_groupBy := Some key |}.

(** Grouping by residue: groups of sizes 1 and 3, so a sequence of subsets. *)
Example residues_of_sizes_1_and_3 :
  Query.atomsQuery ofAtoms (Some (groupedBy residueKey)) queryStructure
  = Query.Sequence queryStructure [[(0%Z, [0%Z])]; [(0%Z, [1; 2; 3]%Z)]].
Proof. reflexivity. Qed.

(** Grouping by atom: every group is a singleton, so the singleton shape. *)
Example atoms_one_by_one :
  Query.atomsQuery ofAtoms (Some (groupedBy atomKey)) queryStructure
  = Query.Singletons queryStructure [(0%Z, [0; 1; 2; 3]%Z)].
Proof. reflexivity. Qed.

(** An atom test that nothing passes, grouped: the empty selection. *)
Example nothing_selected :
  Query.atomsQuery ofAtoms
    (Some {| Query.p_entityTest := None; Query.p_chainTest := None;
             Query.p_residueTest := None; Query.p_atomTest := Some (fun _ => false);
             Query.p_groupBy := Some atomKey |})
    queryStructure
  = Query.Empty queryStructure.
Proof. reflexivity. Qed.

(** Without tests and group-by: the full element set. *)
Example all_atoms :
  Query.atomsQuery ofAtoms None queryStructure
  = Query.Singletons queryStructure [(0%Z, [0; 1; 2; 3]%Z)].
Proof. reflexivity. Qed.

End Examples.

(** ** Part V, continued: the further members run on concrete inputs *)

Module MoreExamples.

Import Struct StructFacts StructViews ViewFacts StructBuild BuildFacts.
Import Reference Examples.

(** *** [transform], [models] and the constructor *)

Lemma moved_copy_same_content_witness :
  exists s' h1,
    transform 0 translation heap1 = (Return s', h1)
    ∧ s' ≠ 0 ∧ structures heap1 !! s' = None ∧ is_Some (structures h1 !! s')
    ∧ areUnitAndIndicesEqual s' 0 h1 = (Return true, h1)
    ∧ (hashCode s' h1).1 = (hashCode 0 heap1).1
    ∧ (elementCount s' h1).1 = (elementCount 0 heap1).1
    ∧ (isEmpty s' h1).1 = (isEmpty 0 heap1).1
    ∧ (isAtomic s' h1).1 = (isAtomic 0 heap1).1.
Proof.
  apply (moved_copy_same_content heap1 0 translation).
  - apply heap1_reachable.
  - vm_compute. lia.
  - reflexivity.
  - reflexivity.
Defined.

Lemma moved_copy_same_model_witness :
  exists s' h1,
    transform 0 translation heap4 = (Return s', h1)
    ∧ (models s' h1).1 = (models 0 heap4).1
    ∧ (model s' h1).1 = (model 0 heap4).1.
Proof.
  apply (moved_copy_same_model heap4 0 translation).
  - apply heap4_reachable.
  - vm_compute. lia.
  - reflexivity.
  - reflexivity.
Defined.

(** The structure of two models and its moved copy: [model] throws on
    both. *)
Example moved_copy_of_two_models_throws :
  (model 1 (transform 0 translation heap4).2).1 = Throw ambiguous.
Proof. reflexivity. Qed.

Lemma models_unique_witness :
  exists o us ms h1,
    structures heap4 !! 0 = Some o ∧ arrays heap4 !! units o = Some us
    ∧ models 0 heap4 = (Return ms, h1)
    ∧ models 0 h1 = (Return ms, h1)
    ∧ NoDup (map Model.id ms)
    ∧ (forall u, u ∈ us -> Model.id (Unit.model u) ∈ map Model.id ms)
    ∧ ms `sublist_of` map Unit.model us
    ∧ exists ks, StronglySorted lt ks ∧ Forall2 (firstReference us) ks ms.
Proof.
  apply (models_unique heap4 0).
  - apply heap4_reachable.
  - vm_compute. lia.
Defined.

Lemma constructor_inherits_witness :
  exists po,
    structures heap2 !! 1 = Some po
    ∧ exists s h1,
    new_Structure 0 childProps heap2 = (Return s, h1)
    ∧ getLabel s h1
      = (Return (default (_label (_props po)) (truthyString (label childProps))),
         h1)
    ∧ getCoordinateSystem s h1
      = (Return (default (_coordinateSystem (_props po))
                   (coordinateSystem childProps)), h1)
    ∧ getMasterModel s h1
      = (Return (orInherited (masterModel childProps) (_masterModel (_props po))),
         h1)
    ∧ getRepresentativeModel s h1
      = (Return (orInherited (representativeModel childProps)
                   (_representativeModel (_props po))), h1)
    ∧ getParent s h1 = (Return (Some (default 1 (_parent (_props po)))), h1).
Proof.
  eexists. split; [reflexivity|].
  eapply (constructor_inherits heap2 0 _ childProps 1); reflexivity.
Defined.

Definition matrixOf (r : Outcome SymmetryOperator.t) : option Mat4 :=
  match r with
  | Return cs => Some (SymmetryOperator.matrix cs)
  | Throw _ => None
  end.

(** A structure built with the moved copy as its parent has the coordinate
    system of the moved copy, the translation, and the original, whose
    coordinate system is the identity, as its stored parent. *)
Example child_of_moved_copy :
  let h := (new_Structure 0 childProps heap2).2 in
  matrixOf (getCoordinateSystem 2 h).1 = Some translation
  ∧ matrixOf (getCoordinateSystem 0 h).1 = Some identity4
  ∧ (getParent 2 h).1 = Return (Some 0).
Proof. repeat split; reflexivity. Qed.

(** *** The builder *)

Definition twoUnitBuilder : StructureBuilder :=
  addUnit (addUnit (Builder noProps) Unit.Atomic modelA Default [0; 1; 2]%Z
             Unit.Trait_None)
    Unit.Atomic modelA Default [3; 4]%Z Unit.Trait_None.

Lemma builder_ids_are_positions_witness :
  map Unit.id (b_units twoUnitBuilder)
  = map Z.of_nat (seq 0 (length (b_units twoUnitBuilder)))
  ∧ NoDup (map Unit.id (b_units twoUnitBuilder))
  ∧ exists s h1 o,
      getStructure twoUnitBuilder emptyHeap = (Return s, h1)
      ∧ structures h1 !! s = Some o
      ∧ arrays h1 !! units o = Some (b_units twoUnitBuilder)
      ∧ forall a, a < length (arrays emptyHeap) ->
                  arrays h1 !! a = arrays emptyHeap !! a.
Proof.
  apply (builder_ids_are_positions twoUnitBuilder emptyHeap).
  - repeat constructor.
  - intros p Hp. discriminate Hp.
Defined.

(** *** The id maps and [hasElement] *)

Lemma unit_maps_agree_witness :
  exists o us,
    structures heap1 !! 0 = Some o ∧ arrays heap1 !! units o = Some us
    ∧ (forall k u, unitMap o !! k = Some u -> u ∈ us ∧ Unit.id u = k)
    ∧ (forall k i, unitIndexMap o !! k = Some i ->
         exists u, us !! i = Some u ∧ Unit.id u = k)
    ∧ (forall u, u ∈ us ->
         is_Some (unitMap o !! Unit.id u) ∧ is_Some (unitIndexMap o !! Unit.id u))
    ∧ (NoDup (map Unit.id us) ->
       forall i u, us !! i = Some u ->
         unitMap o !! Unit.id u = Some u ∧ unitIndexMap o !! Unit.id u = Some i).
Proof.
  apply (unit_maps_agree heap1 0).
  - apply heap1_reachable.
  - vm_compute. lia.
Defined.

(** Element 4 of the unit with id 1, as a unit of another model. *)
Definition foreignLocation : Location :=
  {| unit := unitOf 1 modelB [7]%Z; element := 4 |}.

Lemma hasElement_by_id_witness :
  exists o us b,
    structures heap1 !! 0 = Some o ∧ arrays heap1 !! units o = Some us
    ∧ hasElement 0 foreignLocation heap1 = (Return b, heap1)
    ∧ (b = true ->
       exists u, u ∈ us ∧ Unit.id u = Unit.id (unit foreignLocation)
                 ∧ element foreignLocation ∈ Unit.elements u)
    ∧ (NoDup (map Unit.id us) ->
       (exists u, u ∈ us ∧ Unit.id u = Unit.id (unit foreignLocation)
                  ∧ element foreignLocation ∈ Unit.elements u)
       -> b = true).
Proof.
  apply (hasElement_by_id heap1 0 foreignLocation).
  - apply heap1_reachable.
  - vm_compute. lia.
Defined.

(** [hasElement] holds of a location whose unit is not a unit of the
    structure: only the id of the unit is looked at. *)
Example hasElement_of_foreign_unit :
  (hasElement 0 foreignLocation heap1).1 = Return true
  ∧ (hasElement 0 {| unit := unitOf 1 modelB [7]%Z; element := 7 |} heap1).1
    = Return false.
Proof. split; reflexivity. Qed.

(** *** The serial mapping *)

Lemma serial_mapping_round_trip_witness :
  exists o us sm,
    structures heap1 !! 0 = Some o ∧ arrays heap1 !! units o = Some us
    ∧ getSerialMapping 0 heap1 = (Return sm, heap1)
    ∧ length (unitElementCount sm) = length us
    ∧ length (unitIndices sm) = length (allElements us)
    ∧ length (elementIndices sm) = length (allElements us)
    ∧ forall i u j e,
        us !! i = Some u -> Unit.elements u !! j = Some e ->
        let m := length (allElements (take i us)) in
        unitElementCount sm !! i = Some (StructViews.u32 (Z.of_nat m))
        ∧ unitIndices sm !! (m + j) = Some (StructViews.u32 (Z.of_nat i))
        ∧ elementIndices sm !! (m + j) = Some (StructViews.u32 e).
Proof.
  apply (serial_mapping_round_trip heap1 0).
  - apply heap1_reachable.
  - vm_compute. lia.
Defined.

Example serial_mapping_of_two_units :
  (getSerialMapping 0 heap1).1
  = Return {| unitElementCount := [0; 3]%Z;
              unitIndices := [0; 0; 0; 1; 1]%Z;
              elementIndices := [0; 1; 2; 3; 4]%Z |}.
Proof. reflexivity. Qed.

(** *** The element location iterator *)

Lemma iterator_enumerates_witness :
  exists it,
    elementLocations 0 heap1 = (Return it, heap1)
    ∧ forall fuel, length (allElements twoUnits) < fuel ->
        drain fuel it heap1 = (Return (Some (locationsOf twoUnits)), heap1).
Proof.
  refine (iterator_enumerates heap1 0 _ twoUnits heap1_reachable _ _ _ _).
  - reflexivity.
  - reflexivity.
  - intros [|[|i]] u; simpl; intros Hu; [|discriminate Hu|discriminate Hu].
    injection Hu as <-. discriminate.
  - intros u _ Hu. injection Hu as <-. simpl. lia.
Defined.

(** A structure whose last unit has one element: units [0, 1, 2] and [3]. *)
Definition lastOfOne : list Unit.t :=
  [unitOf 0 modelA [0; 1; 2]%Z; unitOf 1 modelA [3]%Z].

Definition heap6 : Heap :=
  (new_Structure 0 noProps (newArray lastOfOne emptyHeap).2).2.

Lemma heap6_reachable : reachable heap6.
Proof. apply reachable_new, reachable_newArray, reachable_empty. Qed.

Lemma iterator_repeats_last_witness :
  exists it,
    elementLocations 0 heap6 = (Return it, heap6)
    ∧ forall fuel, length (allElements lastOfOne) + 1 < fuel ->
        drain fuel it heap6
        = (Return (Some (locationsOf lastOfOne
                         ++ [(Some (unitOf 1 modelA [3]%Z), Some 3%Z)])), heap6).
Proof.
  refine (iterator_repeats_last heap6 0 _ lastOfOne (unitOf 1 modelA [3]%Z) 3%Z
            heap6_reachable _ _ _ _ _ _).
  - reflexivity.
  - reflexivity.
  - intros [|[|i]] v; simpl; intros Hv; [|discriminate Hv|discriminate Hv].
    injection Hv as <-. discriminate.
  - simpl. lia.
  - reflexivity.
  - reflexivity.
Defined.

(** The elements a walk of at most [fuel] rounds visits. *)
Definition walk (fuel : nat) (s : SRef) (h : Heap) : option (list (option Z)) :=
  match elementLocations s h with
  | (Return it, h) =>
      match drain fuel it h with
      | (Return (Some l), _) => Some (map snd l)
      | _ => None
      end
  | _ => None
  end.

(** The walk over [heap1] visits its five elements; the walk over [heap6],
    which has four elements, visits five locations. *)
Example walk_of_last_of_one :
  walk 10 0 heap1 = Some [Some 0; Some 1; Some 2; Some 3; Some 4]%Z
  ∧ walk 10 0 heap6 = Some [Some 0; Some 1; Some 2; Some 3; Some 3]%Z.
Proof. split; reflexivity. Qed.

(** *** Polymer counts *)

Lemma polymer_counts_witness :
  exists o us r n,
    structures heap1 !! 0 = Some o ∧ arrays heap1 !! units o = Some us
    ∧ getPolymerResidueCount Unit.elements 0 heap1 = (Return r, heap1)
    ∧ getPolymerUnitCount Unit.elements 0 heap1 = (Return n, heap1)
    ∧ (0 <= n <= r)%Z ∧ (n <= Z.of_nat (length us))%Z
    ∧ (r = 0%Z <-> n = 0%Z).
Proof.
  apply (polymer_counts Unit.elements heap1 0).
  - apply heap1_reachable.
  - vm_compute. lia.
Defined.

(** *** [ofModel] and [ofTrajectory] *)

Definition chainsOf (offsets : list Z) : SegmentOffsets :=
  {| seg_count := length offsets - 1;
     seg_offsets := fun c => default 0%Z (offsets !! c) |}.

Definition noCoarse : CoarseElements :=
  {| coarse_count := 0; chainElementSegments := chainsOf [0%Z] |}.

(** A model of two chains: atoms 0..2 in one residue, and atoms 3 and 4 in
    two residues of one atom each. *)
Definition fullModel (model : Model.t) : FullModel :=
  {| core := model;
     chainAtomSegments := chainsOf [0; 3; 5]%Z;
     chainResidueCount := fun c => match c with O => 1%Z | _ => 2%Z end;
     getEntityFromChain := fun c => Z.of_nat c;
     auth_asym_id := fun _ => "A";
     entityType := fun _ => "polymer";
     coarse_isDefined := false;
     spheres := noCoarse;
     gaussians := noCoarse |}.

Lemma oneBucket_valid (indices : list Z) (cellCount : option Z) :
  validBuckets (oneBucket () indices cellCount) (length indices).
Proof.
  split.
  - repeat constructor. simpl. by rewrite length_seq.
  - unfold oneBucket, slice. simpl. rewrite drop_0, app_nil_r.
    by rewrite take_ge by (by rewrite length_seq).
Qed.

Lemma ofModel_partitions_atoms_witness :
  exists s h1 o us,
    ofModel (fullModel modelA) emptyHeap = (Return s, h1)
    ∧ structures h1 !! s = Some o ∧ arrays h1 !! units o = Some us
    ∧ map Unit.id us = map Z.of_nat (seq 0 (length us))
    ∧ allElements (List.filter isAtomicUnit us)
      ≡ₚ SortedArray_ofBounds
           (seg_offsets (chainAtomSegments (fullModel modelA)) 0)
           (seg_offsets (chainAtomSegments (fullModel modelA))
              (seg_count (chainAtomSegments (fullModel modelA))))
    ∧ Forall (fun u => Unit.model u = core (fullModel modelA)) us.
Proof.
  apply (ofModel_partitions_atoms (fullModel modelA) emptyHeap).
  - intros indices. apply oneBucket_valid.
  - intros [|[|c]] Hc; simpl in *; lia.
  - intros [|[|c]] Hc; simpl in *; [right|left|lia].
    + split; [lia|reflexivity].
    + reflexivity.
Defined.

(** The two chains become two units, with ids 0 and 1. *)
Example ofModel_of_two_chains :
  map (fun u => (Unit.id u, Unit.elements u))
      (b_units (modelBuilder (fullModel modelA)))
  = [(0, [0; 1; 2]); (1, [3; 4])]%Z.
Proof. reflexivity. Qed.

Lemma residue_partition_loses_last_residue_witness :
  exists sets,
    emitted (partitionAtomicUnitByResidue modelA (SortedArray_ofBounds 0 6)
               (Builder noProps) false)
    = emitted (Builder noProps) ++ sets
    ∧ concat sets
      ≡ₚ SortedArray_ofBounds 0
           (0 + Z.of_nat
                  (default 0
                     (IntData.start
                        <$> last (IntData.transientSegments
                                    (Model.residueAtomSegments modelA)
                                    (SortedArray_ofBounds 0 6))))).
Proof.
  apply (residue_partition_loses_last_residue modelA 0 6 (Builder noProps) false).
  intros startIndices cellCount. apply oneBucket_valid.
Defined.

(** On the six atoms of model A the last residue starts at position 3: the
    atoms 3, 4 and 5 are in no unit. *)
Example last_residue_of_model_A :
  IntData.start
    <$> last (IntData.transientSegments (Model.residueAtomSegments modelA)
                (SortedArray_ofBounds 0 6))
  = Some 3
  ∧ concat (emitted (partitionAtomicUnitByResidue modelA (SortedArray_ofBounds 0 6)
                       (Builder noProps) false))
    = [0; 1; 2]%Z.
Proof. split; reflexivity. Qed.

(** The heap in which instance 0 is [Structure.Empty]. *)
Definition heap0 : Heap := (new_Structure 0 noProps (newArray [] emptyHeap).2).2.

(** A trajectory of two models: four units with ids 0..3 in a new
    structure, instance 3, whose [model] is the first model; no model:
    [Structure.Empty]. *)
Example ofTrajectory_of_two_models :
  let r := ofTrajectory 0 [fullModel modelA; fullModel modelB] heap0 in
  r.1 = Return 3
  ∧ map (map (fun u => (Unit.id u, Model.id (Unit.model u)))) (arrays r.2)
    = [[]; [(0%Z, "A"); (1%Z, "A")]; [(0%Z, "B"); (1%Z, "B")];
       [(0%Z, "A"); (1%Z, "A"); (2%Z, "B"); (3%Z, "B")]]
  ∧ (model 3 r.2).1 = Return (Some modelA)
  ∧ (ofTrajectory 0 [] heap0).1 = Return 0.
Proof. repeat split; reflexivity. Qed.

End MoreExamples.

(** *** Queries, continued *)

Module FilterExamples.

Import Examples.

(** A residue test that keeps residue 1, whatever the unit. *)
Definition inResidueOne : Query.Predicate :=
  fun l =>
    bool_decide
      (IntData.getSegment
         (Query.residueSegments (Query.hierarchy (Query.unit l))) (Query.atom l)
       = 1%Z).

Definition residueOne : Query.AtomGroupsQueryParams :=
  {| Query.entityTest := Query.constant_true;
     Query.chainTest := Query.constant_true;
     Query.residueTest := inResidueOne;
     Query.atomTest := fun l => negb (bool_decide (Query.atom l = 2%Z));
     Query.groupBy := atomKey |}.

Lemma residueOne_respects :
  FilterFacts.respects (Query.entityTest residueOne) Query.chainSegments
  ∧ FilterFacts.respects (Query.chainTest residueOne) Query.chainSegments
  ∧ FilterFacts.respects (Query.residueTest residueOne) Query.residueSegments.
Proof.
  repeat split; intros u a a' Hseg; try reflexivity.
  simpl. unfold inResidueOne. simpl. by rewrite Hseg.
Qed.

Lemma segmented_is_filter_witness :
  Query.atomGroupsSegmented residueOne queryStructure
  = Query.Singletons queryStructure (FilterFacts.filtered residueOne queryStructure).
Proof.
  apply (FilterFacts.segmented_is_filter residueOne queryStructure);
    apply residueOne_respects.
Defined.

Lemma grouped_groups_filtered_witness :
  Query.atomGroupsGrouped ofAtoms residueOne queryStructure
  = Query.getSelection ofAtoms
      (QueryFacts.after queryStructure
         (FilterFacts.passingCalls residueOne queryStructure)).
Proof.
  apply (FilterFacts.grouped_groups_filtered ofAtoms residueOne queryStructure);
    apply residueOne_respects.
Defined.

(** Residue 1 without atom 2. *)
Example residue_one_without_atom_two :
  FilterFacts.filtered residueOne queryStructure = [(0%Z, [1; 3]%Z)]
  ∧ FilterFacts.passingCalls residueOne queryStructure
    = [(1, 0, 1); (3, 0, 3)]%Z.
Proof. split; reflexivity. Qed.

End FilterExamples.
